(** * A shallow embedding of the SPH core of go-raylib-water

    The program is [cmd/sph/main.go]: a two-dimensional Smoothed Particle
    Hydrodynamics simulator (kernels, a uniform hash grid, a density pass,
    a force pass and an integration pass).

    Arithmetic.  The program computes on [float32] and [float64].  The
    embedding idealises both as the real numbers: every operation is exact
    and the conversions between the two widths are the identity.  A float
    division by zero produces an infinity or a NaN, for which the reals
    have no value, and indexing a slice out of range panics; both are
    runs that leave the model, and the embedding makes them explicit: a
    function that divides or indexes returns an [option], and [None] is
    such a run.  Integers ([int], 64 bits) are [Z] with the wrap-around
    written out. *)

From Stdlib Require Import Reals Lra Lia ZArith Zfloor.
From stdpp Require Import base decidable option list gmap.

Local Open Scope R_scope.

(** ** Decidable comparisons on the reals *)

#[global] Instance R_eq_dec : EqDecision R := Req_dec_T.
#[global] Instance Rlt_decision (x y : R) : Decision (x < y) := Rlt_dec x y.
#[global] Instance Rle_decision (x y : R) : Decision (x <= y) := Rle_dec x y.
#[global] Instance Rgt_decision (x y : R) : Decision (x > y) := Rgt_dec x y.
#[global] Instance Rge_decision (x y : R) : Decision (x >= y) := Rge_dec x y.

(** ** Division

    [a / b] of the program.  A zero divisor leaves the model. *)
Definition fdiv (a b : R) : option R :=
  if decide (b = 0) then None else Some (a / b).

(** ** Integers

    Go's [int] on the 64-bit targets. *)
Definition minInt : Z := (- 2 ^ 63)%Z.
Definition maxInt : Z := (2 ^ 63 - 1)%Z.

(** Two's complement wrap-around of integer addition. *)
Definition wrap (z : Z) : Z := ((z + 2 ^ 63) mod 2 ^ 64 - 2 ^ 63)%Z.

(** Truncation toward zero, the rounding of a float-to-integer conversion. *)
Definition trunc (x : R) : Z :=
  if decide (0 <= x) then Zfloor x else Zceil x.

(** [int(x)] for a float [x].  The language leaves the result open when the
    truncated value does not fit; the amd64 code generator uses the
    CVTTSS2SQ instruction, whose answer is then the smallest integer. *)
Definition toInt (x : R) : Z :=
  let t := trunc x in
  if decide (minInt <= t <= maxInt)%Z then t else minInt.

(** ** Configurable parameters *)

Definition particleCount : nat := 1000.
Definition restDensity : R := 1000.
Definition gasConstant : R := 50.
Definition viscosity : R := 250.
Definition h : R := 16.
Definition mass : R := 200.
Definition timeStep : R := 0.0015.
Definition gravity : R := 3000.
Definition windowWidth : Z := 800.
Definition windowHeight : Z := 400.

(** ** Vectors

    [rl.Vector2] and the raymath operations the program calls.  They
    belong to the imported raylib-go library, not to this repository;
    the definitions follow the library's documented meaning. *)

Record Vector2 : Type := mkVector2 { X : R; Y : R }.

Definition Vector2Zero : Vector2 := mkVector2 0 0.

Definition Vector2Add (v1 v2 : Vector2) : Vector2 :=
  mkVector2 (X v1 + X v2) (Y v1 + Y v2).

Definition Vector2Subtract (v1 v2 : Vector2) : Vector2 :=
  mkVector2 (X v1 - X v2) (Y v1 - Y v2).

Definition Vector2Scale (v : Vector2) (scale : R) : Vector2 :=
  mkVector2 (X v * scale) (Y v * scale).

Definition Vector2Length (v : Vector2) : R :=
  sqrt (X v * X v + Y v * Y v).

(** The library scales by the inverse of the length.  Its releases differ
    on the zero vector (a later one returns it unchanged); dividing
    unguarded is the conservative reading, and [integrate] only calls it
    on a vector longer than 1000. *)
Definition Vector2Normalize (v : Vector2) : option Vector2 :=
  ilength ← fdiv 1 (Vector2Length v);
  Some (Vector2Scale v ilength).

(** ** Kernel functions *)

Definition poly6 (r h : R) : option R :=
  if bool_decide (r >= 0) && bool_decide (r <= h) then
    c ← fdiv 315 (64 * PI * h ^ 9);
    Some (c * (h * h - r * r) ^ 3)
  else Some 0.

Definition spikyGrad (rij : Vector2) (r h : R) : option Vector2 :=
  if bool_decide (r > 0) && bool_decide (r <= h) then
    c ← fdiv (-45) (PI * h ^ 6);
    let m := c * (h - r) ^ 2 in
    s ← fdiv m r;
    Some (Vector2Scale rij s)
  else Some Vector2Zero.

Definition viscLaplacian (r h : R) : option R :=
  if bool_decide (r >= 0) && bool_decide (r <= h) then
    c ← fdiv 45 (PI * h ^ 6);
    Some (c * (h - r))
  else Some 0.

(** ** Data structures *)

Record Particle : Type := mkParticle {
  pos : Vector2;
  vel : Vector2;
  density : R;
  pressure : R
}.

Record Grid : Type := mkGrid {
  cellSize : R;
  cells : gmap (Z * Z) (list nat)
}.

Record SPHSim : Type := mkSPHSim {
  particles : list Particle;
  grid : Grid
}.

(** Field assignments [p.f = v]. *)
Definition setPos (v : Vector2) (p : Particle) : Particle :=
  mkParticle v (vel p) (density p) (pressure p).
Definition setVel (v : Vector2) (p : Particle) : Particle :=
  mkParticle (pos p) v (density p) (pressure p).
Definition setDensity (d : R) (p : Particle) : Particle :=
  mkParticle (pos p) (vel p) d (pressure p).
Definition setPressure (q : R) (p : Particle) : Particle :=
  mkParticle (pos p) (vel p) (density p) q.
Definition setX (x : R) (v : Vector2) : Vector2 := mkVector2 x (Y v).
Definition setY (y : R) (v : Vector2) : Vector2 := mkVector2 (X v) y.

(** ** Loops

    [for _, x := range xs { a = body x a }], stopping at the first run
    that leaves the model. *)
Fixpoint forEach {A B : Type} (body : B → A → option A) (xs : list B) (a : A)
  : option A :=
  match xs with
  | [] => Some a
  | x :: xs' => a' ← body x a; forEach body xs' a'
  end.

(** ** Grid calculations *)

(** A map read [g.cells[k]]: the nil slice when the key is absent. *)
Definition bucket (m : gmap (Z * Z) (list nat)) (k : Z * Z) : list nat :=
  default [] (m !! k).

Definition Clear (g : Grid) : Grid :=
  mkGrid (cellSize g) ((λ _, []) <$> cells g).

(** The key expression shared by [Insert] and [Nearby]. *)
Definition cellKey (g : Grid) (p : Particle) : option (Z * Z) :=
  kx ← fdiv (X (pos p)) (cellSize g);
  ky ← fdiv (Y (pos p)) (cellSize g);
  Some (toInt kx, toInt ky).

(** The body of the loop of [Insert], at index [i]. *)
Definition insertAt (i : nat) (p : Particle) (g : Grid) : option Grid :=
  key ← cellKey g p;
  Some (mkGrid (cellSize g) (<[key := bucket (cells g) key ++ [i]]> (cells g))).

Fixpoint insertFrom (i : nat) (ps : list Particle) (g : Grid) : option Grid :=
  match ps with
  | [] => Some g
  | p :: ps' => g' ← insertAt i p g; insertFrom (S i) ps' g'
  end.

Definition Insert (g : Grid) (ps : list Particle) : option Grid :=
  insertFrom 0 ps (Clear g).

Definition offsets : list Z := [-1; 0; 1]%Z.

Definition Nearby (g : Grid) (p : Particle) : option (list nat) :=
  key ← cellKey g p;
  Some (dy ← offsets; dx ← offsets;
        bucket (cells g) (wrap (key.1 + dx), wrap (key.2 + dy))).

(** ** SPH core *)

(** One iteration of the inner loop of [computeDensities]; [pi] and [pj]
    point into the slice, so both are read from the current [ps]. *)
Definition densityNeighbour (i j : nat) (ps : list Particle)
  : option (list Particle) :=
  pi ← ps !! i;
  pj ← ps !! j;
  let rv := Vector2Subtract (pos pi) (pos pj) in
  let r := Vector2Length rv in
  if bool_decide (r < h) then
    w ← poly6 r h;
    Some (<[i := setDensity (density pi + mass * w) pi]> ps)
  else Some ps.

(** The body of the outer loop of [computeDensities]. *)
Definition densityAt (g : Grid) (i : nat) (ps : list Particle)
  : option (list Particle) :=
  pi ← ps !! i;
  let ps := <[i := setDensity 0 pi]> ps in
  pi ← ps !! i;
  ids ← Nearby g pi;
  ps ← forEach (densityNeighbour i) ids ps;
  pi ← ps !! i;
  Some (<[i := setPressure (gasConstant * (density pi - restDensity)) pi]> ps).

Definition computeDensities (s : SPHSim) : option SPHSim :=
  ps ← forEach (densityAt (grid s)) (seq 0 (length (particles s))) (particles s);
  Some (mkSPHSim ps (grid s)).

(** One iteration of the inner loop of [computeForces]: the slice is only
    read there, the accumulator [acc] is the local that changes. *)
Definition forceNeighbour (ps : list Particle) (i j : nat) (acc : Vector2)
  : option Vector2 :=
  if decide (i = j) then Some acc else
  pi ← ps !! i;
  pj ← ps !! j;
  let rij := Vector2Subtract (pos pi) (pos pj) in
  let r := Vector2Length rij in
  if bool_decide (r <= 0) || bool_decide (r > h) then Some acc else
  pressureTerm ← fdiv (- mass * (pressure pi + pressure pj)) (2 * density pj);
  grad ← spikyGrad rij r h;
  sp ← fdiv pressureTerm (density pj);
  let acc := Vector2Add acc (Vector2Scale grad sp) in
  let dv := Vector2Subtract (vel pj) (vel pi) in
  kv ← viscLaplacian r h;
  let visc := viscosity * kv in
  sv ← fdiv visc (density pj);
  Some (Vector2Add acc (Vector2Scale dv sv)).

(** The body of the outer loop of [computeForces]. *)
Definition forceAt (g : Grid) (i : nat) (ps : list Particle)
  : option (list Particle) :=
  pi ← ps !! i;
  ids ← Nearby g pi;
  acc ← forEach (forceNeighbour ps i) ids (mkVector2 0 gravity);
  Some (<[i := setVel (Vector2Add (vel pi) (Vector2Scale acc timeStep)) pi]> ps).

Definition computeForces (s : SPHSim) : option SPHSim :=
  ps ← forEach (forceAt (grid s)) (seq 0 (length (particles s))) (particles s);
  Some (mkSPHSim ps (grid s)).

(** The four stages of the body of the loop of [integrate]. *)

Definition advance (p : Particle) : Particle :=
  setPos (Vector2Add (pos p) (Vector2Scale (vel p) timeStep)) p.

Definition wallCollisions (p : Particle) : Particle :=
  let p := if bool_decide (X (pos p) < 5)
           then setVel (setX (X (vel p) * -0.5) (vel p)) (setPos (setX 5 (pos p)) p)
           else p in
  let p := if bool_decide (X (pos p) > IZR (windowWidth - 5))
           then setVel (setX (X (vel p) * -0.5) (vel p))
                  (setPos (setX (IZR (windowWidth - 5)) (pos p)) p)
           else p in
  let p := if bool_decide (Y (pos p) < 5)
           then setVel (setY (Y (vel p) * -0.5) (vel p)) (setPos (setY 5 (pos p)) p)
           else p in
  let p := if bool_decide (Y (pos p) > IZR (windowHeight - 5))
           then setVel (setY (Y (vel p) * -0.5) (vel p))
                  (setPos (setY (IZR (windowHeight - 5)) (pos p)) p)
           else p in
  p.

Definition clampVelocity (p : Particle) : option Particle :=
  let speed := Vector2Length (vel p) in
  if bool_decide (speed > 1000) then
    n ← Vector2Normalize (vel p);
    Some (setVel (Vector2Scale n 1000) p)
  else Some p.

Definition applyDrag (p : Particle) : Particle :=
  let drag := 0.995 in
  setVel (Vector2Scale (vel p) drag) p.

Definition integrateAt (i : nat) (ps : list Particle) : option (list Particle) :=
  p ← ps !! i;
  p ← clampVelocity (wallCollisions (advance p));
  Some (<[i := applyDrag p]> ps).

Definition integrate (s : SPHSim) : option SPHSim :=
  ps ← forEach integrateAt (seq 0 (length (particles s))) (particles s);
  Some (mkSPHSim ps (grid s)).

Definition TotalKineticEnergy (s : SPHSim) : R :=
  foldl (λ total p, let v := Vector2Length (vel p) in
                    total + 0.5 * mass * (v * v))
    0 (particles s).

Definition Step (s : SPHSim) : option SPHSim :=
  g ← Insert (grid s) (particles s);
  s ← computeDensities (mkSPHSim (particles s) g);
  s ← computeForces s;
  integrate s.

(** [n] calls of [Step] in a row, as the main loop makes them. *)
Fixpoint Steps (n : nat) (s : SPHSim) : option SPHSim :=
  match n with
  | O => Some s
  | S n' => s' ← Step s; Steps n' s'
  end.

(** ** Initialization *)

Definition zeroParticle : Particle := mkParticle Vector2Zero Vector2Zero 0 0.

(** The body of the inner loop of [NewSPHSim].  The loop is left when the
    index is beyond the slice; as the index only grows along a row, that
    is the same as skipping the rest of the row one by one. *)
Definition placeAt (cols : nat) (spacing : R) (y x : nat) (ps : list Particle)
  : list Particle :=
  let i := (y * cols + x)%nat in
  match ps !! i with
  | Some p =>
      <[i := setPos (mkVector2 (200 + INR x * spacing) (50 + INR y * spacing)) p]> ps
  | None => ps
  end.

Definition NewSPHSim : SPHSim :=
  let ps := replicate particleCount zeroParticle in
  let g := mkGrid h ∅ in
  let cols := Z.to_nat (toInt (sqrt (INR particleCount))) in
  let rows := cols in
  let spacing := 10 in
  let ps := foldl (λ ps y, foldl (λ ps x, placeAt cols spacing y x ps) ps (seq 0 cols))
              ps (seq 0 rows) in
  mkSPHSim ps g.

(** * Definitions for the statements

    What the properties below are stated with: the contents of a rebuilt
    grid, and the kernels and sums as the specification writes them, as
    total functions on the reals.  The properties relate the code to
    them. *)

(** The cell of a particle for cell size [c]. *)
Definition keyOf (c : R) (p : Particle) : Z * Z :=
  (toInt (X (pos p) / c), toInt (Y (pos p) / c)).

(** The indices, counted from [i], of the particles of [ps] in cell [k]. *)
Fixpoint cellMembers (c : R) (k : Z * Z) (i : nat) (ps : list Particle)
  : list nat :=
  match ps with
  | [] => []
  | p :: ps' =>
      (if decide (keyOf c p = k) then [i] else []) ++ cellMembers c k (S i) ps'
  end.

(** The formula of the density kernel: [315 / (64 π h⁹) · (h² − r²)³] on
    [0 ≤ r ≤ h], and [0] elsewhere. *)
Definition poly6_formula (r h : R) : R :=
  if decide (0 <= r <= h)
  then 315 / (64 * PI * h ^ 9) * (h ^ 2 - r ^ 2) ^ 3
  else 0.

(** The sum of a list of reals. *)
Definition sumR (l : list R) : R := foldr Rplus 0 l.

(** The positions of a slice of particles, in index order. *)
Definition positions (ps : list Particle) : list Vector2 := pos <$> ps.

(** [mass · poly6(|x − pos_j|, h)], the share of particle [j]. *)
Definition densityTerm (xs : list Vector2) (x : Vector2) (j : nat) : R :=
  from_option
    (λ y, mass * poly6_formula (Vector2Length (Vector2Subtract x y)) h)
    0 (xs !! j).

(** [Σ_j mass · poly6(|x − pos_j|, h)] over the indices [ids]. *)
Definition densitySum (xs : list Vector2) (x : Vector2) (ids : list nat) : R :=
  sumR (densityTerm xs x <$> ids).

(** A particle with the density [d] and the pressure the pass derives
    from it. *)
Definition withDensity (p : Particle) (d : R) : Particle :=
  mkParticle (pos p) (vel p) d (gasConstant * (d - restDensity)).

(** The formula of the pressure kernel's gradient: along the displacement
    [d], scaled by [−45 / (π h⁶) · (h − r)² / r] on [0 < r ≤ h], and the zero
    vector elsewhere. *)
Definition spikyGrad_formula (d : Vector2) (r h : R) : Vector2 :=
  if decide (0 < r <= h)
  then Vector2Scale d (-45 / (PI * h ^ 6) * (h - r) ^ 2 / r)
  else Vector2Zero.

(** The formula of the viscosity kernel: [45 / (π h⁶) · (h − r)] on
    [0 ≤ r ≤ h], and [0] elsewhere. *)
Definition viscLaplacian_formula (r h : R) : R :=
  if decide (0 <= r <= h) then 45 / (PI * h ^ 6) * (h - r) else 0.

(** What the pressure of neighbour [pj] adds to the acceleration of [pi]:
    the density of [pj] divides twice. *)
Definition pressureForce (pi pj : Particle) : Vector2 :=
  let rij := Vector2Subtract (pos pi) (pos pj) in
  let r := Vector2Length rij in
  let pressureTerm := - mass * (pressure pi + pressure pj) / (2 * density pj) in
  Vector2Scale (spikyGrad_formula rij r h) (pressureTerm / density pj).

(** What the viscosity of neighbour [pj] adds to the acceleration of [pi]. *)
Definition viscosityForce (pi pj : Particle) : Vector2 :=
  let r := Vector2Length (Vector2Subtract (pos pi) (pos pj)) in
  Vector2Scale (Vector2Subtract (vel pj) (vel pi))
    (viscosity * viscLaplacian_formula r h / density pj).

(** Neighbour [j] of particle [i] adds its pressure and viscosity shares
    when [j ≠ i] and [0 < r ≤ h], and nothing otherwise; it is read from
    the slice [ps]. *)
Definition addNeighbour (ps : list Particle) (i : nat) (pi : Particle)
    (acc : Vector2) (j : nat) : Vector2 :=
  match ps !! j with
  | Some pj =>
      let r := Vector2Length (Vector2Subtract (pos pi) (pos pj)) in
      if decide (j ≠ i ∧ 0 < r <= h)
      then Vector2Add (Vector2Add acc (pressureForce pi pj)) (viscosityForce pi pj)
      else acc
  | None => acc
  end.

(** The acceleration of particle [i]: from [(0, gravity)], the neighbours
    [ids] add their shares one after the other. *)
Definition acceleration (ps : list Particle) (i : nat) (pi : Particle)
    (ids : list nat) : Vector2 :=
  foldl (addNeighbour ps i pi) (mkVector2 0 gravity) ids.

(** What the force pass leaves alone. *)
Definition frame (p : Particle) : Vector2 * R * R :=
  (pos p, density p, pressure p).

(** * Properties *)

(** ** Arithmetic helpers *)

#[local] Arguments pow : simpl never.

(** One step of a run in the model: [Some x ≫= f] becomes [f x]. *)
Ltac bind_step := cbn [mbind option_bind].

(** Membership in a list written out. *)
Ltac in_list :=
  repeat first [apply list_elem_of_here | apply list_elem_of_further].

Lemma fdiv_Some (a b : R) : b ≠ 0 → fdiv a b = Some (a / b).
Proof. intros Hb. unfold fdiv. destruct (decide (b = 0)); [contradiction | reflexivity]. Qed.

Lemma fdiv_None (a : R) : fdiv a 0 = None.
Proof. unfold fdiv. destruct (decide (0 = 0)); [reflexivity | contradiction]. Qed.

Lemma PI_pos_pow (x : R) (n : nat) : 0 < x → 0 < PI * x ^ n.
Proof.
  intros Hx. apply Rmult_lt_0_compat; [apply PI_RGT_0 | apply pow_lt; assumption].
Qed.

Lemma poly6_divisor_neq (x : R) : 0 < x → 64 * PI * x ^ 9 ≠ 0.
Proof.
  intros Hx. pose proof (PI_pos_pow x 9 Hx) as Hp.
  rewrite Rmult_assoc. lra.
Qed.

Lemma Vector2Length_nonneg (v : Vector2) : 0 <= Vector2Length v.
Proof. apply sqrt_pos. Qed.

Lemma Vector2Length_Scale (v : Vector2) (s : R) :
  Vector2Length (Vector2Scale v s) = Rabs s * Vector2Length v.
Proof.
  unfold Vector2Length, Vector2Scale; simpl.
  replace (X v * s * (X v * s) + Y v * s * (Y v * s))
    with (Rsqr s * (X v * X v + Y v * Y v)) by (unfold Rsqr; ring).
  rewrite sqrt_mult; [| apply Rle_0_sqr | nra].
  rewrite sqrt_Rsqr_abs. reflexivity.
Qed.

Lemma Vector2Length_le (v : Vector2) (b : R) :
  0 <= b → X v * X v + Y v * Y v <= b * b → Vector2Length v <= b.
Proof.
  intros Hb Hv. unfold Vector2Length.
  rewrite <- (sqrt_square b) by assumption.
  apply sqrt_le_1_alt. assumption.
Qed.

(** ** Kernels *)

Lemma poly6_outside (r h : R) : r > h → poly6 r h = Some 0.
Proof.
  intros Hr. unfold poly6.
  rewrite (bool_decide_eq_false_2 (r <= h)) by lra.
  rewrite andb_false_r. reflexivity.
Qed.

Lemma poly6_inside (r h : R) :
  0 < h → 0 <= r <= h →
  poly6 r h = Some (315 / (64 * PI * h ^ 9) * (h * h - r * r) ^ 3).
Proof.
  intros Hh [Hr0 Hr]. unfold poly6.
  rewrite (bool_decide_eq_true_2 (r >= 0)) by lra.
  rewrite (bool_decide_eq_true_2 (r <= h)) by lra.
  simpl. rewrite fdiv_Some by (apply poly6_divisor_neq; assumption).
  reflexivity.
Qed.

(** C8, as the code has it: [poly6] vanishes beyond the support, and at
    distance zero it is [315 / (64 π h³)]. *)
Theorem poly6_closed_form (h : R) :
  0 < h →
  (∀ r, r > h → poly6 r h = Some 0) ∧
  poly6 0 h = Some (315 / (64 * PI * h ^ 3)).
Proof.
  intros Hh. split; [intros r; apply poly6_outside |].
  rewrite poly6_inside by lra. f_equal.
  pose proof PI_RGT_0 as Hpi.
  field. split; lra.
Qed.

Lemma poly6_closed_form_witness :
  (∀ r, r > 2 → poly6 r 2 = Some 0) ∧
  poly6 0 2 = Some (315 / (64 * PI * 2 ^ 3)).
Proof. apply (poly6_closed_form 2). lra. Defined.

(** C8, as the claim words it, fails: at [h = 2] the value of [poly6] at
    zero is not [315 · 2⁶ / (64 π)]. *)
Lemma poly6_zero_not_h6 :
  0 < 2 ∧ poly6 0 2 ≠ Some (315 * 2 ^ 6 / (64 * PI)).
Proof.
  split; [lra |].
  rewrite poly6_inside by lra. intros E. injection E as E.
  pose proof PI_RGT_0 as Hpi.
  apply (f_equal (λ x, x * (512 * PI))) in E.
  field_simplify in E; lra.
Qed.

(** C9: [spikyGrad] is the zero vector at distance zero and beyond the
    support; for [0 < r ≤ h] its length is [45 / (π h⁶) · (h − r)²],
    whatever the direction, and it points against the unit displacement
    [d / r]. *)
Theorem spikyGrad_spec (d : Vector2) (r h : R) :
  0 < h → r = Vector2Length d →
  (r = 0 ∨ r > h → spikyGrad d r h = Some Vector2Zero) ∧
  (0 < r <= h →
   ∃ g, spikyGrad d r h = Some g ∧
        Vector2Length g = 45 / (PI * h ^ 6) * (h - r) ^ 2 ∧
        g = Vector2Scale (Vector2Scale d (/ r))
              (- (45 / (PI * h ^ 6) * (h - r) ^ 2))).
Proof.
  intros Hh Hlen. pose proof (PI_pos_pow h 6 Hh) as Hp.
  pose proof PI_RGT_0 as Hpi. split.
  - intros Hr. unfold spikyGrad.
    destruct Hr as [-> | Hr].
    + rewrite (bool_decide_eq_false_2 (0 > 0)) by lra. reflexivity.
    + rewrite (bool_decide_eq_false_2 (r <= h)) by lra.
      rewrite andb_false_r. reflexivity.
  - intros [Hr0 Hr]. unfold spikyGrad.
    rewrite (bool_decide_eq_true_2 (r > 0)) by lra.
    rewrite (bool_decide_eq_true_2 (r <= h)) by lra.
    simpl. rewrite fdiv_Some by lra. simpl.
    rewrite fdiv_Some by lra. simpl.
    eexists; split; [reflexivity |]. split.
    + rewrite Vector2Length_Scale, <- Hlen.
      assert (Hm : 0 <= 45 / (PI * h ^ 6) * (h - r) ^ 2).
      { apply Rmult_le_pos; [apply Rlt_le, Rdiv_lt_0_compat; lra |].
        apply pow2_ge_0. }
      replace (-45 / (PI * h ^ 6) * (h - r) ^ 2 / r)
        with (- (45 / (PI * h ^ 6) * (h - r) ^ 2 / r)) by (field; repeat split; lra).
      rewrite Rabs_Ropp, Rabs_pos_eq.
      * field; repeat split; lra.
      * apply Rmult_le_pos; [assumption | apply Rlt_le, Rinv_0_lt_compat; lra].
    + unfold Vector2Scale; simpl. f_equal; field; repeat split; lra.
Qed.

Lemma spikyGrad_spec_witness :
  (3 = 0 ∨ 3 > 4 → spikyGrad (mkVector2 3 0) 3 4 = Some Vector2Zero) ∧
  (0 < 3 <= 4 →
   ∃ g, spikyGrad (mkVector2 3 0) 3 4 = Some g ∧
        Vector2Length g = 45 / (PI * 4 ^ 6) * (4 - 3) ^ 2 ∧
        g = Vector2Scale (Vector2Scale (mkVector2 3 0) (/ 3))
              (- (45 / (PI * 4 ^ 6) * (4 - 3) ^ 2))).
Proof.
  apply (spikyGrad_spec (mkVector2 3 0) 3 4); [lra |].
  unfold Vector2Length; simpl.
  replace (3 * 3 + 0 * 0) with (3 * 3) by ring.
  symmetry. apply sqrt_square. lra.
Defined.

(** ** Integer conversion *)

Lemma trunc_bound (x : R) :
  (0 <= x → IZR (trunc x) <= x < IZR (trunc x) + 1) ∧
  (x < 0 → IZR (trunc x) - 1 < x <= IZR (trunc x)).
Proof.
  unfold trunc. destruct (decide (0 <= x)) as [Hx | Hx]; split; intros H;
    try lra.
  - apply Zfloor_bound.
  - apply Zceil_bound.
Qed.

Lemma trunc_sign (x : R) :
  (0 <= x → (0 <= trunc x)%Z) ∧ (x < 0 → (trunc x <= 0)%Z).
Proof.
  destruct (trunc_bound x) as [Hp Hn]. split; intros H.
  - specialize (Hp H). apply Z.lt_succ_r, lt_IZR. rewrite succ_IZR. lra.
  - specialize (Hn H). apply Z.lt_succ_r, lt_IZR. rewrite succ_IZR. lra.
Qed.

Lemma trunc_le (x y : R) : x <= y → (trunc x <= trunc y)%Z.
Proof.
  intros Hxy.
  destruct (trunc_bound x) as [Hxp Hxn], (trunc_bound y) as [Hyp Hyn].
  destruct (trunc_sign x) as [Sxp Sxn], (trunc_sign y) as [Syp Syn].
  destruct (Rle_lt_dec 0 x) as [Hx | Hx], (Rle_lt_dec 0 y) as [Hy | Hy].
  - specialize (Hxp Hx). specialize (Hyp Hy).
    apply Z.lt_succ_r, lt_IZR. rewrite succ_IZR. lra.
  - lra.
  - specialize (Sxn Hx). specialize (Syp Hy). lia.
  - specialize (Hxn Hx). specialize (Hyn Hy).
    apply Z.lt_succ_r, lt_IZR. rewrite succ_IZR. lra.
Qed.

Lemma trunc_step (x y : R) : y <= x + 1 → (trunc y <= trunc x + 1)%Z.
Proof.
  intros Hxy.
  destruct (trunc_bound x) as [Hxp Hxn], (trunc_bound y) as [Hyp Hyn].
  destruct (trunc_sign x) as [Sxp Sxn], (trunc_sign y) as [Syp Syn].
  destruct (Rle_lt_dec 0 x) as [Hx | Hx], (Rle_lt_dec 0 y) as [Hy | Hy].
  - specialize (Hxp Hx). specialize (Hyp Hy).
    apply Z.lt_succ_r, lt_IZR. rewrite succ_IZR, plus_IZR. lra.
  - specialize (Sxp Hx). specialize (Syn Hy). lia.
  - specialize (Hxn Hx). specialize (Hyp Hy).
    apply le_IZR. rewrite plus_IZR. lra.
  - specialize (Hxn Hx). specialize (Hyn Hy).
    apply Z.lt_succ_r, lt_IZR. rewrite succ_IZR, plus_IZR. lra.
Qed.

Lemma trunc_eq (z : Z) (x : R) :
  (0 <= z)%Z → IZR z <= x < IZR z + 1 → trunc x = z.
Proof.
  intros Hz Hx. unfold trunc.
  apply IZR_le in Hz.
  destruct (decide (0 <= x)); [| lra].
  apply Zfloor_eq, Hx.
Qed.

Lemma wrap_small (z : Z) : (minInt <= z <= maxInt)%Z → wrap z = z.
Proof.
  unfold minInt, maxInt, wrap. intros Hz.
  rewrite Z.mod_small; lia.
Qed.

Lemma toInt_range (x : R) : (minInt <= toInt x <= maxInt)%Z.
Proof.
  unfold toInt. destruct (decide (minInt <= trunc x <= maxInt)%Z);
    [assumption | unfold minInt, maxInt; lia].
Qed.

Lemma toInt_small (z : Z) (x : R) :
  (0 <= z <= maxInt)%Z → IZR z <= x < IZR z + 1 → toInt x = z.
Proof.
  intros Hz Hx. unfold toInt. rewrite (trunc_eq z) by (lia || assumption).
  destruct (decide (minInt <= z <= maxInt)%Z) as [_ | Hn];
    [reflexivity | unfold minInt in Hn; lia].
Qed.

(** The lattice of [NewSPHSim] has [31] columns and as many rows. *)
Lemma NewSPHSim_cols : Z.to_nat (toInt (sqrt (INR particleCount))) = 31%nat.
Proof.
  assert (E : INR particleCount = 1000)
    by (rewrite INR_IZR_INZ; reflexivity).
  rewrite E.
  assert (H1 : 31 <= sqrt 1000).
  { replace 31 with (sqrt (31 * 31)) by (apply sqrt_square; lra).
    apply sqrt_le_1_alt. lra. }
  assert (H2 : sqrt 1000 < 32).
  { replace 32 with (sqrt (32 * 32)) by (apply sqrt_square; lra).
    apply sqrt_lt_1_alt. lra. }
  rewrite (toInt_small 31); [reflexivity | unfold maxInt; lia | ].
  change (IZR 31) with 31. lra.
Qed.

(** Two reals at most one apart convert to integers that are equal or
    neighbours, also across the wrap-around. *)
Lemma toInt_adjacent (a b : R) :
  Rabs (a - b) <= 1 → ∃ d, d ∈ offsets ∧ toInt b = wrap (toInt a + d).
Proof.
  intros Hab.
  assert (Hab' : -1 <= a - b <= 1)
    by (revert Hab; unfold Rabs; destruct (Rcase_abs (a - b)); lra).
  assert (Hwmax : wrap (maxInt + 1) = minInt) by reflexivity.
  assert (Hwmin : wrap (minInt + -1) = maxInt) by reflexivity.
  assert (Hmm : (minInt < maxInt)%Z) by reflexivity.
  unfold toInt, offsets.
  destruct (Rle_lt_dec a b) as [Hle | Hlt].
  - pose proof (trunc_le a b Hle) as H1.
    pose proof (trunc_step a b ltac:(lra)) as H2.
    destruct (decide (minInt <= trunc a <= maxInt)%Z) as [Ha | Ha],
             (decide (minInt <= trunc b <= maxInt)%Z) as [Hb | Hb].
    + destruct (decide (trunc b = trunc a)) as [E | E].
      * exists 0%Z. split; [in_list |].
        rewrite Z.add_0_r, wrap_small by assumption. assumption.
      * exists 1%Z. split; [in_list |].
        replace (trunc a + 1)%Z with (trunc b) by lia.
        rewrite wrap_small by assumption. reflexivity.
    + exists 1%Z. split; [in_list |].
      replace (trunc a) with maxInt by lia. symmetry. assumption.
    + exists 0%Z. split; [in_list |].
      rewrite Z.add_0_r, wrap_small by lia. lia.
    + exists 0%Z. split; [in_list |].
      rewrite Z.add_0_r, wrap_small by lia. reflexivity.
  - pose proof (trunc_le b a ltac:(lra)) as H1.
    pose proof (trunc_step b a ltac:(lra)) as H2.
    destruct (decide (minInt <= trunc a <= maxInt)%Z) as [Ha | Ha],
             (decide (minInt <= trunc b <= maxInt)%Z) as [Hb | Hb].
    + destruct (decide (trunc b = trunc a)) as [E | E].
      * exists 0%Z. split; [in_list |].
        rewrite Z.add_0_r, wrap_small by assumption. assumption.
      * exists (-1)%Z. split; [in_list |].
        replace (trunc a + -1)%Z with (trunc b) by lia.
        rewrite wrap_small by assumption. reflexivity.
    + exists 0%Z. split; [in_list |].
      rewrite Z.add_0_r, wrap_small by assumption. lia.
    + exists (-1)%Z. split; [in_list |].
      replace (trunc b) with maxInt by lia. symmetry. assumption.
    + exists 0%Z. split; [in_list |].
      rewrite Z.add_0_r, wrap_small by lia. reflexivity.
Qed.

(** ** The grid *)

Lemma cellKey_Some (g : Grid) (p : Particle) :
  cellSize g ≠ 0 → cellKey g p = Some (keyOf (cellSize g) p).
Proof.
  intros Hc. unfold cellKey. rewrite !fdiv_Some by assumption. reflexivity.
Qed.

Lemma bucket_insert (m : gmap (Z * Z) (list nat)) (k k' : Z * Z) (v : list nat) :
  bucket (<[k := v]> m) k' = if decide (k = k') then v else bucket m k'.
Proof.
  unfold bucket. rewrite lookup_insert. destruct (decide (k = k')); reflexivity.
Qed.

Lemma bucket_Clear (g : Grid) (k : Z * Z) : bucket (cells (Clear g)) k = [].
Proof.
  unfold bucket, Clear; simpl. rewrite lookup_fmap.
  destruct (cells g !! k); reflexivity.
Qed.

Lemma insertFrom_spec (ps : list Particle) :
  ∀ (i : nat) (g : Grid),
    cellSize g ≠ 0 →
    ∃ g', insertFrom i ps g = Some g' ∧ cellSize g' = cellSize g ∧
          ∀ k, bucket (cells g') k
               = bucket (cells g) k ++ cellMembers (cellSize g) k i ps.
Proof.
  induction ps as [| p ps IH]; intros i g Hc; simpl.
  - exists g. repeat split. intros k. rewrite app_nil_r. reflexivity.
  - unfold insertAt. rewrite cellKey_Some by assumption. simpl.
    set (g1 := mkGrid _ _).
    destruct (IH (S i) g1 Hc) as (g' & Hrun & Hsize & Hb).
    exists g'. split; [exact Hrun |]. split; [exact Hsize |].
    intros k. rewrite Hb. subst g1; simpl. rewrite bucket_insert.
    destruct (decide (keyOf (cellSize g) p = k)) as [-> | Hne].
    + rewrite <- app_assoc. reflexivity.
    + reflexivity.
Qed.

Lemma Insert_spec (g : Grid) (ps : list Particle) :
  cellSize g ≠ 0 →
  ∃ g', Insert g ps = Some g' ∧ cellSize g' = cellSize g ∧
        ∀ k, bucket (cells g') k = cellMembers (cellSize g) k 0 ps.
Proof.
  intros Hc. unfold Insert.
  destruct (insertFrom_spec ps 0%nat (Clear g) Hc) as (g' & Hrun & Hsize & Hb).
  exists g'. split; [exact Hrun |]. split; [exact Hsize |].
  intros k. rewrite Hb, bucket_Clear. reflexivity.
Qed.

Lemma cellMembers_elem (c : R) (k : Z * Z) (ps : list Particle) :
  ∀ (i j : nat),
    j ∈ cellMembers c k i ps ↔
    (i ≤ j)%nat ∧ ∃ p, ps !! (j - i)%nat = Some p ∧ keyOf c p = k.
Proof.
  induction ps as [| p ps IH]; intros i j; simpl.
  - split; [intros H; inversion H | intros (_ & q & Hq & _); discriminate].
  - rewrite elem_of_app, IH. split.
    + intros [Hhd | (Hle & q & Hq & Hk)].
      * destruct (decide (keyOf c p = k)) as [Ek | Ek]; [| inversion Hhd].
        apply list_elem_of_singleton in Hhd as ->.
        split; [lia |]. exists p. rewrite Nat.sub_diag. split; [reflexivity | exact Ek].
      * split; [lia |]. exists q. split; [| exact Hk].
        replace (j - i)%nat with (S (j - S i)) by lia. exact Hq.
    + intros (Hle & q & Hq & Hk).
      destruct (decide (j = i)) as [-> | Hne].
      * left. rewrite Nat.sub_diag in Hq. simpl in Hq. injection Hq as ->.
        rewrite decide_True by exact Hk. apply list_elem_of_here.
      * right. split; [lia |]. exists q. split; [| exact Hk].
        replace (j - i)%nat with (S (j - S i)) in Hq by lia. exact Hq.
Qed.

Lemma Nearby_Some (g : Grid) (p : Particle) :
  cellSize g ≠ 0 →
  Nearby g p
  = Some (dy ← offsets; dx ← offsets;
          bucket (cells g) (wrap ((keyOf (cellSize g) p).1 + dx),
                            wrap ((keyOf (cellSize g) p).2 + dy))).
Proof. intros Hc. unfold Nearby. rewrite cellKey_Some by assumption. reflexivity. Qed.

Lemma Nearby_elem (g : Grid) (p : Particle) (ids : list nat) (j : nat) :
  cellSize g ≠ 0 → Nearby g p = Some ids →
  j ∈ ids ↔
  ∃ dx dy, dx ∈ offsets ∧ dy ∈ offsets ∧
           j ∈ bucket (cells g) (wrap ((keyOf (cellSize g) p).1 + dx),
                                 wrap ((keyOf (cellSize g) p).2 + dy)).
Proof.
  intros Hc Hn. rewrite Nearby_Some in Hn by assumption.
  apply (inj Some) in Hn. subst ids.
  rewrite list_elem_of_bind. split.
  - intros (dy & Hj & Hdy). apply list_elem_of_bind in Hj as (dx & Hj & Hdx).
    exists dx, dy. auto.
  - intros (dx & dy & Hdx & Hdy & Hj). exists dy. split; [| exact Hdy].
    apply list_elem_of_bind. exists dx. auto.
Qed.

(** The indices a rebuilt grid returns are indices of the slice. *)
Lemma Nearby_Insert_lt (g g' : Grid) (ps : list Particle) (p : Particle)
    (ids : list nat) (j : nat) :
  cellSize g ≠ 0 → Insert g ps = Some g' → Nearby g' p = Some ids →
  j ∈ ids → (j < length ps)%nat.
Proof.
  intros Hc Hins Hn Hj.
  destruct (Insert_spec g ps Hc) as (g1 & Hrun & Hsize & Hb).
  rewrite Hins in Hrun. injection Hrun as <-.
  apply (Nearby_elem g' p ids j) in Hj as (dx & dy & _ & _ & Hj);
    [| rewrite Hsize; assumption | assumption].
  rewrite Hb in Hj. apply cellMembers_elem in Hj as (_ & q & Hq & _).
  apply lookup_lt_Some in Hq. lia.
Qed.

Lemma Rabs_le_Vector2Length (v : Vector2) :
  Rabs (X v) <= Vector2Length v ∧ Rabs (Y v) <= Vector2Length v.
Proof.
  unfold Vector2Length. split.
  - rewrite <- sqrt_Rsqr_abs. apply sqrt_le_1_alt. unfold Rsqr. nra.
  - rewrite <- sqrt_Rsqr_abs. apply sqrt_le_1_alt. unfold Rsqr. nra.
Qed.

(** Two particles at most [c] apart lie in cells that differ by at most
    one step on each axis, wrap-around included. *)
Lemma keyOf_adjacent (c : R) (p q : Particle) :
  0 < c → Vector2Length (Vector2Subtract (pos p) (pos q)) <= c →
  ∃ dx dy, dx ∈ offsets ∧ dy ∈ offsets ∧
           keyOf c q = (wrap ((keyOf c p).1 + dx), wrap ((keyOf c p).2 + dy)).
Proof.
  intros Hc Hd.
  destruct (Rabs_le_Vector2Length (Vector2Subtract (pos p) (pos q))) as [Hx Hy].
  simpl in Hx, Hy.
  assert (Hdiv : ∀ a b, Rabs (a - b) <= c → Rabs (a / c - b / c) <= 1).
  { intros a b Hab.
    replace (a / c - b / c) with ((a - b) / c) by (field; lra).
    unfold Rdiv. rewrite Rabs_mult, Rabs_inv, (Rabs_pos_eq c) by lra.
    apply (Rmult_le_reg_r c); [assumption |].
    rewrite Rmult_assoc, Rinv_l by lra. lra. }
  destruct (toInt_adjacent (X (pos p) / c) (X (pos q) / c)) as (dx & Hdx & Ex);
    [apply Hdiv; lra |].
  destruct (toInt_adjacent (Y (pos p) / c) (Y (pos q) / c)) as (dy & Hdy & Ey);
    [apply Hdiv; lra |].
  exists dx, dy. split; [exact Hdx |]. split; [exact Hdy |].
  unfold keyOf; simpl. rewrite Ex, Ey. reflexivity.
Qed.

Lemma Vector2Length_Subtract_sym (u v : Vector2) :
  Vector2Length (Vector2Subtract u v) = Vector2Length (Vector2Subtract v u).
Proof. unfold Vector2Length, Vector2Subtract; simpl. f_equal. ring. Qed.

(** After a rebuild, every particle within [c] of [p] is in [Nearby p]. *)
Lemma Nearby_complete (g g' : Grid) (ps : list Particle) (p q : Particle)
    (j : nat) :
  0 < cellSize g → Insert g ps = Some g' → ps !! j = Some q →
  Vector2Length (Vector2Subtract (pos p) (pos q)) <= cellSize g →
  ∃ ids, Nearby g' p = Some ids ∧ j ∈ ids.
Proof.
  intros Hc Hins Hq Hd.
  destruct (Insert_spec g ps) as (g1 & Hrun & Hsize & Hb); [lra |].
  rewrite Hins in Hrun. injection Hrun as <-.
  assert (Hc' : cellSize g' ≠ 0) by (rewrite Hsize; lra).
  eexists. split; [apply Nearby_Some; assumption |].
  destruct (keyOf_adjacent (cellSize g) p q Hc Hd) as (dx & dy & Hdx & Hdy & Ek).
  apply list_elem_of_bind. exists dy. split; [| exact Hdy].
  apply list_elem_of_bind. exists dx. split; [| exact Hdx].
  rewrite Hb, Hsize, <- Ek. apply cellMembers_elem. split; [lia |].
  exists q. rewrite Nat.sub_0_r. split; [exact Hq | reflexivity].
Qed.

(** C7: after a rebuild with cell size [h], two particles whose distance
    is at most [h] are each in the other's [Nearby] result. *)
Theorem grid_no_false_negatives (g : Grid) (ps : list Particle)
    (i j : nat) (p q : Particle) :
  cellSize g = h →
  ps !! i = Some p → ps !! j = Some q →
  Vector2Length (Vector2Subtract (pos p) (pos q)) <= h →
  ∃ g' idsP idsQ,
    Insert g ps = Some g' ∧
    Nearby g' p = Some idsP ∧ Nearby g' q = Some idsQ ∧
    j ∈ idsP ∧ i ∈ idsQ.
Proof.
  intros Hc Hp Hq Hd.
  assert (Hpos : 0 < cellSize g) by (rewrite Hc; unfold h; lra).
  destruct (Insert_spec g ps) as (g' & Hrun & _); [lra |].
  destruct (Nearby_complete g g' ps p q j Hpos Hrun Hq) as (idsP & HnP & HjP);
    [rewrite Hc; exact Hd |].
  destruct (Nearby_complete g g' ps q p i Hpos Hrun Hp) as (idsQ & HnQ & HiQ);
    [rewrite Hc, Vector2Length_Subtract_sym; exact Hd |].
  exists g', idsP, idsQ. auto.
Qed.

Lemma grid_no_false_negatives_witness :
  let pA := mkParticle (mkVector2 200 50) (mkVector2 0 0) 0 0 in
  let pB := mkParticle (mkVector2 210 50) (mkVector2 0 0) 0 0 in
  ∃ g' idsP idsQ,
    Insert (mkGrid h ∅) [pA; pB] = Some g' ∧
    Nearby g' pA = Some idsP ∧ Nearby g' pB = Some idsQ ∧
    1%nat ∈ idsP ∧ 0%nat ∈ idsQ.
Proof.
  intros pA pB.
  apply (grid_no_false_negatives (mkGrid h ∅) [pA; pB] 0 1 pA pB);
    try reflexivity.
  apply Vector2Length_le; [unfold h; lra |].
  simpl. unfold h. lra.
Defined.

(** ** Loops over the slice *)

Lemma forEach_app {A B : Type} (body : B → A → option A) (xs ys : list B) (a : A) :
  forEach body (xs ++ ys) a = forEach body xs a ≫= forEach body ys.
Proof.
  revert a. induction xs as [| x xs IH]; intros a; simpl; [reflexivity |].
  destruct (body x a) as [a' |]; simpl; [apply IH | reflexivity].
Qed.

(** A loop [for i := range ps] whose body overwrites [ps[i]] and nothing
    else.  [Inv] holds of the slice throughout; [Rel i cur a] relates the
    slice [cur] the body finds at index [i] to the element [a] it writes.
    The slice the body finds at [i] is the final one below [i] and the
    initial one from [i] on. *)
Section InPlace.
Context {A : Type}.
Variable body : nat → list A → option (list A).
Variable Inv : list A → Prop.
Variable Rel : nat → list A → A → Prop.
Hypothesis body_spec :
  ∀ i cur, Inv cur → (i < length cur)%nat →
           ∃ a, body i cur = Some (<[i := a]> cur) ∧ Rel i cur a ∧
                Inv (<[i := a]> cur).

Lemma forEach_prefix (ps : list A) (k : nat) :
  Inv ps → (k ≤ length ps)%nat →
  ∃ cur, forEach body (seq 0 k) ps = Some cur ∧
         length cur = length ps ∧ Inv cur ∧
         drop k cur = drop k ps ∧
         ∀ i, (i < k)%nat →
              ∃ a, cur !! i = Some a ∧ Rel i (take i cur ++ drop i ps) a.
Proof.
  intros Hinv. induction k as [| k IH]; intros Hk.
  - exists ps. simpl. repeat split; try assumption. intros i Hi. lia.
  - destruct IH as (cur & Hrun & Hlen & Hcur & Hdrop & Hrel); [lia |].
    destruct (body_spec k cur Hcur) as (a & Hbody & Ha & Hinv'); [lia |].
    exists (<[k := a]> cur).
    rewrite seq_S, forEach_app, Hrun. simpl. rewrite Hbody. simpl.
    split; [reflexivity |]. split; [rewrite length_insert; exact Hlen |].
    split; [exact Hinv' |]. split.
    + rewrite drop_insert_lt by lia.
      rewrite <- Nat.add_1_r, <- !drop_drop, Hdrop. reflexivity.
    + intros i Hi. destruct (decide (i = k)) as [-> | Hne].
      * exists a. split; [apply list_lookup_insert_eq; lia |].
        rewrite take_insert_ge by lia.
        rewrite <- Hdrop, take_drop. exact Ha.
      * destruct (Hrel i) as (b & Hb & Hrb); [lia |].
        exists b. split; [rewrite list_lookup_insert_ne by lia; exact Hb |].
        rewrite take_insert_ge by lia. exact Hrb.
Qed.

Lemma forEach_inplace (ps : list A) :
  Inv ps →
  ∃ psf, forEach body (seq 0 (length ps)) ps = Some psf ∧
         length psf = length ps ∧ Inv psf ∧
         ∀ i, (i < length ps)%nat →
              ∃ a, psf !! i = Some a ∧ Rel i (take i psf ++ drop i ps) a.
Proof.
  intros Hinv.
  destruct (forEach_prefix ps (length ps) Hinv) as (cur & H1 & H2 & H3 & _ & H5);
    [lia |].
  exists cur. auto.
Qed.
End InPlace.

(** ** The density pass *)

Lemma h_pos : 0 < h.
Proof. unfold h. lra. Qed.

Lemma poly6_formula_outside (r h : R) : r > h → poly6_formula r h = 0.
Proof.
  intros Hr. unfold poly6_formula.
  destruct (decide (0 <= r <= h)); [lra | reflexivity].
Qed.

Lemma poly6_formula_nonneg (r h : R) : 0 < h → 0 <= poly6_formula r h.
Proof.
  intros Hh. unfold poly6_formula.
  destruct (decide (0 <= r <= h)) as [[H0 H1] |]; [| lra].
  apply Rmult_le_pos.
  - apply Rlt_le, Rdiv_lt_0_compat; [lra |].
    pose proof (PI_pos_pow h 9 Hh). lra.
  - apply pow_le. nra.
Qed.

(** The code's kernel computes the formula, without leaving the model. *)
Lemma poly6_formula_eq (r h : R) :
  0 < h → poly6 r h = Some (poly6_formula r h).
Proof.
  intros Hh. unfold poly6_formula.
  destruct (decide (0 <= r <= h)) as [Hr | Hr].
  - rewrite poly6_inside by assumption. do 2 f_equal. ring.
  - unfold poly6. destruct (bool_decide_reflect (r >= 0)) as [H0 | H0];
      destruct (bool_decide_reflect (r <= h)) as [H1 | H1];
      try reflexivity. lra.
Qed.

Lemma positions_lookup (ps : list Particle) (j : nat) :
  positions ps !! j = pos <$> ps !! j.
Proof. unfold positions. apply list_lookup_fmap. Qed.

Lemma positions_insert (ps : list Particle) (i : nat) (p q : Particle) :
  ps !! i = Some p → pos q = pos p → positions (<[i := q]> ps) = positions ps.
Proof.
  intros Hp Hq. unfold positions. rewrite list_fmap_insert, Hq.
  apply list_insert_id. rewrite list_lookup_fmap, Hp. reflexivity.
Qed.

Lemma densityNeighbour_spec (i j : nat) (cur : list Particle) (p q : Particle) :
  cur !! i = Some p → cur !! j = Some q →
  densityNeighbour i j cur
  = Some (<[i := setDensity
                   (density p + densityTerm (positions cur) (pos p) j) p]> cur).
Proof.
  intros Hp Hq. unfold densityNeighbour. rewrite Hp, Hq. bind_step.
  unfold densityTerm. rewrite positions_lookup, Hq. cbn [fmap option_fmap option_map from_option].
  destruct (bool_decide_reflect
              (Vector2Length (Vector2Subtract (pos p) (pos q)) < h)) as [Hr | Hr].
  - rewrite poly6_formula_eq by apply h_pos. reflexivity.
  - assert (Hz : poly6_formula
                   (Vector2Length (Vector2Subtract (pos p) (pos q))) h = 0).
    { apply Rnot_lt_le in Hr. destruct Hr as [Hr | Hr].
      - apply poly6_formula_outside. lra.
      - unfold poly6_formula. rewrite <- Hr.
        destruct (decide (0 <= h <= h)); ring. }
    rewrite Hz, Rmult_0_r, Rplus_0_r.
    f_equal. symmetry. apply list_insert_id. rewrite Hp.
    destruct p; reflexivity.
Qed.

(** The inner loop of [computeDensities] adds the shares of [ids] to the
    density of particle [i]. *)
Lemma densityLoop_spec (i : nat) (ids : list nat) :
  ∀ (cur : list Particle) (p : Particle),
    cur !! i = Some p →
    (∀ j, j ∈ ids → (j < length cur)%nat) →
    forEach (densityNeighbour i) ids cur
    = Some (<[i := setDensity
                     (density p + densitySum (positions cur) (pos p) ids) p]> cur).
Proof.
  induction ids as [| j ids IH]; intros cur p Hp Hids; cbn [forEach].
  - unfold densitySum; simpl. rewrite Rplus_0_r.
    f_equal. symmetry. apply list_insert_id. rewrite Hp. destruct p; reflexivity.
  - destruct (lookup_lt_is_Some_2 cur j) as [q Hq];
      [apply Hids, list_elem_of_here |].
    assert (Hids' : ∀ j', j' ∈ ids → (j' < length cur)%nat)
      by (intros j' Hj'; apply Hids, list_elem_of_further, Hj').
    rewrite (densityNeighbour_spec i j cur p q Hp Hq). bind_step.
    rewrite (IH _ (setDensity
                     (density p + densityTerm (positions cur) (pos p) j) p)).
    + rewrite list_insert_insert_eq.
      rewrite (positions_insert cur i p) by (assumption || reflexivity).
      unfold densitySum. rewrite fmap_cons. cbn [sumR foldr].
      do 2 f_equal. unfold setDensity, sumR; simpl. f_equal. ring.
    + apply list_lookup_insert_eq. eapply lookup_lt_Some, Hp.
    + intros j' Hj'. rewrite length_insert. apply Hids', Hj'.
Qed.

Lemma Nearby_pos (g : Grid) (p q : Particle) :
  pos p = pos q → Nearby g p = Nearby g q.
Proof. intros E. unfold Nearby, cellKey. rewrite E. reflexivity. Qed.

Lemma densityAt_spec (g : Grid) (i : nat) (cur : list Particle) (p : Particle)
    (ids : list nat) :
  cur !! i = Some p → Nearby g p = Some ids →
  (∀ j, j ∈ ids → (j < length cur)%nat) →
  densityAt g i cur
  = Some (<[i := withDensity p (densitySum (positions cur) (pos p) ids)]> cur).
Proof.
  intros Hp Hn Hids. unfold densityAt. rewrite Hp. bind_step.
  assert (Hi : (i < length cur)%nat) by (eapply lookup_lt_Some, Hp).
  rewrite list_lookup_insert_eq by assumption. bind_step.
  rewrite (Nearby_pos g (setDensity 0 p) p) by reflexivity.
  rewrite Hn. bind_step.
  rewrite (densityLoop_spec i ids _ (setDensity 0 p)).
  - bind_step. rewrite list_insert_insert_eq.
    rewrite list_lookup_insert_eq by assumption. bind_step.
    rewrite list_insert_insert_eq.
    rewrite (positions_insert cur i p) by (assumption || reflexivity).
    do 2 f_equal. unfold withDensity, setPressure, setDensity; simpl.
    rewrite Rplus_0_l. reflexivity.
  - apply list_lookup_insert_eq. assumption.
  - intros j Hj. rewrite length_insert. apply Hids, Hj.
Qed.

Lemma mixed_lookup_ge {A : Type} (l1 l2 : list A) (i j : nat) :
  length l1 = length l2 → (i ≤ j)%nat →
  (take i l1 ++ drop i l2) !! j = l2 !! j.
Proof.
  intros Hlen Hij.
  destruct (decide (i ≤ length l1)%nat) as [Hi | Hi].
  - rewrite lookup_app_r by (rewrite length_take; lia).
    rewrite length_take, lookup_drop. f_equal. lia.
  - rewrite (lookup_ge_None_2 l2) by lia.
    apply lookup_ge_None_2. rewrite length_app, length_take, length_drop. lia.
Qed.

Lemma mixed_lookup_lt {A : Type} (l1 l2 : list A) (i j : nat) :
  (j < i)%nat → (i ≤ length l1)%nat →
  (take i l1 ++ drop i l2) !! j = l1 !! j.
Proof.
  intros Hji Hi. rewrite lookup_app_l by (rewrite length_take; lia).
  apply lookup_take_lt. assumption.
Qed.

Lemma positions_mixed (psf ps : list Particle) (i : nat) :
  positions psf = positions ps →
  positions (take i psf ++ drop i ps) = positions ps.
Proof.
  intros E. unfold positions in *.
  rewrite fmap_app, fmap_take, fmap_drop, E. apply take_drop.
Qed.

Lemma positions_length (ps ps' : list Particle) :
  positions ps = positions ps' → length ps = length ps'.
Proof.
  intros E. apply (f_equal length) in E. unfold positions in E.
  rewrite !length_fmap in E. exact E.
Qed.

Lemma Vector2Length_self (v : Vector2) :
  Vector2Length (Vector2Subtract v v) = 0.
Proof.
  unfold Vector2Length, Vector2Subtract; simpl.
  replace ((X v - X v) * (X v - X v) + (Y v - Y v) * (Y v - Y v)) with 0 by ring.
  apply sqrt_0.
Qed.

(** After a rebuild every particle is in its own [Nearby] result. *)
Lemma Nearby_self (g g' : Grid) (ps : list Particle) (p : Particle) (i : nat) :
  0 < cellSize g → Insert g ps = Some g' → ps !! i = Some p →
  ∃ ids, Nearby g' p = Some ids ∧ i ∈ ids.
Proof.
  intros Hc Hins Hp. apply (Nearby_complete g g' ps p p i Hc Hins Hp).
  rewrite Vector2Length_self. lra.
Qed.

(** The density pass on a freshly rebuilt grid. *)
Section DensityPass.
Variables (g0 g : Grid) (ps : list Particle).
Hypothesis Hc : 0 < cellSize g0.
Hypothesis Hins : Insert g0 ps = Some g.

Lemma Insert_cellSize : cellSize g = cellSize g0.
Proof.
  destruct (Insert_spec g0 ps) as (g1 & Hrun & Hsize & _); [lra |].
  rewrite Hins in Hrun. apply (inj Some) in Hrun. subst g1. exact Hsize.
Qed.

Let Inv (cur : list Particle) : Prop := positions cur = positions ps.
Let Rel (i : nat) (cur : list Particle) (a : Particle) : Prop :=
  ∃ p ids, cur !! i = Some p ∧ Nearby g p = Some ids ∧
           a = withDensity p (densitySum (positions cur) (pos p) ids).

Lemma densityAt_body (i : nat) (cur : list Particle) :
  Inv cur → (i < length cur)%nat →
  ∃ a, densityAt g i cur = Some (<[i := a]> cur) ∧ Rel i cur a ∧
       Inv (<[i := a]> cur).
Proof.
  intros Hinv Hi.
  destruct (lookup_lt_is_Some_2 cur i Hi) as [p Hp].
  assert (Hg : cellSize g ≠ 0) by (rewrite Insert_cellSize; lra).
  assert (Hn : ∃ ids, Nearby g p = Some ids)
    by (eexists; apply Nearby_Some, Hg).
  destruct Hn as [ids Hn].
  eexists. split; [| split].
  - apply (densityAt_spec g i cur p ids Hp Hn).
    intros j Hj. rewrite (positions_length cur ps Hinv).
    apply (Nearby_Insert_lt g0 g ps p ids j); [lra | assumption | exact Hn | exact Hj].
  - exists p, ids. split; [exact Hp |]. split; [exact Hn | reflexivity].
  - unfold Inv. rewrite (positions_insert cur i p) by (assumption || reflexivity).
    exact Hinv.
Qed.

Lemma computeDensities_spec :
  ∃ psd, computeDensities (mkSPHSim ps g) = Some (mkSPHSim psd g) ∧
         positions psd = positions ps ∧
         ∀ i p, ps !! i = Some p →
                ∃ ids, Nearby g p = Some ids ∧ i ∈ ids ∧
                       psd !! i
                       = Some (withDensity p
                                 (densitySum (positions ps) (pos p) ids)).
Proof.
  destruct (forEach_inplace (densityAt g) Inv Rel densityAt_body ps)
    as (psd & Hrun & Hlen & Hinv & Hrel); [reflexivity |].
  exists psd. split; [| split].
  - unfold computeDensities; simpl. rewrite Hrun. reflexivity.
  - exact Hinv.
  - intros i p Hp.
    destruct (Hrel i) as (a & Ha & q & ids & Hq & Hn & ->);
      [eapply lookup_lt_Some, Hp |].
    rewrite mixed_lookup_ge in Hq by (assumption || lia).
    rewrite Hp in Hq. apply (inj Some) in Hq. subst q.
    rewrite positions_mixed in Ha by exact Hinv.
    exists ids. split; [exact Hn |]. split; [| exact Ha].
    destruct (Nearby_self g0 g ps p i Hc Hins Hp) as (ids' & Hn' & Hi).
    rewrite Hn in Hn'. apply (inj Some) in Hn'. subst ids'. exact Hi.
Qed.
End DensityPass.

(** C2: in a step, after the rebuild of the grid, the density pass gives
    every particle [i] the density [Σ_j mass · poly6(|pos_i − pos_j|, h)]
    over the [j] of [Nearby(i)], among them [i] itself, and the pressure
    [gasConstant · (density_i − restDensity)], unclamped; a [j] farther
    than [h] adds nothing. *)
Theorem density_pass_spec (s : SPHSim) :
  cellSize (grid s) = h →
  ∃ g psd,
    Insert (grid s) (particles s) = Some g ∧
    computeDensities (mkSPHSim (particles s) g) = Some (mkSPHSim psd g) ∧
    ∀ i p, particles s !! i = Some p →
      ∃ ids a,
        Nearby g p = Some ids ∧ i ∈ ids ∧ psd !! i = Some a ∧
        density a = densitySum (positions (particles s)) (pos p) ids ∧
        pressure a = gasConstant * (density a - restDensity) ∧
        ∀ j q, particles s !! j = Some q →
               Vector2Length (Vector2Subtract (pos p) (pos q)) > h →
               densityTerm (positions (particles s)) (pos p) j = 0.
Proof.
  intros Hc.
  assert (Hpos : 0 < cellSize (grid s)) by (rewrite Hc; apply h_pos).
  destruct (Insert_spec (grid s) (particles s)) as (g & Hins & _); [lra |].
  destruct (computeDensities_spec (grid s) g (particles s) Hpos Hins)
    as (psd & Hrun & _ & Hd).
  exists g, psd. split; [exact Hins |]. split; [exact Hrun |].
  intros i p Hp. destruct (Hd i p Hp) as (ids & Hn & Hi & Ha).
  exists ids, (withDensity p (densitySum (positions (particles s)) (pos p) ids)).
  split; [exact Hn |]. split; [exact Hi |]. split; [exact Ha |].
  split; [reflexivity |]. split; [reflexivity |].
  intros j q Hq Hfar. unfold densityTerm.
  rewrite positions_lookup, Hq. simpl.
  rewrite poly6_formula_outside by exact Hfar. ring.
Qed.

Lemma density_pass_spec_witness :
  ∃ g psd,
    Insert (grid NewSPHSim) (particles NewSPHSim) = Some g ∧
    computeDensities (mkSPHSim (particles NewSPHSim) g) = Some (mkSPHSim psd g) ∧
    ∀ i p, particles NewSPHSim !! i = Some p →
      ∃ ids a,
        Nearby g p = Some ids ∧ i ∈ ids ∧ psd !! i = Some a ∧
        density a = densitySum (positions (particles NewSPHSim)) (pos p) ids ∧
        pressure a = gasConstant * (density a - restDensity) ∧
        ∀ j q, particles NewSPHSim !! j = Some q →
               Vector2Length (Vector2Subtract (pos p) (pos q)) > h →
               densityTerm (positions (particles NewSPHSim)) (pos p) j = 0.
Proof. apply (density_pass_spec NewSPHSim). reflexivity. Defined.

(** ** The force pass *)

Lemma spikyGrad_formula_eq (d : Vector2) (r h : R) :
  0 < h → spikyGrad d r h = Some (spikyGrad_formula d r h).
Proof.
  intros Hh. pose proof (PI_pos_pow h 6 Hh) as Hp.
  unfold spikyGrad, spikyGrad_formula.
  destruct (decide (0 < r <= h)) as [[H0 H1] | Hn].
  - rewrite (bool_decide_eq_true_2 (r > 0)) by lra.
    rewrite (bool_decide_eq_true_2 (r <= h)) by lra.
    cbn [andb]. rewrite fdiv_Some by lra. bind_step.
    rewrite fdiv_Some by lra. reflexivity.
  - destruct (bool_decide_reflect (r > 0)) as [H0 | H0];
      destruct (bool_decide_reflect (r <= h)) as [H1 | H1];
      try reflexivity. lra.
Qed.

Lemma viscLaplacian_formula_eq (r h : R) :
  0 < h → viscLaplacian r h = Some (viscLaplacian_formula r h).
Proof.
  intros Hh. pose proof (PI_pos_pow h 6 Hh) as Hp.
  unfold viscLaplacian, viscLaplacian_formula.
  destruct (decide (0 <= r <= h)) as [[H0 H1] | Hn].
  - rewrite (bool_decide_eq_true_2 (r >= 0)) by lra.
    rewrite (bool_decide_eq_true_2 (r <= h)) by lra.
    cbn [andb]. rewrite fdiv_Some by lra. reflexivity.
  - destruct (bool_decide_reflect (r >= 0)) as [H0 | H0];
      destruct (bool_decide_reflect (r <= h)) as [H1 | H1];
      try reflexivity. lra.
Qed.

Lemma forceNeighbour_spec (ps : list Particle) (i j : nat) (pi pj : Particle)
    (acc : Vector2) :
  ps !! i = Some pi → ps !! j = Some pj → density pj ≠ 0 →
  forceNeighbour ps i j acc = Some (addNeighbour ps i pi acc j).
Proof.
  intros Hi Hj Hd. unfold forceNeighbour, addNeighbour. rewrite Hj.
  destruct (decide (i = j)) as [E | E].
  - rewrite decide_False by (intros [Hne _]; congruence). reflexivity.
  - rewrite Hi. bind_step.
    set (r := Vector2Length (Vector2Subtract (pos pi) (pos pj))).
    destruct (decide (j ≠ i ∧ 0 < r <= h)) as [(_ & H0 & H1) | Hn].
    + rewrite (bool_decide_eq_false_2 (r <= 0)) by lra.
      rewrite (bool_decide_eq_false_2 (r > h)) by lra. cbn [orb].
      rewrite fdiv_Some by lra. bind_step.
      rewrite spikyGrad_formula_eq by apply h_pos. bind_step.
      rewrite fdiv_Some by assumption. bind_step.
      rewrite viscLaplacian_formula_eq by apply h_pos. bind_step.
      rewrite fdiv_Some by assumption. reflexivity.
    + destruct (bool_decide_reflect (r <= 0)) as [H0 | H0]; [reflexivity |].
      destruct (bool_decide_reflect (r > h)) as [H1 | H1]; [reflexivity |].
      exfalso. apply Hn. split; [congruence | lra].
Qed.

Lemma forceLoop_spec (ps : list Particle) (i : nat) (pi : Particle)
    (ids : list nat) :
  ps !! i = Some pi →
  (∀ j, j ∈ ids → ∃ pj, ps !! j = Some pj ∧ density pj ≠ 0) →
  ∀ acc, forEach (forceNeighbour ps i) ids acc
         = Some (foldl (addNeighbour ps i pi) acc ids).
Proof.
  intros Hi. induction ids as [| j ids IH]; intros Hids acc; cbn [forEach foldl].
  - reflexivity.
  - destruct (Hids j) as (pj & Hj & Hd); [apply list_elem_of_here |].
    rewrite (forceNeighbour_spec ps i j pi pj acc Hi Hj Hd). bind_step.
    apply IH. intros j' Hj'. apply Hids, list_elem_of_further, Hj'.
Qed.

Lemma acceleration_snoc (ps : list Particle) (i : nat) (pi : Particle)
    (ids : list nat) (j : nat) :
  acceleration ps i pi (ids ++ [j])
  = addNeighbour ps i pi (acceleration ps i pi ids) j.
Proof. unfold acceleration. apply foldl_snoc. Qed.

Lemma forceAt_spec (g : Grid) (ps : list Particle) (i : nat)
    (pi : Particle) (ids : list nat) :
  ps !! i = Some pi → Nearby g pi = Some ids →
  (∀ j, j ∈ ids → ∃ pj, ps !! j = Some pj ∧ density pj ≠ 0) →
  forceAt g i ps
  = Some (<[i := setVel
                   (Vector2Add (vel pi)
                      (Vector2Scale (acceleration ps i pi ids) timeStep)) pi]> ps).
Proof.
  intros Hi Hn Hids. unfold forceAt. rewrite Hi. bind_step. rewrite Hn. bind_step.
  rewrite (forceLoop_spec ps i pi ids Hi Hids). reflexivity.
Qed.

Lemma frame_lookup (cur ps : list Particle) (j : nat) (q : Particle) :
  frame <$> cur = frame <$> ps → cur !! j = Some q →
  ∃ p, ps !! j = Some p ∧ frame q = frame p.
Proof.
  intros E Hq.
  assert (H : (frame <$> ps) !! j = Some (frame q))
    by (rewrite <- E, list_lookup_fmap, Hq; reflexivity).
  rewrite list_lookup_fmap in H.
  destruct (ps !! j) as [p |]; [| discriminate].
  exists p. split; [reflexivity |]. simpl in H. congruence.
Qed.

Lemma frame_length (cur ps : list Particle) :
  frame <$> cur = frame <$> ps → length cur = length ps.
Proof.
  intros E. apply (f_equal length) in E. rewrite !length_fmap in E. exact E.
Qed.

(** The force pass over a slice whose densities are all non-zero, on a
    grid that only holds indices of the slice. *)
Section ForcePass.
Variables (g : Grid) (psd : list Particle).
Hypothesis Hg : cellSize g ≠ 0.
Hypothesis Hids :
  ∀ p ids j, Nearby g p = Some ids → j ∈ ids → (j < length psd)%nat.
Hypothesis Hdens : ∀ j p, psd !! j = Some p → density p ≠ 0.

Let Inv (cur : list Particle) : Prop := frame <$> cur = frame <$> psd.
Let Rel (i : nat) (cur : list Particle) (a : Particle) : Prop :=
  ∃ p ids, cur !! i = Some p ∧ Nearby g p = Some ids ∧
           a = setVel (Vector2Add (vel p)
                         (Vector2Scale (acceleration cur i p ids) timeStep)) p.

Lemma forceAt_body (i : nat) (cur : list Particle) :
  Inv cur → (i < length cur)%nat →
  ∃ a, forceAt g i cur = Some (<[i := a]> cur) ∧ Rel i cur a ∧
       Inv (<[i := a]> cur).
Proof.
  intros Hinv Hi.
  destruct (lookup_lt_is_Some_2 cur i Hi) as [p Hp].
  assert (Hn : ∃ ids, Nearby g p = Some ids)
    by (eexists; apply Nearby_Some, Hg).
  destruct Hn as [ids Hn].
  eexists. split; [| split].
  - apply (forceAt_spec g cur i p ids Hp Hn).
    intros j Hj.
    destruct (lookup_lt_is_Some_2 cur j) as [q Hq].
    { rewrite (frame_length cur psd Hinv). eapply Hids; eassumption. }
    exists q. split; [exact Hq |].
    destruct (frame_lookup cur psd j q Hinv Hq) as (q' & Hq' & Ef).
    assert (Ed : density q = density q') by (unfold frame in Ef; congruence).
    rewrite Ed. eapply Hdens, Hq'.
  - exists p, ids. split; [exact Hp |]. split; [exact Hn | reflexivity].
  - unfold Inv. rewrite list_fmap_insert.
    rewrite list_insert_id; [exact Hinv |].
    rewrite list_lookup_fmap, Hp. reflexivity.
Qed.

Lemma computeForces_prefix (k : nat) :
  (k ≤ length psd)%nat →
  ∃ cur, forEach (forceAt g) (seq 0 k) psd = Some cur ∧
         frame <$> cur = frame <$> psd.
Proof.
  intros Hk.
  destruct (forEach_prefix (forceAt g) Inv Rel forceAt_body psd k)
    as (cur & Hrun & _ & Hinv & _); [reflexivity | exact Hk |].
  exists cur. split; [exact Hrun | exact Hinv].
Qed.

Lemma computeForces_spec :
  ∃ psf, computeForces (mkSPHSim psd g) = Some (mkSPHSim psf g) ∧
         frame <$> psf = frame <$> psd ∧
         ∀ i p, psd !! i = Some p →
                ∃ ids, Nearby g p = Some ids ∧
                       psf !! i
                       = Some (setVel
                                 (Vector2Add (vel p)
                                    (Vector2Scale
                                       (acceleration (take i psf ++ drop i psd)
                                          i p ids) timeStep)) p).
Proof.
  destruct (forEach_inplace (forceAt g) Inv Rel forceAt_body psd)
    as (psf & Hrun & Hlen & Hinv & Hrel); [reflexivity |].
  exists psf. split; [| split].
  - unfold computeForces; simpl. rewrite Hrun. reflexivity.
  - exact Hinv.
  - intros i p Hp.
    destruct (Hrel i) as (a & Ha & q & ids & Hq & Hn & ->);
      [eapply lookup_lt_Some, Hp |].
    rewrite mixed_lookup_ge in Hq by (assumption || lia).
    rewrite Hp in Hq. apply (inj Some) in Hq. subst q.
    exists ids. split; [exact Hn | exact Ha].
Qed.
End ForcePass.

(** ** The integration pass *)

(** The speed cap never leaves the model, keeps the position, and leaves
    a velocity of length at most 1000. *)
Lemma clampVelocity_spec (p : Particle) :
  ∃ q, clampVelocity p = Some q ∧ pos q = pos p ∧
       density q = density p ∧ pressure q = pressure p ∧
       Vector2Length (vel q) <= 1000 ∧
       (Vector2Length (vel p) <= 1000 → q = p) ∧
       (Vector2Length (vel p) > 1000 →
        vel q = Vector2Scale (Vector2Scale (vel p) (1 / Vector2Length (vel p))) 1000).
Proof.
  unfold clampVelocity.
  destruct (bool_decide_reflect (Vector2Length (vel p) > 1000)) as [Hs | Hs].
  - unfold Vector2Normalize. rewrite fdiv_Some by lra. bind_step.
    eexists. split; [reflexivity |]. simpl.
    repeat split; try reflexivity; try lra.
    rewrite !Vector2Length_Scale.
    rewrite (Rabs_pos_eq 1000) by lra.
    rewrite Rabs_pos_eq
      by (apply Rlt_le, Rdiv_lt_0_compat; lra).
    apply Req_le. field. lra.
  - exists p. repeat split; try reflexivity; lra.
Qed.

Lemma applyDrag_length (p : Particle) :
  Vector2Length (vel p) <= 1000 → Vector2Length (vel (applyDrag p)) <= 1000.
Proof.
  intros Hp. unfold applyDrag; simpl. rewrite Vector2Length_Scale.
  rewrite Rabs_pos_eq by lra.
  pose proof (Vector2Length_nonneg (vel p)). lra.
Qed.

Lemma integrateAt_spec (i : nat) (cur : list Particle) :
  (i < length cur)%nat →
  ∃ a, integrateAt i cur = Some (<[i := a]> cur) ∧
       (∃ p q, cur !! i = Some p ∧
               clampVelocity (wallCollisions (advance p)) = Some q ∧
               a = applyDrag q) ∧
       True.
Proof.
  intros Hi. destruct (lookup_lt_is_Some_2 cur i Hi) as [p Hp].
  destruct (clampVelocity_spec (wallCollisions (advance p))) as (q & Hq & _).
  exists (applyDrag q). split; [| split; [| exact I]].
  - unfold integrateAt. rewrite Hp. bind_step. rewrite Hq. reflexivity.
  - exists p, q. auto.
Qed.

Lemma integrate_spec (g : Grid) (ps : list Particle) :
  ∃ psi, integrate (mkSPHSim ps g) = Some (mkSPHSim psi g) ∧
         length psi = length ps ∧
         ∀ i p, ps !! i = Some p →
                ∃ q, clampVelocity (wallCollisions (advance p)) = Some q ∧
                     psi !! i = Some (applyDrag q).
Proof.
  destruct (forEach_inplace integrateAt (λ _, True)
              (λ i cur a, ∃ p q, cur !! i = Some p ∧
                 clampVelocity (wallCollisions (advance p)) = Some q ∧
                 a = applyDrag q)
              (λ i cur _ Hi, integrateAt_spec i cur Hi) ps I)
    as (psi & Hrun & Hlen & _ & Hrel).
  exists psi. split; [| split].
  - unfold integrate; simpl. rewrite Hrun. reflexivity.
  - exact Hlen.
  - intros i p Hp.
    destruct (Hrel i) as (a & Ha & p' & q & Hp' & Hq & ->);
      [eapply lookup_lt_Some, Hp |].
    rewrite mixed_lookup_ge in Hp' by (assumption || lia).
    rewrite Hp in Hp'. apply (inj Some) in Hp'. subst p'.
    exists q. auto.
Qed.

(** ** One step *)

Lemma sumR_nonneg (l : list R) : (∀ x, x ∈ l → 0 <= x) → 0 <= sumR l.
Proof.
  induction l as [| x l IH]; intros Hl; simpl; [lra |].
  pose proof (Hl x (list_elem_of_here x l)).
  assert (0 <= sumR l) by (apply IH; intros y Hy; apply Hl, list_elem_of_further, Hy).
  unfold sumR in *. lra.
Qed.

Lemma densityTerm_nonneg (xs : list Vector2) (x : Vector2) (j : nat) :
  0 <= densityTerm xs x j.
Proof.
  unfold densityTerm. destruct (xs !! j) as [y |]; simpl; [| lra].
  apply Rmult_le_pos; [unfold mass; lra |].
  apply poly6_formula_nonneg, h_pos.
Qed.

Lemma densitySum_ge_term (xs : list Vector2) (x : Vector2) (ids : list nat)
    (i : nat) :
  i ∈ ids → densityTerm xs x i <= densitySum xs x ids.
Proof.
  unfold densitySum. induction ids as [| j ids IH]; intros Hi.
  - inversion Hi.
  - rewrite fmap_cons. cbn [sumR foldr]. fold (sumR (densityTerm xs x <$> ids)).
    apply elem_of_cons in Hi as [-> | Hi].
    + assert (0 <= sumR (densityTerm xs x <$> ids)); [| lra].
      apply sumR_nonneg. intros y Hy.
      apply list_elem_of_fmap in Hy as (k & -> & _). apply densityTerm_nonneg.
    + pose proof (densityTerm_nonneg xs x j). specialize (IH Hi). lra.
Qed.

Lemma densityTerm_self (ps : list Particle) (p : Particle) (i : nat) :
  ps !! i = Some p →
  densityTerm (positions ps) (pos p) i = mass * poly6_formula 0 h.
Proof.
  intros Hp. unfold densityTerm. rewrite positions_lookup, Hp. simpl.
  rewrite Vector2Length_self. reflexivity.
Qed.

Lemma poly6_formula_zero_pos (h : R) : 0 < h → 0 < poly6_formula 0 h.
Proof.
  intros Hh. unfold poly6_formula. rewrite decide_True by lra.
  apply Rmult_lt_0_compat.
  - apply Rdiv_lt_0_compat; [lra |]. pose proof (PI_pos_pow h 9 Hh). lra.
  - apply pow_lt. replace (h ^ 2 - 0 ^ 2) with (h * h) by ring. nra.
Qed.

Lemma self_density_pos : 0 < mass * poly6_formula 0 h.
Proof.
  apply Rmult_lt_0_compat; [unfold mass; lra |].
  apply poly6_formula_zero_pos, h_pos.
Qed.

(** The passes of a step, one after the other, with what each leaves. *)
Lemma Step_pipeline (s : SPHSim) :
  0 < cellSize (grid s) →
  ∃ g psd psf psi,
    Insert (grid s) (particles s) = Some g ∧
    cellSize g = cellSize (grid s) ∧
    computeDensities (mkSPHSim (particles s) g) = Some (mkSPHSim psd g) ∧
    computeForces (mkSPHSim psd g) = Some (mkSPHSim psf g) ∧
    integrate (mkSPHSim psf g) = Some (mkSPHSim psi g) ∧
    Step s = Some (mkSPHSim psi g) ∧
    positions psd = positions (particles s) ∧
    frame <$> psf = frame <$> psd ∧
    length psi = length psf ∧
    (∀ i p, particles s !! i = Some p →
       ∃ ids, Nearby g p = Some ids ∧ i ∈ ids ∧
              psd !! i
              = Some (withDensity p
                        (densitySum (positions (particles s)) (pos p) ids))) ∧
    (∀ i p, psd !! i = Some p → mass * poly6_formula 0 h <= density p) ∧
    (∀ i p, psd !! i = Some p →
       ∃ ids, Nearby g p = Some ids ∧
              psf !! i
              = Some (setVel
                        (Vector2Add (vel p)
                           (Vector2Scale
                              (acceleration (take i psf ++ drop i psd) i p ids)
                              timeStep)) p)) ∧
    (∀ i p, psf !! i = Some p →
       ∃ q, clampVelocity (wallCollisions (advance p)) = Some q ∧
            psi !! i = Some (applyDrag q)) ∧
    (∀ k, (k ≤ length psd)%nat →
       ∃ cur, forEach (forceAt g) (seq 0 k) psd = Some cur ∧
              frame <$> cur = frame <$> psd).
Proof.
  intros Hc.
  destruct (Insert_spec (grid s) (particles s)) as (g & Hins & Hsize & _); [lra |].
  destruct (computeDensities_spec (grid s) g (particles s) Hc Hins)
    as (psd & Hden & Hposd & Hd).
  assert (Hlow : ∀ i p, psd !! i = Some p → mass * poly6_formula 0 h <= density p).
  { intros i p Hp.
    destruct (lookup_lt_is_Some_2 (particles s) i) as [p0 Hp0].
    { rewrite <- (positions_length psd (particles s) Hposd).
      eapply lookup_lt_Some, Hp. }
    destruct (Hd i p0 Hp0) as (ids & Hn & Hi & Ha).
    rewrite Hp in Ha. apply (inj Some) in Ha. subst p. simpl.
    rewrite <- (densityTerm_self (particles s) p0 i Hp0).
    apply densitySum_ge_term, Hi. }
  assert (Hg : cellSize g ≠ 0) by (rewrite Hsize; lra).
  assert (Hidx : ∀ p ids j, Nearby g p = Some ids → j ∈ ids → (j < length psd)%nat).
  { intros p ids j Hn Hj.
    rewrite (positions_length psd (particles s) Hposd).
    apply (Nearby_Insert_lt (grid s) g (particles s) p ids j);
      [lra | assumption | assumption | assumption]. }
  assert (Hnz : ∀ j p, psd !! j = Some p → density p ≠ 0).
  { intros j p Hp. pose proof (Hlow j p Hp). pose proof self_density_pos. lra. }
  destruct (computeForces_spec g psd Hg Hidx Hnz) as (psf & Hfor & Hframe & Hf).
  pose proof (computeForces_prefix g psd Hg Hidx Hnz) as Hpre.
  destruct (integrate_spec g psf) as (psi & Hint & Hlen & Hi).
  exists g, psd, psf, psi.
  repeat (split; [assumption |]).
  split; [| repeat (split; [assumption |]); assumption].
  unfold Step. rewrite Hins. bind_step. rewrite Hden. bind_step.
  rewrite Hfor. bind_step. exact Hint.
Qed.

Lemma Step_total (s : SPHSim) :
  0 < cellSize (grid s) →
  ∃ s', Step s = Some s' ∧
        cellSize (grid s') = cellSize (grid s) ∧
        length (particles s') = length (particles s) ∧
        ∀ p, p ∈ particles s' → Vector2Length (vel p) <= 1000.
Proof.
  intros Hc.
  destruct (Step_pipeline s Hc)
    as (g & psd & psf & psi & _ & Hsize & _ & _ & _ & Hstep & Hposd & Hframe &
        Hlen & _ & _ & _ & Hi & _).
  exists (mkSPHSim psi g). split; [exact Hstep |]. split; [exact Hsize |]. split.
  - simpl. rewrite Hlen, (frame_length psf psd Hframe).
    apply positions_length, Hposd.
  - simpl. intros p Hp. apply list_elem_of_lookup in Hp as [i Hp].
    destruct (lookup_lt_is_Some_2 psf i) as [p0 Hp0].
    { rewrite <- Hlen. eapply lookup_lt_Some, Hp. }
    destruct (Hi i p0 Hp0) as (q & Hq & Hpi).
    rewrite Hp in Hpi. apply (inj Some) in Hpi. subst p.
    destruct (clampVelocity_spec (wallCollisions (advance p0)))
      as (q' & Hq' & _ & _ & _ & Hcap & _).
    rewrite Hq in Hq'. apply (inj Some) in Hq'. subst q'.
    apply applyDrag_length, Hcap.
Qed.

(** C5: after any number of steps, at least one, every particle is
    slower than 1000 or just as fast: the clamp brings a faster velocity
    to length 1000, and the drag that follows never lengthens one. *)
Theorem speed_cap (n : nat) (s : SPHSim) :
  cellSize (grid s) = h →
  (∃ s', Steps (S n) s = Some s' ∧
         ∀ p, p ∈ particles s' → Vector2Length (vel p) <= 1000) ∧
  (∀ p, Vector2Length (vel p) > 1000 →
        ∃ q, clampVelocity p = Some q ∧ Vector2Length (vel q) = 1000) ∧
  (∀ p, Vector2Length (vel (applyDrag p)) <= Vector2Length (vel p)).
Proof.
  intros Hc. split; [| split].
  - revert s Hc. induction n as [| n IH]; intros s Hc.
    + destruct (Step_total s) as (s' & Hstep & _ & _ & Hv);
        [rewrite Hc; apply h_pos |].
      exists s'. split; [| exact Hv].
      cbn [Steps]. rewrite Hstep. reflexivity.
    + destruct (Step_total s) as (s1 & Hstep & Hsize & _ & _);
        [rewrite Hc; apply h_pos |].
      destruct (IH s1) as (s' & Hrun & Hv); [congruence |].
      exists s'. split; [| exact Hv].
      change (Steps (S (S n)) s) with (Step s ≫= Steps (S n)).
      rewrite Hstep. exact Hrun.
  - intros p Hp.
    destruct (clampVelocity_spec p) as (q & Hq & _ & _ & _ & _ & _ & Hv).
    exists q. split; [exact Hq |]. rewrite (Hv Hp).
    rewrite !Vector2Length_Scale.
    rewrite (Rabs_pos_eq 1000) by lra.
    rewrite Rabs_pos_eq by (apply Rlt_le, Rdiv_lt_0_compat; lra).
    field. lra.
  - intros p. unfold applyDrag; simpl. rewrite Vector2Length_Scale.
    rewrite Rabs_pos_eq by lra.
    pose proof (Vector2Length_nonneg (vel p)). lra.
Qed.

Lemma speed_cap_witness :
  (∃ s', Steps 5 NewSPHSim = Some s' ∧
         ∀ p, p ∈ particles s' → Vector2Length (vel p) <= 1000) ∧
  (∀ p, Vector2Length (vel p) > 1000 →
        ∃ q, clampVelocity p = Some q ∧ Vector2Length (vel q) = 1000) ∧
  (∀ p, Vector2Length (vel (applyDrag p)) <= Vector2Length (vel p)).
Proof. apply (speed_cap 4 NewSPHSim). reflexivity. Defined.

(** C4: the force pass updates velocities in place, in index order.  The
    acceleration of particle [i] is computed on the slice that holds the
    results of the pass below [i] and the velocities from before the pass
    from [i] on: a neighbour [j < i] is read with its updated velocity, a
    neighbour [j > i] with its old one. *)
Theorem sequential_velocity_coupling (s : SPHSim) :
  cellSize (grid s) = h →
  ∃ g psd psf,
    Insert (grid s) (particles s) = Some g ∧
    computeDensities (mkSPHSim (particles s) g) = Some (mkSPHSim psd g) ∧
    computeForces (mkSPHSim psd g) = Some (mkSPHSim psf g) ∧
    ∀ i p, psd !! i = Some p →
      ∃ ids seen,
        Nearby g p = Some ids ∧
        seen = take i psf ++ drop i psd ∧
        psf !! i
        = Some (setVel
                  (Vector2Add (vel p)
                     (Vector2Scale (acceleration seen i p ids) timeStep)) p) ∧
        (∀ j, (j < i)%nat → seen !! j = psf !! j) ∧
        (∀ j, (i ≤ j)%nat → seen !! j = psd !! j).
Proof.
  intros Hc.
  destruct (Step_pipeline s)
    as (g & psd & psf & psi & Hins & _ & Hden & Hfor & _ & _ & _ & Hframe &
        _ & _ & _ & Hf & _ & _); [rewrite Hc; apply h_pos |].
  exists g, psd, psf. repeat (split; [assumption |]).
  intros i p Hp. destruct (Hf i p Hp) as (ids & Hn & Hv).
  exists ids, (take i psf ++ drop i psd).
  split; [exact Hn |]. split; [reflexivity |]. split; [exact Hv |].
  pose proof (frame_length psf psd Hframe) as Hlen.
  split.
  - intros j Hj. apply mixed_lookup_lt; [exact Hj |].
    apply lookup_lt_Some in Hp. lia.
  - intros j Hj. apply mixed_lookup_ge; assumption.
Qed.

Lemma sequential_velocity_coupling_witness :
  ∃ g psd psf,
    Insert (grid NewSPHSim) (particles NewSPHSim) = Some g ∧
    computeDensities (mkSPHSim (particles NewSPHSim) g) = Some (mkSPHSim psd g) ∧
    computeForces (mkSPHSim psd g) = Some (mkSPHSim psf g) ∧
    ∀ i p, psd !! i = Some p →
      ∃ ids seen,
        Nearby g p = Some ids ∧
        seen = take i psf ++ drop i psd ∧
        psf !! i
        = Some (setVel
                  (Vector2Add (vel p)
                     (Vector2Scale (acceleration seen i p ids) timeStep)) p) ∧
        (∀ j, (j < i)%nat → seen !! j = psf !! j) ∧
        (∀ j, (i ≤ j)%nat → seen !! j = psd !! j).
Proof. apply (sequential_velocity_coupling NewSPHSim). reflexivity. Defined.

(** C3: the force pass of a step.  For every particle [i] the
    acceleration starts from [(0, gravity)]; every neighbour [j ≠ i] of
    [Nearby(i)] with [0 < r ≤ h] adds
    [spikyGrad(pos_i − pos_j, r, h) · (pressureTerm / density_j)] with
    [pressureTerm = −mass · (pressure_i + pressure_j) / (2 · density_j)]
    and [(vel_j − vel_i) · viscosity · viscLaplacian(r, h) / density_j];
    a neighbour with [j = i], [r ≤ 0] or [r > h] adds nothing.
    [computeForces] stores the velocity of [i] grown by that acceleration
    times [timeStep].  Every neighbour is a particle of the slice, read
    as the pass has left it so far: with the position, density and
    pressure of the density pass. *)
Theorem force_accumulation (s : SPHSim) :
  cellSize (grid s) = h →
  ∃ g psd psf,
    Insert (grid s) (particles s) = Some g ∧
    computeDensities (mkSPHSim (particles s) g) = Some (mkSPHSim psd g) ∧
    computeForces (mkSPHSim psd g) = Some (mkSPHSim psf g) ∧
    ∀ i pi, psd !! i = Some pi →
      ∃ ids,
        Nearby g pi = Some ids ∧
        let seen := take i psf ++ drop i psd in
        psf !! i
        = Some (setVel
                  (Vector2Add (vel pi)
                     (Vector2Scale (acceleration seen i pi ids) timeStep)) pi) ∧
        acceleration seen i pi [] = mkVector2 0 gravity ∧
        (∀ j, j ∈ ids → is_Some (seen !! j)) ∧
        (∀ j pj, seen !! j = Some pj →
                 ∃ q, psd !! j = Some q ∧ pos pj = pos q ∧
                      density pj = density q ∧ pressure pj = pressure q) ∧
        ∀ ids' j pj,
          seen !! j = Some pj →
          let rij := Vector2Subtract (pos pi) (pos pj) in
          let r := Vector2Length rij in
          let pressureTerm :=
            - mass * (pressure pi + pressure pj) / (2 * density pj) in
          (j ≠ i → 0 < r <= h →
           acceleration seen i pi (ids' ++ [j])
           = Vector2Add
               (Vector2Add (acceleration seen i pi ids')
                  (Vector2Scale
                     (Vector2Scale rij (-45 / (PI * h ^ 6) * (h - r) ^ 2 / r))
                     (pressureTerm / density pj)))
               (Vector2Scale (Vector2Subtract (vel pj) (vel pi))
                  (viscosity * (45 / (PI * h ^ 6) * (h - r)) / density pj))) ∧
          (j = i ∨ r <= 0 ∨ r > h →
           acceleration seen i pi (ids' ++ [j]) = acceleration seen i pi ids').
Proof.
  intros Hc.
  assert (Hpos : 0 < cellSize (grid s)) by (rewrite Hc; apply h_pos).
  destruct (Step_pipeline s Hpos)
    as (g & psd & psf & psi & Hins & _ & Hden & Hfor & _ & _ & Hposd & Hframe &
        _ & _ & _ & Hf & _ & _).
  exists g, psd, psf. repeat (split; [assumption |]).
  intros i pi Hp. destruct (Hf i pi Hp) as (ids & Hn & Hv).
  exists ids. split; [exact Hn |]. cbn zeta.
  pose proof (frame_length psf psd Hframe) as Hlen.
  pose proof (lookup_lt_Some _ _ _ Hp) as Hi.
  split; [exact Hv |]. split; [reflexivity |]. split; [| split].
  - intros j Hj. apply lookup_lt_is_Some.
    assert (j < length (particles s))%nat
      by (apply (Nearby_Insert_lt (grid s) g (particles s) pi ids j);
          [lra | assumption..]).
    pose proof (positions_length psd (particles s) Hposd).
    rewrite length_app, length_take, length_drop. lia.
  - intros j pj Hj. destruct (decide (j < i)%nat) as [Hlt | Hge].
    + rewrite mixed_lookup_lt in Hj by lia.
      destruct (frame_lookup psf psd j pj Hframe Hj) as (q & Hq & Ef).
      exists q. unfold frame in Ef. injection Ef as E1 E2 E3. auto.
    + rewrite mixed_lookup_ge in Hj by (assumption || lia).
      exists pj. auto.
  - intros ids' j pj Hj.
    rewrite acceleration_snoc.
    unfold addNeighbour. rewrite Hj. cbn zeta. split.
    + intros Hne Hr. rewrite decide_True by auto.
      unfold pressureForce, viscosityForce, spikyGrad_formula,
        viscLaplacian_formula.
      cbn zeta. rewrite !decide_True by lra. reflexivity.
    + intros Hskip. rewrite decide_False; [reflexivity |].
      intros (Hne & Hr). destruct Hskip as [E | [E | E]]; [congruence | lra | lra].
Qed.

Lemma force_accumulation_witness :
  let pA := mkParticle (mkVector2 100 100) (mkVector2 0 0) 0 0 in
  let pB := mkParticle (mkVector2 108 100) (mkVector2 30 0) 0 0 in
  let s := mkSPHSim [pA; pB] (mkGrid h ∅) in
  ∃ g psd psf,
    Insert (grid s) (particles s) = Some g ∧
    computeDensities (mkSPHSim (particles s) g) = Some (mkSPHSim psd g) ∧
    computeForces (mkSPHSim psd g) = Some (mkSPHSim psf g) ∧
    ∀ i pi, psd !! i = Some pi →
      ∃ ids,
        Nearby g pi = Some ids ∧
        let seen := take i psf ++ drop i psd in
        psf !! i
        = Some (setVel
                  (Vector2Add (vel pi)
                     (Vector2Scale (acceleration seen i pi ids) timeStep)) pi) ∧
        acceleration seen i pi [] = mkVector2 0 gravity ∧
        (∀ j, j ∈ ids → is_Some (seen !! j)) ∧
        (∀ j pj, seen !! j = Some pj →
                 ∃ q, psd !! j = Some q ∧ pos pj = pos q ∧
                      density pj = density q ∧ pressure pj = pressure q) ∧
        ∀ ids' j pj,
          seen !! j = Some pj →
          let rij := Vector2Subtract (pos pi) (pos pj) in
          let r := Vector2Length rij in
          let pressureTerm :=
            - mass * (pressure pi + pressure pj) / (2 * density pj) in
          (j ≠ i → 0 < r <= h →
           acceleration seen i pi (ids' ++ [j])
           = Vector2Add
               (Vector2Add (acceleration seen i pi ids')
                  (Vector2Scale
                     (Vector2Scale rij (-45 / (PI * h ^ 6) * (h - r) ^ 2 / r))
                     (pressureTerm / density pj)))
               (Vector2Scale (Vector2Subtract (vel pj) (vel pi))
                  (viscosity * (45 / (PI * h ^ 6) * (h - r)) / density pj))) ∧
          (j = i ∨ r <= 0 ∨ r > h →
           acceleration seen i pi (ids' ++ [j]) = acceleration seen i pi ids').
Proof.
  intros pA pB s. apply (force_accumulation s). reflexivity.
Defined.

(** Strictly within reach the two shares are not idle: the pressure
    share vanishes only when the two pressures cancel, the viscosity
    share only when the two velocities agree. *)
Lemma force_shares_nonzero (pi pj : Particle) :
  let r := Vector2Length (Vector2Subtract (pos pi) (pos pj)) in
  0 < r < h → density pj ≠ 0 →
  (pressure pi + pressure pj ≠ 0 → pressureForce pi pj ≠ Vector2Zero) ∧
  (vel pj ≠ vel pi → viscosityForce pi pj ≠ Vector2Zero).
Proof.
  intros r Hr Hd. pose proof h_pos as Hh.
  pose proof (PI_pos_pow h 6 Hh) as Hp. pose proof PI_RGT_0 as Hpi.
  assert (Hk : 0 < 45 / (PI * h ^ 6)) by (apply Rdiv_lt_0_compat; lra).
  split.
  - intros Hsum Hzero.
    unfold pressureForce in Hzero. fold r in Hzero.
    unfold spikyGrad_formula in Hzero. rewrite decide_True in Hzero by lra.
    set (k := -45 / (PI * h ^ 6) * (h - r) ^ 2 / r) in Hzero.
    set (t := - mass * (pressure pi + pressure pj) / (2 * density pj)
              / density pj) in Hzero.
    assert (Hkneg : k < 0).
    { subst k.
      replace (-45 / (PI * h ^ 6) * (h - r) ^ 2 / r)
        with (- (45 / (PI * h ^ 6) * ((h - r) ^ 2 / r))) by (field; repeat split; lra).
      assert (0 < (h - r) ^ 2 / r)
        by (apply Rdiv_lt_0_compat; [apply pow_lt |]; lra).
      assert (0 < 45 / (PI * h ^ 6) * ((h - r) ^ 2 / r))
        by (apply Rmult_lt_0_compat; assumption).
      lra. }
    assert (Ht : t ≠ 0).
    { subst t.
      replace (- mass * (pressure pi + pressure pj) / (2 * density pj)
               / density pj)
        with ((pressure pi + pressure pj)
              * (- mass / (2 * density pj * density pj))) by (field; repeat split; lra).
      apply Rmult_integral_contrapositive_currified; [exact Hsum |].
      unfold Rdiv. apply Rmult_integral_contrapositive_currified;
        [unfold mass; lra |].
      apply Rinv_neq_0_compat.
      repeat apply Rmult_integral_contrapositive_currified; lra. }
    assert (Hkt : k * t ≠ 0)
      by (apply Rmult_integral_contrapositive_currified; lra).
    apply (f_equal (λ v, (X v, Y v))) in Hzero.
    unfold Vector2Scale, Vector2Zero in Hzero. cbn [X Y] in Hzero.
    injection Hzero as Hx Hy.
    assert (Ex : X (Vector2Subtract (pos pi) (pos pj)) = 0).
    { destruct (Rmult_integral _ _ Hx) as [E | E]; [| contradiction].
      destruct (Rmult_integral _ _ E) as [E' | E']; [exact E' | lra]. }
    assert (Ey : Y (Vector2Subtract (pos pi) (pos pj)) = 0).
    { destruct (Rmult_integral _ _ Hy) as [E | E]; [| contradiction].
      destruct (Rmult_integral _ _ E) as [E' | E']; [exact E' | lra]. }
    assert (Er : r = 0).
    { subst r. unfold Vector2Length. rewrite Ex, Ey.
      replace (0 * 0 + 0 * 0) with 0 by ring. apply sqrt_0. }
    lra.
  - intros Hvel Hzero.
    unfold viscosityForce in Hzero. fold r in Hzero.
    unfold viscLaplacian_formula in Hzero. rewrite decide_True in Hzero by lra.
    set (c := viscosity * (45 / (PI * h ^ 6) * (h - r)) / density pj) in Hzero.
    assert (Hc : c ≠ 0).
    { subst c. unfold Rdiv at 1.
      apply Rmult_integral_contrapositive_currified;
        [| apply Rinv_neq_0_compat; exact Hd].
      apply Rmult_integral_contrapositive_currified; [unfold viscosity; lra |].
      apply Rmult_integral_contrapositive_currified; lra. }
    apply (f_equal (λ v, (X v, Y v))) in Hzero.
    unfold Vector2Scale, Vector2Subtract, Vector2Zero in Hzero.
    cbn [X Y] in Hzero. injection Hzero as Hx Hy.
    apply Hvel.
    destruct (Rmult_integral _ _ Hx) as [Ex | E]; [| contradiction].
    destruct (Rmult_integral _ _ Hy) as [Ey | E]; [| contradiction].
    destruct (vel pj) as [a b], (vel pi) as [a' b']. cbn [X Y] in Ex, Ey.
    f_equal; lra.
Qed.

(** ** Two particles side by side *)

Lemma sumR_ge_elem (l : list R) (x : R) :
  (∀ y, y ∈ l → 0 <= y) → x ∈ l → x <= sumR l.
Proof.
  induction l as [| y l IH]; intros Hl Hx; [inversion Hx |].
  cbn [sumR foldr]. fold (sumR l).
  assert (Hl' : ∀ z, z ∈ l → 0 <= z)
    by (intros z Hz; apply Hl, list_elem_of_further, Hz).
  pose proof (Hl y (list_elem_of_here y l)) as Hy.
  pose proof (sumR_nonneg l Hl') as Hs.
  apply elem_of_cons in Hx as [-> | Hx]; [lra |].
  specialize (IH Hl' Hx). lra.
Qed.

Lemma sumR_zero (l : list R) : (∀ x, x ∈ l → x = 0) → sumR l = 0.
Proof.
  induction l as [| x l IH]; intros Hl; [reflexivity |].
  cbn [sumR foldr]. fold (sumR l).
  rewrite (Hl x (list_elem_of_here x l)), IH; [ring |].
  intros y Hy. apply Hl, list_elem_of_further, Hy.
Qed.

(** The vertical share of neighbour [j] in the acceleration of [i]. *)
Lemma addNeighbour_Y (ps : list Particle) (i : nat) (p : Particle)
    (acc : Vector2) (j : nat) :
  Y (addNeighbour ps i p acc j)
  = Y acc + Y (addNeighbour ps i p Vector2Zero j).
Proof.
  unfold addNeighbour. destruct (ps !! j) as [pj |]; [| simpl; ring].
  destruct (decide _); simpl; ring.
Qed.

Lemma acceleration_Y (ps : list Particle) (i : nat) (p : Particle)
    (ids : list nat) :
  Y (acceleration ps i p ids)
  = gravity + sumR ((λ j, Y (addNeighbour ps i p Vector2Zero j)) <$> ids).
Proof.
  unfold acceleration.
  change gravity with (Y (mkVector2 0 gravity)) at 2.
  generalize (mkVector2 0 gravity) as acc.
  induction ids as [| j ids IH]; intros acc; cbn [foldl].
  - simpl. ring.
  - rewrite IH, addNeighbour_Y, fmap_cons. cbn [sumR foldr]. unfold sumR. ring.
Qed.

(** Between two particles on one level the pressure share is horizontal:
    the vertical share is the viscosity's. *)
Lemma addNeighbour_Y_level (ps : list Particle) (i : nat) (p pj : Particle)
    (j : nat) :
  ps !! j = Some pj → Y (pos pj) = Y (pos p) →
  Y (addNeighbour ps i p Vector2Zero j)
  = let r := Vector2Length (Vector2Subtract (pos p) (pos pj)) in
    if decide (j ≠ i ∧ 0 < r <= h)
    then (Y (vel pj) - Y (vel p))
         * (viscosity * viscLaplacian_formula r h / density pj)
    else 0.
Proof.
  intros Hj Hlevel. unfold addNeighbour. rewrite Hj. cbn zeta.
  destruct (decide _) as [(Hne & Hr) | Hn]; [| reflexivity].
  unfold pressureForce, viscosityForce, spikyGrad_formula.
  rewrite decide_True by exact Hr. simpl. rewrite Hlevel. ring.
Qed.

Lemma pair_of_length {A : Type} (l : list A) (x y : A) :
  length l = 2%nat → l !! 0%nat = Some x → l !! 1%nat = Some y → l = [x; y].
Proof.
  destruct l as [| a [| b [| c l]]]; simpl; intros Hl Hx Hy; try discriminate.
  congruence.
Qed.

(** Two particles at rest side by side, [10] apart, mirror images of each
    other.  After the force pass the first falls at [gravity · timeStep]
    and the second faster: it reads the first one's velocity after its
    update, and the viscosity drags it along.  A pass that read the
    velocities from before the pass would treat the two alike. *)
Lemma coupling_breaks_symmetry :
  let pA := mkParticle (mkVector2 200 50) Vector2Zero 0 0 in
  let pB := mkParticle (mkVector2 210 50) Vector2Zero 0 0 in
  ∃ g psd a b,
    Insert (mkGrid h ∅) [pA; pB] = Some g ∧
    computeDensities (mkSPHSim [pA; pB] g) = Some (mkSPHSim psd g) ∧
    computeForces (mkSPHSim psd g) = Some (mkSPHSim [a; b] g) ∧
    Y (vel a) = gravity * timeStep ∧
    Y (vel b) > gravity * timeStep.
Proof.
  intros pA pB.
  destruct (Step_pipeline (mkSPHSim [pA; pB] (mkGrid h ∅)))
    as (g & psd & psf & psi & Hins & _ & Hden & Hfor & _ & _ & Hposd &
        Hframe & _ & Hd & Hlow & Hf & _ & _); [apply h_pos |].
  cbn [particles grid] in *.
  pose proof (positions_length psd [pA; pB] Hposd) as Hlen. simpl in Hlen.
  pose proof (frame_length psf psd Hframe) as Hlenf. rewrite Hlen in Hlenf.
  (* what the density pass leaves *)
  destruct (Hd 0%nat pA eq_refl) as (idsA0 & _ & _ & HdA).
  destruct (Hd 1%nat pB eq_refl) as (idsB0 & _ & _ & HdB).
  set (dA := withDensity pA _) in HdA. set (dB := withDensity pB _) in HdB.
  pose proof (Hlow 0%nat dA HdA) as HlowA. pose proof self_density_pos as Hself.
  assert (Hidx : ∀ p ids j, Nearby g p = Some ids → j ∈ ids → (j < 2)%nat).
  { intros p ids j Hn Hj.
    apply (Nearby_Insert_lt (mkGrid h ∅) g [pA; pB] p ids j);
      [simpl; pose proof h_pos; lra | exact Hins | exact Hn | exact Hj]. }
  (* the first particle *)
  destruct (Hf 0%nat dA HdA) as (idsA & HnA & Ha).
  change (take 0 psf ++ drop 0 psd) with psd in Ha.
  set (a := setVel _ dA) in Ha.
  assert (HaY : Y (vel a) = gravity * timeStep).
  { subst a. cbn [vel setVel Vector2Add Vector2Scale Y].
    rewrite acceleration_Y.
    rewrite sumR_zero; [simpl; ring |].
    intros x Hx. apply list_elem_of_fmap in Hx as (j & -> & Hj).
    pose proof (Hidx dA idsA j HnA Hj) as Hj2.
    destruct j as [| [| j]]; [| | lia].
    + rewrite (addNeighbour_Y_level psd 0 dA dA 0 HdA eq_refl). cbn zeta.
      destruct (decide _); simpl; ring.
    + rewrite (addNeighbour_Y_level psd 0 dA dB 1 HdB eq_refl). cbn zeta.
      destruct (decide _); simpl; ring. }
  (* the second particle *)
  destruct (Hf 1%nat dB HdB) as (idsB & HnB & Hb).
  set (seen := take 1 psf ++ drop 1 psd) in Hb.
  set (b := setVel _ dB) in Hb.
  assert (Hs0 : seen !! 0%nat = Some a)
    by (subst seen; rewrite mixed_lookup_lt by lia; exact Ha).
  assert (Hs1 : seen !! 1%nat = Some dB)
    by (subst seen; rewrite mixed_lookup_ge by lia; exact HdB).
  assert (Hr : Vector2Length (Vector2Subtract (pos dB) (pos a)) = 10).
  { unfold Vector2Length. simpl.
    replace ((210 - 200) * (210 - 200) + (50 - 50) * (50 - 50)) with (10 * 10)
      by ring.
    apply sqrt_square. lra. }
  assert (Hda : density a = density dA) by reflexivity.
  assert (Hk : 0 < viscosity * viscLaplacian_formula 10 h / density a).
  { rewrite Hda. apply Rdiv_lt_0_compat; [| lra].
    apply Rmult_lt_0_compat; [unfold viscosity; lra |].
    unfold viscLaplacian_formula. rewrite decide_True by (unfold h; lra).
    apply Rmult_lt_0_compat; [| unfold h; lra].
    apply Rdiv_lt_0_compat; [lra | apply PI_pos_pow, h_pos]. }
  assert (Hshare0 : Y (addNeighbour seen 1 dB Vector2Zero 0)
                    = gravity * timeStep
                      * (viscosity * viscLaplacian_formula 10 h / density a)).
  { rewrite (addNeighbour_Y_level seen 1 dB a 0 Hs0 eq_refl). cbn zeta.
    rewrite Hr. rewrite decide_True by (split; [lia | unfold h; lra]).
    rewrite HaY. simpl. ring. }
  assert (Hshare1 : Y (addNeighbour seen 1 dB Vector2Zero 1) = 0).
  { rewrite (addNeighbour_Y_level seen 1 dB dB 1 Hs1 eq_refl). cbn zeta.
    rewrite decide_False by (intros [Hne _]; congruence). reflexivity. }
  assert (Hgt : 0 < gravity * timeStep).
  { unfold gravity, timeStep. lra. }
  assert (HbY : Y (vel b) > gravity * timeStep).
  { subst b. cbn [vel setVel Vector2Add Vector2Scale Y].
    rewrite acceleration_Y.
    assert (Hsum : gravity * timeStep
                   * (viscosity * viscLaplacian_formula 10 h / density a)
                   <= sumR ((λ j, Y (addNeighbour seen 1 dB Vector2Zero j))
                              <$> idsB)).
    { apply sumR_ge_elem.
      - intros x Hx. apply list_elem_of_fmap in Hx as (j & -> & Hj).
        pose proof (Hidx dB idsB j HnB Hj) as Hj2.
        destruct j as [| [| j]]; [| | lia].
        + rewrite Hshare0. apply Rlt_le, Rmult_lt_0_compat; assumption.
        + rewrite Hshare1. lra.
      - rewrite <- Hshare0. apply list_elem_of_fmap. exists 0%nat.
        split; [reflexivity |].
        destruct (Nearby_complete (mkGrid h ∅) g [pA; pB] dB pA 0)
          as (ids' & Hn' & H0); [apply h_pos | exact Hins | reflexivity | |].
        + change (pos dB) with (pos pB). apply Vector2Length_le;
            [apply Rlt_le, h_pos |]. simpl. unfold h. lra.
        + rewrite HnB in Hn'. apply (inj Some) in Hn'. subst ids'. exact H0. }
    assert (Hprod : 0 < gravity * timeStep
                        * (viscosity * viscLaplacian_formula 10 h / density a))
      by (apply Rmult_lt_0_compat; assumption).
    simpl. unfold timeStep in *. nra. }
  exists g, psd, a, b.
  split; [exact Hins |]. split; [exact Hden |]. split; [| split; assumption].
  rewrite Hfor. do 2 f_equal.
  apply pair_of_length; assumption.
Qed.

(** C10: in a step, after the density pass, every particle has at least
    the density [mass · poly6(0, h)], which is positive, because [Nearby]
    returns every particle for itself; the force pass finds only positive
    densities, however far it has got; and the whole step runs without a
    zero divisor. *)
Theorem density_positive (s : SPHSim) :
  cellSize (grid s) = h →
  ∃ g psd s' w0,
    Insert (grid s) (particles s) = Some g ∧
    computeDensities (mkSPHSim (particles s) g) = Some (mkSPHSim psd g) ∧
    (∀ i p, particles s !! i = Some p →
            ∃ ids, Nearby g p = Some ids ∧ i ∈ ids) ∧
    poly6 0 h = Some w0 ∧ 0 < mass * w0 ∧
    (∀ p, p ∈ psd → mass * w0 <= density p) ∧
    (∀ k, (k ≤ length psd)%nat →
          ∃ cur, forEach (forceAt g) (seq 0 k) psd = Some cur ∧
                 ∀ q, q ∈ cur → 0 < density q) ∧
    Step s = Some s'.
Proof.
  intros Hc.
  destruct (Step_pipeline s)
    as (g & psd & psf & psi & Hins & _ & Hden & _ & _ & Hstep & _ & _ &
        _ & Hd & Hlow & _ & _ & Hpre); [rewrite Hc; apply h_pos |].
  exists g, psd, (mkSPHSim psi g), (poly6_formula 0 h).
  pose proof self_density_pos as Hpos.
  split; [exact Hins |]. split; [exact Hden |]. split.
  { intros i p Hp. destruct (Hd i p Hp) as (ids & Hn & Hi & _). eauto. }
  split; [apply poly6_formula_eq, h_pos |]. split; [exact Hpos |]. split.
  { intros p Hp. apply list_elem_of_lookup in Hp as [i Hp]. eapply Hlow, Hp. }
  split; [| exact Hstep].
  intros k Hk. destruct (Hpre k Hk) as (cur & Hrun & Hframe).
  exists cur. split; [exact Hrun |].
  intros q Hq. apply list_elem_of_lookup in Hq as [j Hq].
  destruct (frame_lookup cur psd j q Hframe Hq) as (p & Hp & Ef).
  assert (Ed : density q = density p) by (unfold frame in Ef; congruence).
  rewrite Ed. pose proof (Hlow j p Hp). lra.
Qed.

Lemma density_positive_witness :
  ∃ g psd s' w0,
    Insert (grid NewSPHSim) (particles NewSPHSim) = Some g ∧
    computeDensities (mkSPHSim (particles NewSPHSim) g) = Some (mkSPHSim psd g) ∧
    (∀ i p, particles NewSPHSim !! i = Some p →
            ∃ ids, Nearby g p = Some ids ∧ i ∈ ids) ∧
    poly6 0 h = Some w0 ∧ 0 < mass * w0 ∧
    (∀ p, p ∈ psd → mass * w0 <= density p) ∧
    (∀ k, (k ≤ length psd)%nat →
          ∃ cur, forEach (forceAt g) (seq 0 k) psd = Some cur ∧
                 ∀ q, q ∈ cur → 0 < density q) ∧
    Step NewSPHSim = Some s'.
Proof. apply (density_positive NewSPHSim). reflexivity. Defined.

(** ** Walls *)

Lemma wallCollisions_spec (q : Particle) :
  let w := wallCollisions q in
  (X (pos q) < 5 → X (pos w) = 5 ∧ X (vel w) = X (vel q) * -0.5) ∧
  (X (pos q) > 795 → X (pos w) = 795 ∧ X (vel w) = X (vel q) * -0.5) ∧
  (5 <= X (pos q) <= 795 → X (pos w) = X (pos q) ∧ X (vel w) = X (vel q)) ∧
  (Y (pos q) < 5 → Y (pos w) = 5 ∧ Y (vel w) = Y (vel q) * -0.5) ∧
  (Y (pos q) > 395 → Y (pos w) = 395 ∧ Y (vel w) = Y (vel q) * -0.5) ∧
  (5 <= Y (pos q) <= 395 → Y (pos w) = Y (pos q) ∧ Y (vel w) = Y (vel q)).
Proof.
  unfold wallCollisions.
  change (IZR (windowWidth - 5)) with 795.
  change (IZR (windowHeight - 5)) with 395.
  destruct q as [[x y] [vx vy] d pr]. cbn [pos vel X Y].
  repeat (case_bool_decide; cbn [pos vel X Y setPos setVel setX setY] in *);
    repeat split; intros; lra.
Qed.

(** C6: the integration pass.  [integrate] stores for every particle the
    result of advancing it, reflecting it at the walls, capping and
    damping its velocity.  A particle whose advanced position is beyond a
    wall is put exactly on the wall and the velocity component of that
    axis is multiplied by [−0.5], that is negated and halved; the two
    axes are handled apart, each from its own coordinates alone.  The
    position that [integrate] stores is the one the walls leave, and,
    unless the cap applies, the velocity it stores is the reflected one
    times the drag. *)
Theorem wall_reflection (s : SPHSim) :
  ∃ psi,
    integrate s = Some (mkSPHSim psi (grid s)) ∧
    length psi = length (particles s) ∧
    ∀ i p, particles s !! i = Some p →
      let q := advance p in
      let w := wallCollisions q in
      let right := IZR (windowWidth - 5) in
      let bottom := IZR (windowHeight - 5) in
      (X (pos q) > right → X (pos w) = right ∧ X (vel w) = - (X (vel p) / 2)) ∧
      (X (pos q) < 5 → X (pos w) = 5 ∧ X (vel w) = - (X (vel p) / 2)) ∧
      (5 <= X (pos q) <= right → X (pos w) = X (pos q) ∧ X (vel w) = X (vel p)) ∧
      (Y (pos q) > bottom → Y (pos w) = bottom ∧ Y (vel w) = - (Y (vel p) / 2)) ∧
      (Y (pos q) < 5 → Y (pos w) = 5 ∧ Y (vel w) = - (Y (vel p) / 2)) ∧
      (5 <= Y (pos q) <= bottom → Y (pos w) = Y (pos q) ∧ Y (vel w) = Y (vel p)) ∧
      ∃ c, clampVelocity w = Some c ∧
           psi !! i = Some (applyDrag c) ∧
           pos (applyDrag c) = pos w ∧
           (Vector2Length (vel w) <= 1000 →
            vel (applyDrag c) = Vector2Scale (vel w) 0.995).
Proof.
  destruct s as [ps g].
  destruct (integrate_spec g ps) as (psi & Hrun & Hlen & Hi).
  exists psi. split; [exact Hrun |]. split; [exact Hlen |].
  intros i p Hp q w right bottom.
  change right with 795. change bottom with 395.
  destruct (wallCollisions_spec q) as (H1 & H2 & H3 & H4 & H5 & H6).
  fold w in H1, H2, H3, H4, H5, H6.
  assert (Ev : vel q = vel p) by reflexivity. rewrite Ev in *.
  repeat split; intros;
    try (destruct (H1 ltac:(assumption)); lra);
    try (destruct (H2 ltac:(assumption)); lra);
    try (destruct (H3 ltac:(assumption)); lra);
    try (destruct (H4 ltac:(assumption)); lra);
    try (destruct (H5 ltac:(assumption)); lra);
    try (destruct (H6 ltac:(assumption)); lra).
  destruct (Hi i p Hp) as (c & Hc & Hstored). fold q in Hc. fold w in Hc.
  destruct (clampVelocity_spec w) as (c' & Hc' & Hpos & _ & _ & _ & Hslow & _).
  rewrite Hc in Hc'. injection Hc' as <-.
  exists c. split; [exact Hc |]. split; [exact Hstored |].
  split; [exact Hpos |].
  intros Hle. rewrite (Hslow Hle). reflexivity.
Qed.

(** ** A single particle *)

Lemma Vector2_eq (u v : Vector2) : X u = X v → Y u = Y v → u = v.
Proof. destruct u, v; simpl; intros -> ->; reflexivity. Qed.

(** A particle with no neighbour in reach but itself accelerates by
    gravity alone. *)
Lemma acceleration_isolated (ps : list Particle) (i : nat) (p : Particle)
    (ids : list nat) :
  (∀ j pj, j ∈ ids → ps !! j = Some pj →
           j = i ∨ ¬ 0 < Vector2Length (Vector2Subtract (pos p) (pos pj)) <= h) →
  acceleration ps i p ids = mkVector2 0 gravity.
Proof.
  unfold acceleration. generalize (mkVector2 0 gravity) as acc.
  induction ids as [| j ids IH]; intros acc Hiso; cbn [foldl]; [reflexivity |].
  assert (Hj : addNeighbour ps i p acc j = acc).
  { unfold addNeighbour. destruct (ps !! j) as [pj |] eqn:Epj; [| reflexivity].
    destruct (Hiso j pj (list_elem_of_here j ids) Epj) as [E | Hfar].
    - rewrite decide_False by (intros [Hne _]; congruence). reflexivity.
    - rewrite decide_False by (intros [_ Hr]; contradiction). reflexivity. }
  rewrite Hj. apply IH. intros j' pj' Hj'. apply Hiso, list_elem_of_further, Hj'.
Qed.

Lemma singleton_of_length {A : Type} (l : list A) (x : A) :
  length l = 1%nat → l !! 0%nat = Some x → l = [x].
Proof.
  destruct l as [| y [| z l]]; simpl; intros Hl Hx; try discriminate.
  congruence.
Qed.

(** C1: a simulation of one particle, at [(200, 50)] and at rest.  One
    step gives it the velocity [(0, 4.5)] in the force pass, moves it to
    [(200, 50.00675)], and leaves it, after the drag, the velocity
    [(0, 4.4775)].  The grid's old contents and the particle's old
    density and pressure do not matter. *)
Theorem single_particle_step (d0 q0 : R) (m : gmap (Z * Z) (list nat)) :
  let p0 := mkParticle (mkVector2 200 50) (mkVector2 0 0) d0 q0 in
  let s0 := mkSPHSim [p0] (mkGrid h m) in
  gravity = 3000 ∧ timeStep = 0.0015 ∧
  ∃ g pd pf pi,
    Insert (grid s0) (particles s0) = Some g ∧
    computeDensities (mkSPHSim [p0] g) = Some (mkSPHSim [pd] g) ∧
    computeForces (mkSPHSim [pd] g) = Some (mkSPHSim [pf] g) ∧
    integrate (mkSPHSim [pf] g) = Some (mkSPHSim [pi] g) ∧
    Step s0 = Some (mkSPHSim [pi] g) ∧
    pos pf = mkVector2 200 50 ∧
    vel pf = mkVector2 0 4.5 ∧
    pos pi = mkVector2 200 50.00675 ∧
    vel pi = mkVector2 0 4.4775.
Proof.
  intros p0 s0. split; [reflexivity |]. split; [reflexivity |].
  destruct (Step_pipeline s0)
    as (g & psd & psf & psi & Hins & _ & Hden & Hfor & Hint & Hstep & Hposd &
        Hframe & Hlen & Hd & _ & Hf & Hi & _); [apply h_pos |].
  cbn [particles grid s0] in *.
  (* the density pass *)
  destruct (Hd 0%nat p0 eq_refl) as (ids & Hn & _ & Hpd).
  set (pd := withDensity p0 _) in Hpd.
  assert (Epsd : psd = [pd])
    by (apply singleton_of_length;
        [apply (positions_length psd [p0] Hposd) | exact Hpd]).
  subst psd.
  (* the force pass *)
  destruct (Hf 0%nat pd eq_refl) as (ids' & Hn' & Hpf).
  rewrite acceleration_isolated in Hpf.
  2:{ intros j pj Hj _. left.
      assert (j < 1)%nat; [| lia].
      apply (Nearby_Insert_lt (mkGrid h m) g [p0] pd ids' j);
        [simpl; pose proof h_pos; lra | exact Hins | exact Hn' | exact Hj]. }
  set (pf := setVel _ pd) in Hpf.
  assert (Epsf : psf = [pf])
    by (apply singleton_of_length;
        [apply (frame_length psf [pd] Hframe) | exact Hpf]).
  subst psf.
  (* the integration pass *)
  destruct (Hi 0%nat pf eq_refl) as (c & Hc & Hpi).
  assert (Epsi : psi = [applyDrag c])
    by (apply singleton_of_length; [exact Hlen | exact Hpi]).
  subst psi.
  destruct (wallCollisions_spec (advance pf)) as (_ & _ & Hx & _ & _ & Hy).
  set (w := wallCollisions (advance pf)) in *.
  cbn [advance pf pd withDensity p0 setVel setPos pos vel X Y Vector2Add
         Vector2Scale] in Hx, Hy.
  unfold gravity, timeStep in Hx, Hy.
  destruct Hx as [Hxp Hxv]; [lra |]. destruct Hy as [Hyp Hyv]; [lra |].
  destruct (clampVelocity_spec w) as (c' & Hc' & Hcp & _ & _ & _ & Hslow & _).
  rewrite Hc in Hc'. apply (inj Some) in Hc'. subst c'.
  assert (Ec : c = w).
  { apply Hslow, Vector2Length_le; [lra |]. rewrite Hxv, Hyv. lra. }
  subst c.
  exists g, pd, pf, (applyDrag w).
  repeat (split; [assumption |]).
  split; [reflexivity |]. split; [| split].
  - apply Vector2_eq; simpl; unfold gravity, timeStep; lra.
  - apply Vector2_eq; simpl; lra.
  - apply Vector2_eq; simpl; lra.
Qed.

(** * Further properties of the code *)

(** ** Kernels: sign, bounds and the edge of the support *)

(** X1: for [h > 0] the viscosity kernel never leaves the model; it is
    [45 / (π h⁶) · (h − r)] on [0 ≤ r ≤ h] and [0] for a negative [r] and
    beyond [h]; it is never negative, largest at [r = 0], and [0] at
    [r = h], where the two branches meet. *)
Theorem viscLaplacian_spec (r h : R) :
  0 < h →
  ∃ v, viscLaplacian r h = Some v ∧
       (0 <= r <= h → v = 45 / (PI * h ^ 6) * (h - r)) ∧
       (r < 0 ∨ r > h → v = 0) ∧
       (r = h → v = 0) ∧
       0 <= v <= 45 / (PI * h ^ 5).
Proof.
  intros Hh. pose proof (PI_pos_pow h 6 Hh) as Hp.
  pose proof PI_RGT_0 as Hpi.
  exists (viscLaplacian_formula r h).
  split; [apply viscLaplacian_formula_eq, Hh |].
  unfold viscLaplacian_formula.
  assert (Hc : 0 < 45 / (PI * h ^ 6)) by (apply Rdiv_lt_0_compat; lra).
  assert (Htop : 45 / (PI * h ^ 6) * h = 45 / (PI * h ^ 5))
    by (field; split; lra).
  destruct (decide (0 <= r <= h)) as [[H0 H1] | Hn].
  - split; [reflexivity |]. split; [intros [? | ?]; lra |].
    split; [intros ->; ring |]. rewrite <- Htop. nra.
  - split; [intros; lra |]. split; [reflexivity |].
    split; [reflexivity |]. rewrite <- Htop. nra.
Qed.

Lemma viscLaplacian_spec_witness :
  ∃ v, viscLaplacian 10 16 = Some v ∧
       (0 <= 10 <= 16 → v = 45 / (PI * 16 ^ 6) * (16 - 10)) ∧
       (10 < 0 ∨ 10 > 16 → v = 0) ∧
       (10 = 16 → v = 0) ∧
       0 <= v <= 45 / (PI * 16 ^ 5).
Proof. apply (viscLaplacian_spec 10 16). lra. Defined.

Lemma poly6_formula_mono (h r1 r2 : R) :
  0 < h → 0 <= r1 <= r2 → r2 <= h →
  poly6_formula r2 h <= poly6_formula r1 h.
Proof.
  intros Hh [H0 H12] H2. pose proof (PI_pos_pow h 9 Hh) as Hp.
  assert (Hc : 0 < 315 / (64 * PI * h ^ 9))
    by (apply Rdiv_lt_0_compat; lra).
  unfold poly6_formula. rewrite !decide_True by lra.
  apply Rmult_le_compat_l; [lra |].
  apply pow_incr. nra.
Qed.

Lemma poly6_formula_le_zero (h r : R) :
  0 < h → poly6_formula r h <= poly6_formula 0 h.
Proof.
  intros Hh. destruct (decide (0 <= r <= h)) as [[H0 H1] | Hn].
  - apply poly6_formula_mono; lra.
  - unfold poly6_formula at 1. rewrite decide_False by exact Hn.
    apply Rlt_le, poly6_formula_zero_pos, Hh.
Qed.

(** X2: for [h > 0] the density kernel never leaves the model; its value
    lies between [0] and its value at distance zero, it does not grow with
    the distance on [0 ≤ r ≤ h], and it is [0] at [r = h] as beyond, and
    for a negative distance. *)
Theorem poly6_bounds (h : R) :
  0 < h →
  ∃ w0, poly6 0 h = Some w0 ∧ 0 < w0 ∧
        (∀ r, ∃ w, poly6 r h = Some w ∧ 0 <= w <= w0) ∧
        (∀ r1 r2 w1 w2, 0 <= r1 <= r2 → r2 <= h →
                        poly6 r1 h = Some w1 → poly6 r2 h = Some w2 → w2 <= w1) ∧
        poly6 h h = Some 0 ∧
        (∀ r, r < 0 → poly6 r h = Some 0).
Proof.
  intros Hh.
  exists (poly6_formula 0 h).
  split; [apply poly6_formula_eq, Hh |].
  split; [apply poly6_formula_zero_pos, Hh |].
  split; [| split; [| split]].
  - intros r. exists (poly6_formula r h).
    split; [apply poly6_formula_eq, Hh |].
    split; [apply poly6_formula_nonneg, Hh |].
    apply poly6_formula_le_zero, Hh.
  - intros r1 r2 w1 w2 H12 H2 E1 E2.
    rewrite poly6_formula_eq in E1, E2 by exact Hh.
    apply (inj Some) in E1, E2. subst w1 w2.
    apply poly6_formula_mono; assumption.
  - rewrite poly6_formula_eq by exact Hh. f_equal.
    unfold poly6_formula. rewrite decide_True by lra. ring.
  - intros r Hr. rewrite poly6_formula_eq by exact Hh. f_equal.
    unfold poly6_formula. rewrite decide_False by lra. reflexivity.
Qed.

Lemma poly6_bounds_witness :
  ∃ w0, poly6 0 16 = Some w0 ∧ 0 < w0 ∧
        (∀ r, ∃ w, poly6 r 16 = Some w ∧ 0 <= w <= w0) ∧
        (∀ r1 r2 w1 w2, 0 <= r1 <= r2 → r2 <= 16 →
                        poly6 r1 16 = Some w1 → poly6 r2 16 = Some w2 → w2 <= w1) ∧
        poly6 16 16 = Some 0 ∧
        (∀ r, r < 0 → poly6 r 16 = Some 0).
Proof. apply (poly6_bounds 16). lra. Defined.

(** ** The grid: what a rebuild stores *)

Lemma cellMembers_ge (c : R) (k : Z * Z) (ps : list Particle) (i j : nat) :
  j ∈ cellMembers c k i ps → (i ≤ j)%nat.
Proof. intros Hj. apply cellMembers_elem in Hj as [Hle _]. exact Hle. Qed.

Lemma cellMembers_NoDup (c : R) (k : Z * Z) (ps : list Particle) :
  ∀ i, NoDup (cellMembers c k i ps).
Proof.
  induction ps as [| p ps IH]; intros i; cbn [cellMembers]; [constructor |].
  destruct (decide (keyOf c p = k)); [| apply IH].
  cbn [app]. constructor; [| apply IH].
  intros Hi. apply cellMembers_ge in Hi. lia.
Qed.

Lemma insertFrom_keys (ps : list Particle) :
  ∀ (i : nat) (g g' : Grid) (k : Z * Z),
    insertFrom i ps g = Some g' →
    is_Some (cells g !! k) → is_Some (cells g' !! k).
Proof.
  induction ps as [| p ps IH]; intros i g g' k Hrun Hk; cbn [insertFrom] in Hrun.
  - apply (inj Some) in Hrun. subst g'. exact Hk.
  - destruct (insertAt i p g) as [g1 |] eqn:E1; [| discriminate].
    cbn [mbind option_bind] in Hrun.
    apply (IH (S i) g1 g' k Hrun).
    unfold insertAt in E1.
    destruct (cellKey g p) as [key |]; [| discriminate].
    cbn [mbind option_bind] in E1. apply (inj Some) in E1. subst g1.
    cbn [cells]. rewrite lookup_insert.
    destruct (decide (key = k)); [eexists; reflexivity | exact Hk].
Qed.

Lemma Insert_keys (g g' : Grid) (ps : list Particle) (k : Z * Z) :
  Insert g ps = Some g' →
  is_Some (cells g !! k) → is_Some (cells g' !! k).
Proof.
  intros Hrun Hk. apply (insertFrom_keys ps 0 (Clear g) g' k Hrun).
  unfold Clear; cbn [cells]. rewrite lookup_fmap.
  destruct Hk as [b ->]. eexists; reflexivity.
Qed.

(** X3: a rebuild of the grid succeeds whenever the cell size is not zero,
    whatever the grid held before.  Afterwards a bucket holds exactly the
    indices of the particles whose cell it is, each once: every particle
    is in one bucket and in no other.  No key of the map is ever deleted,
    a bucket is only emptied. *)
Theorem Insert_partition (g : Grid) (ps : list Particle) :
  cellSize g ≠ 0 →
  ∃ g', Insert g ps = Some g' ∧
        cellSize g' = cellSize g ∧
        (∀ k i, i ∈ bucket (cells g') k ↔
                ∃ p, ps !! i = Some p ∧ cellKey g p = Some k) ∧
        (∀ k, NoDup (bucket (cells g') k)) ∧
        (∀ k, is_Some (cells g !! k) → is_Some (cells g' !! k)).
Proof.
  intros Hc. destruct (Insert_spec g ps Hc) as (g' & Hrun & Hsize & Hb).
  exists g'. split; [exact Hrun |]. split; [exact Hsize |].
  split; [| split].
  - intros k i. rewrite Hb, cellMembers_elem. split.
    + intros (_ & p & Hp & Hk). exists p. rewrite Nat.sub_0_r in Hp.
      split; [exact Hp |]. rewrite cellKey_Some by exact Hc. congruence.
    + intros (p & Hp & Hk). split; [lia |]. exists p.
      rewrite Nat.sub_0_r. split; [exact Hp |].
      rewrite cellKey_Some in Hk by exact Hc. congruence.
  - intros k. rewrite Hb. apply cellMembers_NoDup.
  - intros k. apply (Insert_keys g g' ps k Hrun).
Qed.

Lemma Insert_partition_witness :
  let pA := mkParticle (mkVector2 200 50) (mkVector2 0 0) 0 0 in
  let pB := mkParticle (mkVector2 210 50) (mkVector2 0 0) 0 0 in
  let g := mkGrid h {[ (0, 0)%Z := [7; 8; 9]%nat ]} in
  ∃ g', Insert g [pA; pB] = Some g' ∧
        cellSize g' = cellSize g ∧
        (∀ k i, i ∈ bucket (cells g') k ↔
                ∃ p, [pA; pB] !! i = Some p ∧ cellKey g p = Some k) ∧
        (∀ k, NoDup (bucket (cells g') k)) ∧
        (∀ k, is_Some (cells g !! k) → is_Some (cells g' !! k)).
Proof.
  intros pA pB g. apply (Insert_partition g [pA; pB]).
  simpl. pose proof h_pos. lra.
Defined.

Lemma wrap_offset_inj (a dx dx' : Z) :
  dx ∈ offsets → dx' ∈ offsets → wrap (a + dx) = wrap (a + dx') → dx = dx'.
Proof.
  unfold offsets, wrap. intros Hdx Hdx' E.
  assert (Hr : (-1 <= dx <= 1)%Z).
  { apply elem_of_cons in Hdx as [-> | Hdx]; [lia |].
    apply elem_of_cons in Hdx as [-> | Hdx]; [lia |].
    apply list_elem_of_singleton in Hdx as ->. lia. }
  assert (Hr' : (-1 <= dx' <= 1)%Z).
  { apply elem_of_cons in Hdx' as [-> | Hdx']; [lia |].
    apply elem_of_cons in Hdx' as [-> | Hdx']; [lia |].
    apply list_elem_of_singleton in Hdx' as ->. lia. }
  change (2 ^ 64)%Z with 18446744073709551616%Z in E.
  change (2 ^ 63)%Z with 9223372036854775808%Z in E.
  Z.div_mod_to_equations. lia.
Qed.

Lemma Nearby_Insert_NoDup (g : Grid) (ps : list Particle) :
  cellSize g ≠ 0 →
  ∃ g', Insert g ps = Some g' ∧
        ∀ p, ∃ ids, Nearby g' p = Some ids ∧ NoDup ids ∧
                    (∀ j, j ∈ ids → (j < length ps)%nat) ∧
                    (length ids ≤ length ps)%nat.
Proof.
  intros Hc. destruct (Insert_spec g ps Hc) as (g' & Hrun & Hsize & Hb).
  exists g'. split; [exact Hrun |]. intros p.
  assert (Hc' : cellSize g' ≠ 0) by (rewrite Hsize; exact Hc).
  eexists. split; [apply Nearby_Some, Hc' |].
  assert (Hkey : ∀ k1 k2 j, j ∈ bucket (cells g') k1 →
                            j ∈ bucket (cells g') k2 → k1 = k2).
  { intros k1 k2 j H1 H2. rewrite Hb in H1, H2.
    apply cellMembers_elem in H1 as (_ & p1 & Hp1 & <-).
    apply cellMembers_elem in H2 as (_ & p2 & Hp2 & <-).
    congruence. }
  assert (Hoff : NoDup offsets).
  { unfold offsets. apply (bool_decide_unpack _). vm_compute. exact I. }
  assert (Hnd : NoDup
    (dy ← offsets; dx ← offsets;
     bucket (cells g') (wrap ((keyOf (cellSize g') p).1 + dx),
                        wrap ((keyOf (cellSize g') p).2 + dy)))).
  { apply NoDup_bind; [| | exact Hoff].
    - intros dy dy' j Hdy Hdy' H1 H2.
      apply list_elem_of_bind in H1 as (dx & H1 & Hdx).
      apply list_elem_of_bind in H2 as (dx' & H2 & Hdx').
      pose proof (Hkey _ _ j H1 H2) as E. injection E as _ E.
      apply (wrap_offset_inj _ dy dy' Hdy Hdy' E).
    - intros dy Hdy. apply NoDup_bind; [| | exact Hoff].
      + intros dx dx' j Hdx Hdx' H1 H2.
        pose proof (Hkey _ _ j H1 H2) as E. injection E as E.
        apply (wrap_offset_inj _ dx dx' Hdx Hdx' E).
      + intros dx _. rewrite Hb. apply cellMembers_NoDup. }
  assert (Hlt : ∀ j, j ∈ (dy ← offsets; dx ← offsets;
     bucket (cells g') (wrap ((keyOf (cellSize g') p).1 + dx),
                        wrap ((keyOf (cellSize g') p).2 + dy))) →
                     (j < length ps)%nat).
  { intros j Hj. apply list_elem_of_bind in Hj as (dy & Hj & _).
    apply list_elem_of_bind in Hj as (dx & Hj & _).
    rewrite Hb in Hj. apply cellMembers_elem in Hj as (_ & q & Hq & _).
    apply lookup_lt_Some in Hq. lia. }
  split; [exact Hnd |]. split; [exact Hlt |].
  match goal with
  | |- (length ?ids ≤ _)%nat =>
      assert (Hsub : ids ⊆+ seq 0 (length ps))
  end.
  { apply NoDup_submseteq; [exact Hnd |].
    intros j Hj. apply elem_of_seq. specialize (Hlt j Hj). lia. }
  apply submseteq_length in Hsub. rewrite length_seq in Hsub. exact Hsub.
Qed.

(** X4: on a rebuilt grid, [Nearby] succeeds for every particle; its
    result names no index twice and only indices of the slice, so it is
    never longer than the slice. *)
Theorem Nearby_NoDup (g : Grid) (ps : list Particle) :
  cellSize g ≠ 0 →
  ∃ g', Insert g ps = Some g' ∧
        ∀ p, ∃ ids, Nearby g' p = Some ids ∧ NoDup ids ∧
                    (∀ j, j ∈ ids → (j < length ps)%nat) ∧
                    (length ids ≤ length ps)%nat.
Proof. apply Nearby_Insert_NoDup. Qed.

Lemma Nearby_NoDup_witness :
  ∃ g', Insert (grid NewSPHSim) (particles NewSPHSim) = Some g' ∧
        ∀ p, ∃ ids, Nearby g' p = Some ids ∧ NoDup ids ∧
                    (∀ j, j ∈ ids → (j < length (particles NewSPHSim))%nat) ∧
                    (length ids ≤ length (particles NewSPHSim))%nat.
Proof.
  apply (Nearby_NoDup (grid NewSPHSim) (particles NewSPHSim)).
  simpl. pose proof h_pos. lra.
Defined.

Lemma trunc_interval (t : R) (k : Z) :
  trunc t = k ↔
  ((0 < k)%Z ∧ IZR k <= t < IZR k + 1) ∨
  (k = 0%Z ∧ -1 < t < 1) ∨
  ((k < 0)%Z ∧ IZR k - 1 < t <= IZR k).
Proof.
  destruct (trunc_bound t) as [Hp Hn], (trunc_sign t) as [Sp Sn].
  split.
  - intros <-. destruct (Rle_lt_dec 0 t) as [Ht | Ht].
    + specialize (Hp Ht). specialize (Sp Ht).
      destruct (decide (trunc t = 0%Z)) as [E | E].
      * right; left. rewrite E in Hp. simpl in Hp. split; [exact E | lra].
      * left. split; [lia | exact Hp].
    + specialize (Hn Ht). specialize (Sn Ht).
      destruct (decide (trunc t = 0%Z)) as [E | E].
      * right; left. rewrite E in Hn. simpl in Hn. split; [exact E | lra].
      * right; right. split; [lia | exact Hn].
  - intros [(Hk & Ht) | [(-> & Ht) | (Hk & Ht)]].
    + apply trunc_eq; [lia | exact Ht].
    + unfold trunc. destruct (decide (0 <= t)).
      * apply Zfloor_eq. simpl. lra.
      * apply Zceil_eq. simpl. lra.
    + unfold trunc. apply IZR_lt in Hk.
      destruct (decide (0 <= t)); [lra |]. apply Zceil_eq, Ht.
Qed.

(** X5: which positions share a cell.  For a positive cell size [c] the
    key of an axis is [k > 0] on [k·c ≤ x < (k+1)·c], [k < 0] on
    [(k−1)·c < x ≤ k·c], and [0] on the whole of [−c < x < c]: the
    conversion truncates toward zero, so the cell at the origin is twice
    as wide as the others.  (The smallest integer is left out: it is also
    the key of every position whose quotient does not fit.) *)
Theorem cell_intervals (g : Grid) (p : Particle) (kx ky : Z) :
  0 < cellSize g →
  (minInt < kx <= maxInt)%Z → (minInt < ky <= maxInt)%Z →
  let c := cellSize g in
  let inCell (k : Z) (x : R) :=
    ((0 < k)%Z ∧ IZR k * c <= x < (IZR k + 1) * c) ∨
    (k = 0%Z ∧ - c < x < c) ∨
    ((k < 0)%Z ∧ (IZR k - 1) * c < x <= IZR k * c) in
  cellKey g p = Some (kx, ky) ↔ inCell kx (X (pos p)) ∧ inCell ky (Y (pos p)).
Proof.
  intros Hc Hkx Hky c inCell. fold c in Hc.
  rewrite cellKey_Some by (fold c; lra). fold c. unfold keyOf.
  assert (Hax : ∀ k x, (minInt < k <= maxInt)%Z →
                       toInt (x / c) = k ↔ inCell k x).
  { intros k x Hk.
    assert (Hdiv : ∀ a b : R, (a * c <= x ↔ a <= x / c) ∧ (x < b * c ↔ x / c < b)
                              ∧ (a * c < x ↔ a < x / c) ∧ (x <= b * c ↔ x / c <= b)).
    { intros a b.
      assert (E : x = x / c * c) by (field; lra).
      repeat split; intros H; first [nra | rewrite E; nra | rewrite E in H; nra]. }
    assert (Hin : inCell k x ↔
      ((0 < k)%Z ∧ IZR k <= x / c < IZR k + 1) ∨
      (k = 0%Z ∧ -1 < x / c < 1) ∨
      ((k < 0)%Z ∧ IZR k - 1 < x / c <= IZR k)).
    { unfold inCell.
      destruct (Hdiv (IZR k) (IZR k + 1)) as (A1 & A2 & _ & _).
      destruct (Hdiv (-1) 1) as (_ & B2 & B3 & _).
      destruct (Hdiv (IZR k - 1) (IZR k)) as (_ & _ & C3 & C4).
      replace (-1 * c) with (- c) in B3 by ring.
      replace (1 * c) with c in B2 by ring.
      tauto. }
    rewrite Hin, <- trunc_interval. unfold toInt.
    destruct (decide (minInt <= trunc (x / c) <= maxInt)%Z) as [Hr | Hr];
      [reflexivity |].
    split; [intros <-; lia | intros E; rewrite E in Hr; lia]. }
  split.
  - intros E. injection E as Ex Ey.
    split; [apply Hax; assumption | apply Hax; assumption].
  - intros [Hx Hy]. apply Hax in Hx; [| assumption].
    apply Hax in Hy; [| assumption]. congruence.
Qed.

Lemma cell_intervals_witness :
  let g := mkGrid h ∅ in
  let p := mkParticle (mkVector2 (-10) 10) (mkVector2 0 0) 0 0 in
  let c := cellSize g in
  let inCell (k : Z) (x : R) :=
    ((0 < k)%Z ∧ IZR k * c <= x < (IZR k + 1) * c) ∨
    (k = 0%Z ∧ - c < x < c) ∨
    ((k < 0)%Z ∧ (IZR k - 1) * c < x <= IZR k * c) in
  cellKey g p = Some (0, 0)%Z ↔ inCell 0%Z (X (pos p)) ∧ inCell 0%Z (Y (pos p)).
Proof.
  intros g p.
  apply (cell_intervals g p 0 0); [apply h_pos | |];
    unfold minInt, maxInt; lia.
Defined.

(** ** Walls, cap and drag *)

Lemma wallCollisions_rest (q : Particle) :
  density (wallCollisions q) = density q ∧
  pressure (wallCollisions q) = pressure q.
Proof.
  unfold wallCollisions.
  repeat (case_bool_decide; cbn [density pressure setPos setVel]);
    split; reflexivity.
Qed.

(** X6: the wall stage is a projection onto the box
    [5 ≤ x ≤ windowWidth − 5], [5 ≤ y ≤ windowHeight − 5]: its result
    always lies in the box, a particle already in the box is left as it
    is, position and velocity, and so a second application changes
    nothing. *)
Theorem wallCollisions_projection (q : Particle) :
  let inBox (p : Particle) :=
    5 <= X (pos p) <= IZR (windowWidth - 5) ∧
    5 <= Y (pos p) <= IZR (windowHeight - 5) in
  inBox (wallCollisions q) ∧
  (inBox q → wallCollisions q = q) ∧
  wallCollisions (wallCollisions q) = wallCollisions q.
Proof.
  intros inBox.
  assert (Hfix : ∀ p, inBox p → wallCollisions p = p).
  { intros p [[Hx1 Hx2] [Hy1 Hy2]]. unfold wallCollisions.
    change (IZR (windowWidth - 5)) with 795 in *.
    change (IZR (windowHeight - 5)) with 395 in *.
    rewrite (bool_decide_eq_false_2 (X (pos p) < 5)) by lra.
    rewrite (bool_decide_eq_false_2 (X (pos p) > 795)) by lra.
    rewrite (bool_decide_eq_false_2 (Y (pos p) < 5)) by lra.
    rewrite (bool_decide_eq_false_2 (Y (pos p) > 395)) by lra.
    reflexivity. }
  assert (Hin : inBox (wallCollisions q)).
  { unfold inBox.
    change (IZR (windowWidth - 5)) with 795.
    change (IZR (windowHeight - 5)) with 395.
    destruct (wallCollisions_spec q) as (H1 & H2 & H3 & H4 & H5 & H6).
    cbn zeta in *. split.
    - destruct (Rlt_le_dec (X (pos q)) 5) as [Ha | Ha];
        [destruct (H1 Ha); lra |].
      destruct (Rlt_le_dec 795 (X (pos q))) as [Hb | Hb];
        [destruct (H2 Hb); lra |].
      destruct (H3 (conj Ha Hb)); lra.
    - destruct (Rlt_le_dec (Y (pos q)) 5) as [Ha | Ha];
        [destruct (H4 Ha); lra |].
      destruct (Rlt_le_dec 395 (Y (pos q))) as [Hb | Hb];
        [destruct (H5 Hb); lra |].
      destruct (H6 (conj Ha Hb)); lra. }
  split; [exact Hin |]. split; [apply Hfix |]. apply Hfix, Hin.
Qed.

(** ** What a step keeps *)

Lemma wallCollisions_inBox (q : Particle) :
  5 <= X (pos (wallCollisions q)) <= 795 ∧
  5 <= Y (pos (wallCollisions q)) <= 395.
Proof.
  destruct (wallCollisions_spec q) as (H1 & H2 & H3 & H4 & H5 & H6).
  cbn zeta in *. split.
  - destruct (Rlt_le_dec (X (pos q)) 5) as [Ha | Ha];
      [destruct (H1 Ha); lra |].
    destruct (Rlt_le_dec 795 (X (pos q))) as [Hb | Hb];
      [destruct (H2 Hb); lra |].
    destruct (H3 (conj Ha Hb)); lra.
  - destruct (Rlt_le_dec (Y (pos q)) 5) as [Ha | Ha];
      [destruct (H4 Ha); lra |].
    destruct (Rlt_le_dec 395 (Y (pos q))) as [Hb | Hb];
      [destruct (H5 Hb); lra |].
    destruct (H6 (conj Ha Hb)); lra.
Qed.

Lemma Step_box (s : SPHSim) :
  0 < cellSize (grid s) →
  ∃ s', Step s = Some s' ∧
        length (particles s') = length (particles s) ∧
        cellSize (grid s') = cellSize (grid s) ∧
        ∀ p, p ∈ particles s' →
             5 <= X (pos p) <= IZR (windowWidth - 5) ∧
             5 <= Y (pos p) <= IZR (windowHeight - 5) ∧
             Vector2Length (vel p) <= 995.
Proof.
  intros Hc.
  destruct (Step_pipeline s Hc)
    as (g & psd & psf & psi & _ & Hsize & _ & _ & _ & Hstep & Hposd & Hframe &
        Hlen & _ & _ & _ & Hi & _).
  exists (mkSPHSim psi g). split; [exact Hstep |]. split; [| split].
  - simpl. rewrite Hlen, (frame_length psf psd Hframe).
    apply positions_length, Hposd.
  - exact Hsize.
  - simpl. intros p Hp. apply list_elem_of_lookup in Hp as [i Hp].
    destruct (lookup_lt_is_Some_2 psf i) as [p0 Hp0].
    { rewrite <- Hlen. eapply lookup_lt_Some, Hp. }
    destruct (Hi i p0 Hp0) as (q & Hq & Hpi).
    rewrite Hp in Hpi. apply (inj Some) in Hpi. subst p.
    destruct (clampVelocity_spec (wallCollisions (advance p0)))
      as (q' & Hq' & Hpos & _ & _ & Hcap & _).
    rewrite Hq in Hq'. apply (inj Some) in Hq'. subst q'.
    change (IZR (windowWidth - 5)) with 795.
    change (IZR (windowHeight - 5)) with 395.
    change (pos (applyDrag q)) with (pos q). rewrite Hpos.
    destruct (wallCollisions_inBox (advance p0)) as [Hx Hy].
    split; [exact Hx |]. split; [exact Hy |].
    unfold applyDrag; cbn [vel setVel]. rewrite Vector2Length_Scale.
    rewrite Rabs_pos_eq by lra.
    pose proof (Vector2Length_nonneg (vel q)). lra.
Qed.

(** X7: with a positive cell size a step never leaves the model, whatever
    the old grid and the old densities are.  It keeps the number of
    particles and the cell size; afterwards every particle lies in the box
    of the walls and is no faster than [995], the cap times the drag. *)
Theorem Step_keeps_box (s : SPHSim) :
  0 < cellSize (grid s) →
  ∃ s', Step s = Some s' ∧
        length (particles s') = length (particles s) ∧
        cellSize (grid s') = cellSize (grid s) ∧
        ∀ p, p ∈ particles s' →
             5 <= X (pos p) <= IZR (windowWidth - 5) ∧
             5 <= Y (pos p) <= IZR (windowHeight - 5) ∧
             Vector2Length (vel p) <= 995.
Proof. apply Step_box. Qed.

Lemma Step_keeps_box_witness :
  ∃ s', Step NewSPHSim = Some s' ∧
        length (particles s') = length (particles NewSPHSim) ∧
        cellSize (grid s') = cellSize (grid NewSPHSim) ∧
        ∀ p, p ∈ particles s' →
             5 <= X (pos p) <= IZR (windowWidth - 5) ∧
             5 <= Y (pos p) <= IZR (windowHeight - 5) ∧
             Vector2Length (vel p) <= 995.
Proof. apply (Step_keeps_box NewSPHSim). apply h_pos. Defined.

Lemma frame_positions (l1 l2 : list Particle) :
  frame <$> l1 = frame <$> l2 → positions l1 = positions l2.
Proof.
  intros E. unfold positions.
  change pos with ((λ f : Vector2 * R * R, f.1.1) ∘ frame).
  rewrite !list_fmap_compose, E. reflexivity.
Qed.

Lemma positions_lookup_Some (l1 l2 : list Particle) (j : nat) (q : Particle) :
  positions l1 = positions l2 → l1 !! j = Some q →
  ∃ q', l2 !! j = Some q' ∧ pos q' = pos q.
Proof.
  intros E Hq.
  assert (H : positions l2 !! j = Some (pos q))
    by (rewrite <- E, positions_lookup, Hq; reflexivity).
  rewrite positions_lookup in H.
  destruct (l2 !! j) as [q' |]; [| discriminate].
  exists q'. split; [reflexivity |]. simpl in H. congruence.
Qed.

(** X8: a particle that has no other particle at a distance [0 < r ≤ h]
    accelerates by gravity alone, in whatever simulation: the force pass
    leaves its position and its horizontal velocity and adds
    [gravity · timeStep] to its vertical velocity.  A particle at the very
    same position counts as none: at [r = 0] the pass skips the pair. *)
Theorem isolated_particle_falls (s : SPHSim) (i : nat) (p : Particle) :
  0 < cellSize (grid s) →
  particles s !! i = Some p →
  (∀ j q, j ≠ i → particles s !! j = Some q →
          ¬ 0 < Vector2Length (Vector2Subtract (pos p) (pos q)) <= h) →
  ∃ g psd psf a,
    Insert (grid s) (particles s) = Some g ∧
    computeDensities (mkSPHSim (particles s) g) = Some (mkSPHSim psd g) ∧
    computeForces (mkSPHSim psd g) = Some (mkSPHSim psf g) ∧
    psf !! i = Some a ∧
    pos a = pos p ∧
    X (vel a) = X (vel p) ∧
    Y (vel a) = Y (vel p) + gravity * timeStep.
Proof.
  intros Hc Hp Hiso.
  destruct (Step_pipeline s Hc)
    as (g & psd & psf & psi & Hins & _ & Hden & Hfor & _ & _ & Hposd & Hframe &
        _ & Hd & _ & Hf & _ & _).
  destruct (Hd i p Hp) as (ids0 & _ & _ & Hpd).
  set (pd := withDensity p _) in Hpd.
  destruct (Hf i pd Hpd) as (ids & Hn & Ha).
  rewrite acceleration_isolated in Ha.
  - eexists g, psd, psf, _. repeat (split; [eassumption |]).
    cbn [pos vel setVel pd withDensity Vector2Add Vector2Scale X Y].
    split; [reflexivity |]. split; ring.
  - intros j pj _ Hpj.
    destruct (decide (j = i)) as [E | Hne]; [left; exact E | right].
    assert (Epos : positions (take i psf ++ drop i psd) = positions (particles s)).
    { rewrite positions_mixed by (apply frame_positions, Hframe). exact Hposd. }
    destruct (positions_lookup_Some _ _ j pj Epos Hpj) as (q & Hq & Eq).
    change (pos pd) with (pos p). rewrite <- Eq. apply (Hiso j q Hne Hq).
Qed.

Lemma isolated_particle_falls_witness :
  let p := mkParticle (mkVector2 200 50) (mkVector2 3 4) 0 0 in
  let s := mkSPHSim [p; p] (mkGrid h ∅) in
  ∃ g psd psf a,
    Insert (grid s) (particles s) = Some g ∧
    computeDensities (mkSPHSim (particles s) g) = Some (mkSPHSim psd g) ∧
    computeForces (mkSPHSim psd g) = Some (mkSPHSim psf g) ∧
    psf !! 1%nat = Some a ∧
    pos a = pos p ∧
    X (vel a) = X (vel p) ∧
    Y (vel a) = Y (vel p) + gravity * timeStep.
Proof.
  intros p s. apply (isolated_particle_falls s 1 p).
  - apply h_pos.
  - reflexivity.
  - intros j q _ Hq.
    assert (Eq : q = p).
    { destruct j as [| [| j]]; simpl in Hq;
        [injection Hq as <-; reflexivity | injection Hq as <-; reflexivity
        | discriminate]. }
    rewrite Eq, Vector2Length_self. lra.
Defined.

(** X9: the densities and pressures a step leaves are those of the
    positions from before the step.  The force pass and the integration
    copy them unchanged, the old values play no part, and the grid the
    step leaves is the rebuild for the old positions too: after a step,
    density, pressure and grid are one integration behind the positions. *)
Theorem Step_density_lags (s : SPHSim) :
  0 < cellSize (grid s) →
  ∃ g s',
    Insert (grid s) (particles s) = Some g ∧
    Step s = Some s' ∧ grid s' = g ∧
    ∀ i p, particles s !! i = Some p →
      ∃ ids a,
        Nearby g p = Some ids ∧
        particles s' !! i = Some a ∧
        density a = densitySum (positions (particles s)) (pos p) ids ∧
        pressure a = gasConstant * (density a - restDensity).
Proof.
  intros Hc.
  destruct (Step_pipeline s Hc)
    as (g & psd & psf & psi & Hins & _ & _ & _ & _ & Hstep & _ & _ &
        _ & Hd & _ & Hf & Hi & _).
  exists g, (mkSPHSim psi g).
  split; [exact Hins |]. split; [exact Hstep |]. split; [reflexivity |].
  intros i p Hp. destruct (Hd i p Hp) as (ids & Hn & _ & Hpd).
  set (pd := withDensity p _) in Hpd.
  destruct (Hf i pd Hpd) as (ids' & _ & Hpf).
  set (pf := setVel _ pd) in Hpf.
  destruct (Hi i pf Hpf) as (q & Hq & Hpi).
  destruct (clampVelocity_spec (wallCollisions (advance pf)))
    as (q' & Hq' & _ & Hdq & Hpq & _).
  rewrite Hq in Hq'. apply (inj Some) in Hq'. subst q'.
  destruct (wallCollisions_rest (advance pf)) as [Hdw Hpw].
  exists ids, (applyDrag q).
  split; [exact Hn |]. split; [exact Hpi |].
  change (density (applyDrag q)) with (density q).
  change (pressure (applyDrag q)) with (pressure q).
  rewrite Hdq, Hpq, Hdw, Hpw. split; reflexivity.
Qed.

Lemma Step_density_lags_witness :
  ∃ g s',
    Insert (grid NewSPHSim) (particles NewSPHSim) = Some g ∧
    Step NewSPHSim = Some s' ∧ grid s' = g ∧
    ∀ i p, particles NewSPHSim !! i = Some p →
      ∃ ids a,
        Nearby g p = Some ids ∧
        particles s' !! i = Some a ∧
        density a = densitySum (positions (particles NewSPHSim)) (pos p) ids ∧
        pressure a = gasConstant * (density a - restDensity).
Proof. apply (Step_density_lags NewSPHSim). apply h_pos. Defined.

(** ** Kinetic energy *)

Lemma TotalKineticEnergy_foldl (ps : list Particle) :
  ∀ acc,
    foldl (λ total p, let v := Vector2Length (vel p) in
                      total + 0.5 * mass * (v * v)) acc ps
    = acc + 0.5 * mass
            * sumR ((λ p, X (vel p) * X (vel p) + Y (vel p) * Y (vel p)) <$> ps).
Proof.
  induction ps as [| p ps IH]; intros acc; cbn [foldl fmap list_fmap sumR foldr].
  - ring.
  - rewrite IH. cbn zeta. unfold Vector2Length.
    rewrite sqrt_sqrt by nra. unfold sumR. ring.
Qed.

(** X10: the kinetic energy is [½ · mass · Σ (vx² + vy²)], the square
    root of the length cancels; it is never negative, it is zero exactly
    when every particle is at rest, and after a step it is at most
    [½ · mass · 995²] for each particle. *)
Theorem TotalKineticEnergy_spec (s : SPHSim) :
  TotalKineticEnergy s
  = 0.5 * mass
    * sumR ((λ p, X (vel p) * X (vel p) + Y (vel p) * Y (vel p)) <$> particles s) ∧
  0 <= TotalKineticEnergy s ∧
  (TotalKineticEnergy s = 0 ↔ ∀ p, p ∈ particles s → vel p = Vector2Zero) ∧
  (0 < cellSize (grid s) →
   ∃ s', Step s = Some s' ∧
         TotalKineticEnergy s'
         <= 0.5 * mass * (995 * 995) * INR (length (particles s))).
Proof.
  assert (Hform : ∀ s, TotalKineticEnergy s
    = 0.5 * mass
      * sumR ((λ p, X (vel p) * X (vel p) + Y (vel p) * Y (vel p)) <$> particles s)).
  { intros s0. unfold TotalKineticEnergy.
    rewrite TotalKineticEnergy_foldl. ring. }
  assert (Hsq : ∀ p : Particle,
             0 <= X (vel p) * X (vel p) + Y (vel p) * Y (vel p)) by (intros; nra).
  assert (Hnn : ∀ ps : list Particle,
    0 <= sumR ((λ p, X (vel p) * X (vel p) + Y (vel p) * Y (vel p)) <$> ps)).
  { intros ps. apply sumR_nonneg. intros x Hx.
    apply list_elem_of_fmap in Hx as (p & -> & _). apply Hsq. }
  split; [apply Hform |]. split; [| split].
  - rewrite Hform. unfold mass. specialize (Hnn (particles s)). nra.
  - rewrite Hform. generalize (particles s) as ps. intros ps. split.
    + intros E p Hp.
      assert (Hs : sumR ((λ p, X (vel p) * X (vel p) + Y (vel p) * Y (vel p))
                           <$> ps) = 0)
        by (unfold mass in E; specialize (Hnn ps); nra).
      assert (Hle : X (vel p) * X (vel p) + Y (vel p) * Y (vel p) <= 0).
      { rewrite <- Hs. apply sumR_ge_elem.
        - intros x Hx. apply list_elem_of_fmap in Hx as (p' & -> & _). apply Hsq.
        - apply list_elem_of_fmap. exists p. split; [reflexivity | exact Hp]. }
      apply Vector2_eq; simpl; nra.
    + intros Hz. rewrite sumR_zero; [ring |].
      intros x Hx. apply list_elem_of_fmap in Hx as (p & -> & Hp).
      rewrite (Hz p Hp). simpl. ring.
  - intros Hc. destruct (Step_box s Hc) as (s' & Hstep & Hlen & _ & Hb).
    exists s'. split; [exact Hstep |].
    rewrite Hform, <- Hlen.
    assert (Hsum : ∀ ps : list Particle,
      (∀ p, p ∈ ps → Vector2Length (vel p) <= 995) →
      sumR ((λ p, X (vel p) * X (vel p) + Y (vel p) * Y (vel p)) <$> ps)
      <= 995 * 995 * INR (length ps)).
    { induction ps as [| p ps IH]; intros Hps.
      - simpl. lra.
      - rewrite fmap_cons. cbn [sumR foldr]. fold (sumR
          ((λ p, X (vel p) * X (vel p) + Y (vel p) * Y (vel p)) <$> ps)).
        change (length (p :: ps)) with (S (length ps)). rewrite S_INR.
        assert (IH' := IH (λ q Hq, Hps q (list_elem_of_further q p ps Hq))).
        pose proof (Hps p (list_elem_of_here p ps)) as Hv.
        pose proof (Vector2Length_nonneg (vel p)) as Hv0.
        assert (Hvv : X (vel p) * X (vel p) + Y (vel p) * Y (vel p)
                      = Vector2Length (vel p) * Vector2Length (vel p))
          by (unfold Vector2Length; rewrite sqrt_sqrt by nra; reflexivity).
        rewrite Hvv. nra. }
    specialize (Hsum (particles s') (λ p Hp, proj2 (proj2 (Hb p Hp)))).
    unfold mass. nra.
Qed.

(** ** Edge cases of a step *)

(** X11: a step on no particles only clears the grid, and divides by
    nothing, even with a cell size of zero; with a cell size of zero and
    at least one particle, the key of the first particle divides by
    zero. *)
Theorem Step_edge_cases (g : Grid) (ps : list Particle) :
  Step (mkSPHSim [] g) = Some (mkSPHSim [] (Clear g)) ∧
  (cellSize g = 0 → ps ≠ [] → Step (mkSPHSim ps g) = None).
Proof.
  split; [reflexivity |].
  intros Hc Hps. destruct ps as [| p ps]; [contradiction |].
  unfold Step, Insert; cbn [grid particles insertFrom].
  unfold insertAt, cellKey. cbn [cellSize Clear]. rewrite Hc, !fdiv_None.
  reflexivity.
Qed.

(** ** The initial state *)

(** One row of the lattice: the inner loop of [NewSPHSim]. *)
Lemma placeRow_lookup (cols : nat) (spacing : R) (y : nat) (m : nat) :
  ∀ (ps : list Particle) (i : nat),
    foldl (λ ps x, placeAt cols spacing y x ps) ps (seq 0 m) !! i
    = if decide (y * cols ≤ i < y * cols + m)%nat
      then setPos (mkVector2 (200 + INR (i - y * cols) * spacing)
                     (50 + INR y * spacing)) <$> ps !! i
      else ps !! i.
Proof.
  induction m as [| m IH]; intros ps i.
  - simpl. rewrite decide_False by lia. reflexivity.
  - rewrite seq_S, foldl_snoc. cbn [Nat.add].
    set (ps' := foldl _ ps (seq 0 m)).
    assert (IHi : ∀ j, ps' !! j
      = if decide (y * cols ≤ j < y * cols + m)%nat
        then setPos (mkVector2 (200 + INR (j - y * cols) * spacing)
                       (50 + INR y * spacing)) <$> ps !! j
        else ps !! j) by (intros j; apply IH).
    unfold placeAt. cbn zeta.
    destruct (ps' !! (y * cols + m)%nat) as [p |] eqn:Ep.
    + destruct (decide (i = y * cols + m)%nat) as [-> | Hne].
      * rewrite list_lookup_insert_eq by (eapply lookup_lt_Some, Ep).
        rewrite decide_True by lia.
        rewrite IHi, decide_False in Ep by lia. rewrite Ep. simpl.
        replace (y * cols + m - y * cols)%nat with m by lia. reflexivity.
      * rewrite list_lookup_insert_ne by lia. rewrite IHi.
        destruct (decide (y * cols ≤ i < y * cols + m)%nat).
        -- rewrite decide_True by lia. reflexivity.
        -- rewrite decide_False by lia. reflexivity.
    + rewrite IHi.
      destruct (decide (i = y * cols + m)%nat) as [-> | Hne].
      * rewrite decide_False by lia. rewrite decide_True by lia.
        rewrite IHi, decide_False in Ep by lia. rewrite Ep. reflexivity.
      * destruct (decide (y * cols ≤ i < y * cols + m)%nat).
        -- rewrite decide_True by lia. reflexivity.
        -- rewrite decide_False by lia. reflexivity.
Qed.

(** The rows one after the other: the outer loop of [NewSPHSim]. *)
Lemma placeRows_lookup (cols : nat) (spacing : R) (rows : nat) :
  (0 < cols)%nat →
  ∀ (ps : list Particle) (i : nat),
    foldl (λ ps y, foldl (λ ps x, placeAt cols spacing y x ps) ps (seq 0 cols))
      ps (seq 0 rows) !! i
    = if decide (i < rows * cols)%nat
      then setPos (mkVector2 (200 + INR (i mod cols) * spacing)
                     (50 + INR (i / cols) * spacing)) <$> ps !! i
      else ps !! i.
Proof.
  intros Hcols. induction rows as [| r IH]; intros ps i.
  - simpl. reflexivity.
  - rewrite seq_S, foldl_snoc. cbn [Nat.add].
    rewrite placeRow_lookup, IH.
    destruct (decide (r * cols ≤ i < r * cols + cols)%nat) as [Hr | Hr].
    + rewrite decide_False by lia. rewrite decide_True by lia.
      assert (Ediv : (i / cols = r)%nat)
        by (symmetry; apply (Nat.div_unique i cols r (i - r * cols)); lia).
      assert (Emod : (i mod cols = i - r * cols)%nat)
        by (symmetry; apply (Nat.mod_unique i cols r (i - r * cols)); lia).
      rewrite Ediv, Emod. reflexivity.
    + destruct (decide (i < r * cols)%nat).
      * rewrite decide_True by lia. reflexivity.
      * rewrite decide_False by lia. reflexivity.
Qed.

Lemma NewSPHSim_lookup (i : nat) :
  particles NewSPHSim !! i
  = if decide (i < 31 * 31)%nat
    then setPos (mkVector2 (200 + INR (i mod 31) * 10)
                   (50 + INR (i / 31) * 10))
           <$> replicate particleCount zeroParticle !! i
    else replicate particleCount zeroParticle !! i.
Proof.
  unfold NewSPHSim. cbn zeta. cbn [particles].
  rewrite NewSPHSim_cols. apply placeRows_lookup. lia.
Qed.

Lemma NewSPHSim_length : length (particles NewSPHSim) = particleCount.
Proof.
  assert (H1 : particles NewSPHSim !! 999%nat = Some zeroParticle).
  { rewrite NewSPHSim_lookup, decide_False by lia.
    apply lookup_replicate_2. unfold particleCount. lia. }
  assert (H2 : particles NewSPHSim !! 1000%nat = None).
  { rewrite NewSPHSim_lookup, decide_False by lia.
    apply lookup_replicate_None. unfold particleCount. lia. }
  apply lookup_lt_Some in H1. apply lookup_ge_None in H2.
  unfold particleCount. lia.
Qed.

(** X12: the initial state.  [NewSPHSim] makes [1000] particles at rest,
    with no density or pressure yet, and an empty grid of cell size [h].
    The first [961] stand on a lattice of [31] by [31], particle
    [31·y + x] at [(200 + 10·x, 50 + 10·y)]; the loop never reaches the
    end of the slice, and the last [39] particles stay at the origin,
    all at one point and outside the walls. *)
Theorem NewSPHSim_layout :
  length (particles NewSPHSim) = particleCount ∧
  grid NewSPHSim = mkGrid h ∅ ∧
  (∀ x y, (x < 31)%nat → (y < 31)%nat →
          particles NewSPHSim !! (y * 31 + x)%nat
          = Some (mkParticle (mkVector2 (200 + INR x * 10) (50 + INR y * 10))
                    Vector2Zero 0 0)) ∧
  (∀ i, (961 ≤ i < 1000)%nat → particles NewSPHSim !! i = Some zeroParticle).
Proof.
  split; [apply NewSPHSim_length | split; [reflexivity | split]].
  - intros x y Hx Hy. rewrite NewSPHSim_lookup, decide_True by lia.
    rewrite lookup_replicate_2 by (unfold particleCount; lia).
    assert (Ediv : ((y * 31 + x) / 31 = y)%nat)
      by (symmetry; apply (Nat.div_unique (y * 31 + x) 31 y x); lia).
    assert (Emod : ((y * 31 + x) mod 31 = x)%nat)
      by (symmetry; apply (Nat.mod_unique (y * 31 + x) 31 y x); lia).
    rewrite Ediv, Emod. reflexivity.
  - intros i Hi. rewrite NewSPHSim_lookup, decide_False by lia.
    apply lookup_replicate_2. unfold particleCount. lia.
Qed.

(** ** The grid carries nothing from one step to the next *)

Lemma forEach_ext {A B : Type} (f g : B → A → option A) (xs : list B) :
  (∀ x a, f x a = g x a) → ∀ a, forEach f xs a = forEach g xs a.
Proof.
  intros Hfg. induction xs as [| x xs IH]; intros a; cbn [forEach];
    [reflexivity |].
  rewrite Hfg. destruct (g x a) as [a' |]; cbn [mbind option_bind];
    [apply IH | reflexivity].
Qed.

Lemma Nearby_ext (g1 g2 : Grid) (p : Particle) :
  cellSize g1 = cellSize g2 →
  (∀ k, bucket (cells g1) k = bucket (cells g2) k) →
  Nearby g1 p = Nearby g2 p.
Proof.
  intros Hc Hb. unfold Nearby, cellKey. rewrite Hc.
  destruct (fdiv (X (pos p)) (cellSize g2)) as [kx |]; [| reflexivity].
  destruct (fdiv (Y (pos p)) (cellSize g2)) as [ky |]; [| reflexivity].
  cbn [mbind option_bind]. f_equal. unfold offsets.
  cbn [mbind list_bind foldr fmap list_fmap mjoin list_join app fst snd].
  rewrite !Hb. reflexivity.
Qed.

Lemma insertFrom_ext (ps : list Particle) :
  ∀ (i : nat) (g1 g2 : Grid),
    cellSize g1 = cellSize g2 →
    (∀ k, bucket (cells g1) k = bucket (cells g2) k) →
    match insertFrom i ps g1, insertFrom i ps g2 with
    | Some a, Some b =>
        cellSize a = cellSize b ∧ ∀ k, bucket (cells a) k = bucket (cells b) k
    | None, None => True
    | _, _ => False
    end.
Proof.
  induction ps as [| p ps IH]; intros i g1 g2 Hc Hb; cbn [insertFrom].
  - split; assumption.
  - unfold insertAt, cellKey. rewrite Hc.
    destruct (fdiv (X (pos p)) (cellSize g2)) as [kx |]; [| exact I].
    destruct (fdiv (Y (pos p)) (cellSize g2)) as [ky |]; [| exact I].
    cbn [mbind option_bind]. apply IH; cbn [cellSize cells]; [reflexivity |].
    intros k. rewrite !bucket_insert, !Hb. reflexivity.
Qed.

(** X13: what a step does to the particles does not depend on what the
    grid held before: [Insert] clears every bucket first, so two
    simulations with the same particles and the same cell size take the
    same step, whatever their grids hold, also where the step leaves the
    model. *)
Theorem Step_ignores_old_cells (ps : list Particle) (c : R)
    (m1 m2 : gmap (Z * Z) (list nat)) :
  particles <$> Step (mkSPHSim ps (mkGrid c m1))
  = particles <$> Step (mkSPHSim ps (mkGrid c m2)).
Proof.
  unfold Step, Insert. cbn [grid particles].
  pose proof (insertFrom_ext ps 0 (Clear (mkGrid c m1)) (Clear (mkGrid c m2))
                eq_refl) as Hins.
  destruct (insertFrom 0 ps (Clear (mkGrid c m1))) as [g1 |],
           (insertFrom 0 ps (Clear (mkGrid c m2))) as [g2 |];
    try (exfalso; apply Hins; intros k; rewrite !bucket_Clear; reflexivity);
    [| reflexivity].
  destruct Hins as [Hc Hb]; [intros k; rewrite !bucket_Clear; reflexivity |].
  cbn [mbind option_bind].
  assert (Hn : ∀ p, Nearby g1 p = Nearby g2 p)
    by (intros p; apply Nearby_ext; assumption).
  assert (Hd : ∀ i cur, densityAt g1 i cur = densityAt g2 i cur).
  { intros i cur. unfold densityAt.
    destruct (cur !! i) as [p |]; [| reflexivity]. cbn [mbind option_bind].
    destruct (<[i:=setDensity 0 p]> cur !! i) as [p' |]; [| reflexivity].
    cbn [mbind option_bind]. rewrite Hn. reflexivity. }
  assert (Hf : ∀ i cur, forceAt g1 i cur = forceAt g2 i cur).
  { intros i cur. unfold forceAt.
    destruct (cur !! i) as [p |]; [| reflexivity]. cbn [mbind option_bind].
    rewrite Hn. reflexivity. }
  unfold computeDensities. cbn [grid particles].
  rewrite (forEach_ext (densityAt g1) (densityAt g2) _ Hd).
  destruct (forEach (densityAt g2) (seq 0 (length ps)) ps) as [psd |];
    [| reflexivity].
  cbn [mbind option_bind]. unfold computeForces. cbn [grid particles].
  rewrite (forEach_ext (forceAt g1) (forceAt g2) _ Hf).
  destruct (forEach (forceAt g2) (seq 0 (length psd)) psd) as [psf |];
    [| reflexivity].
  cbn [mbind option_bind]. unfold integrate. cbn [grid particles].
  destruct (forEach integrateAt (seq 0 (length psf)) psf) as [psi |];
    reflexivity.
Qed.

(** ** How large a density can get *)

Lemma sumR_le_length (l : list R) (b : R) :
  (∀ x, x ∈ l → x <= b) → sumR l <= INR (length l) * b.
Proof.
  induction l as [| x l IH]; intros Hl.
  - simpl. lra.
  - cbn [sumR foldr]. fold (sumR l).
    change (length (x :: l)) with (S (length l)). rewrite S_INR.
    pose proof (Hl x (list_elem_of_here x l)) as Hx.
    assert (IH' := IH (λ y Hy, Hl y (list_elem_of_further y x l Hy))).
    lra.
Qed.

Lemma densitySum_le (xs : list Vector2) (x : Vector2) (ids : list nat) :
  densitySum xs x ids <= INR (length ids) * (mass * poly6_formula 0 h).
Proof.
  unfold densitySum.
  rewrite <- (length_fmap (densityTerm xs x) ids).
  apply sumR_le_length. intros t Ht.
  apply list_elem_of_fmap in Ht as (j & -> & _).
  unfold densityTerm. destruct (xs !! j) as [y |]; simpl.
  - apply Rmult_le_compat_l; [unfold mass; lra |].
    apply poly6_formula_le_zero, h_pos.
  - apply Rlt_le, self_density_pos.
Qed.

Lemma self_density_small : mass * poly6_formula 0 h < 1 / 12.
Proof.
  pose proof PI2_3_2 as Hpi. pose proof self_density_pos as Hpos.
  assert (E : mass * poly6_formula 0 h * (PI * 262144) = 63000).
  { unfold poly6_formula. rewrite decide_True by (unfold h; lra).
    unfold mass, h. field. lra. }
  nra.
Qed.

(** X14: the density of a particle after the density pass lies between
    one self-contribution [mass · poly6(0, h)] and as many of them as
    there are particles.  One self-contribution is less than [1/12], so in
    a simulation of at most [12000] particles, the [1000] of the program
    among them, no density reaches [restDensity] and every pressure is
    negative. *)
Theorem pressure_negative (s : SPHSim) :
  0 < cellSize (grid s) →
  (Z.of_nat (length (particles s)) <= 12000)%Z →
  ∃ g psd w0,
    Insert (grid s) (particles s) = Some g ∧
    computeDensities (mkSPHSim (particles s) g) = Some (mkSPHSim psd g) ∧
    poly6 0 h = Some w0 ∧ mass * w0 < 1 / 12 ∧
    ∀ p, p ∈ psd →
         mass * w0 <= density p <= INR (length (particles s)) * (mass * w0) ∧
         density p < restDensity ∧
         pressure p < 0.
Proof.
  intros Hc Hn.
  destruct (Step_pipeline s Hc)
    as (g & psd & psf & psi & Hins & _ & Hden & _ & _ & _ & Hposd & _ &
        _ & Hd & Hlow & _ & _ & _).
  exists g, psd, (poly6_formula 0 h).
  split; [exact Hins |]. split; [exact Hden |].
  split; [apply poly6_formula_eq, h_pos |].
  pose proof self_density_small as Hsmall. pose proof self_density_pos as Hpos.
  split; [exact Hsmall |].
  intros p Hp. apply list_elem_of_lookup in Hp as [i Hp].
  destruct (lookup_lt_is_Some_2 (particles s) i) as [p0 Hp0].
  { rewrite <- (positions_length psd (particles s) Hposd).
    eapply lookup_lt_Some, Hp. }
  destruct (Hd i p0 Hp0) as (ids & Hnb & _ & Hpd).
  assert (Hlen : (length ids ≤ length (particles s))%nat).
  { destruct (Nearby_Insert_NoDup (grid s) (particles s)) as (g' & Hins' & Hall);
      [lra |].
    rewrite Hins in Hins'. apply (inj Some) in Hins'. subst g'.
    destruct (Hall p0) as (ids' & Hnb' & _ & _ & Hle).
    rewrite Hnb in Hnb'. apply (inj Some) in Hnb'. subst ids'. exact Hle. }
  assert (Hup : density p
                <= INR (length (particles s)) * (mass * poly6_formula 0 h)).
  { rewrite Hp in Hpd. apply (inj Some) in Hpd. subst p. cbn [density withDensity].
    eapply Rle_trans; [apply densitySum_le |].
    apply Rmult_le_compat_r; [lra | apply le_INR, Hlen]. }
  pose proof (Hlow i p Hp) as Hlo.
  assert (HN : INR (length (particles s)) <= 12000).
  { rewrite INR_IZR_INZ. apply IZR_le in Hn. exact Hn. }
  assert (H0 : 0 <= INR (length (particles s))) by apply pos_INR.
  assert (Hrest : density p < restDensity) by (unfold restDensity; nra).
  split; [split; assumption |]. split; [exact Hrest |].
  assert (Epr : pressure p = gasConstant * (density p - restDensity)).
  { rewrite Hp in Hpd. apply (inj Some) in Hpd. subst p. reflexivity. }
  rewrite Epr. unfold gasConstant, restDensity in *. lra.
Qed.

Lemma pressure_negative_witness :
  ∃ g psd w0,
    Insert (grid NewSPHSim) (particles NewSPHSim) = Some g ∧
    computeDensities (mkSPHSim (particles NewSPHSim) g) = Some (mkSPHSim psd g) ∧
    poly6 0 h = Some w0 ∧ mass * w0 < 1 / 12 ∧
    ∀ p, p ∈ psd →
         mass * w0 <= density p
                   <= INR (length (particles NewSPHSim)) * (mass * w0) ∧
         density p < restDensity ∧
         pressure p < 0.
Proof.
  apply (pressure_negative NewSPHSim); [apply h_pos |].
  rewrite NewSPHSim_length. unfold particleCount. lia.
Defined.

(** ** The speed cap keeps the direction *)

(** X15: the speed cap never leaves the model and never turns a velocity:
    its result is the old velocity times a factor in [(0, 1]], which is
    [1] for a speed of at most [1000] and [1000 / speed] above; the
    position is kept, and capping twice is capping once. *)
Theorem clampVelocity_direction (p : Particle) :
  ∃ q k, clampVelocity p = Some q ∧
         0 < k <= 1 ∧
         vel q = Vector2Scale (vel p) k ∧
         pos q = pos p ∧
         (Vector2Length (vel p) <= 1000 → k = 1 ∧ q = p) ∧
         (Vector2Length (vel p) > 1000 → k = 1000 / Vector2Length (vel p)) ∧
         clampVelocity q = Some q.
Proof.
  destruct (clampVelocity_spec p)
    as (q & Hq & Hpos & _ & _ & Hcap & Hslow & Hfast).
  assert (Hidem : clampVelocity q = Some q).
  { destruct (clampVelocity_spec q) as (q' & Hq' & _ & _ & _ & _ & Hs & _).
    rewrite Hq'. f_equal. apply Hs, Hcap. }
  destruct (Rle_lt_dec (Vector2Length (vel p)) 1000) as [Hle | Hgt].
  - exists q, 1. rewrite (Hslow Hle) in *.
    split; [exact Hq |]. split; [lra |].
    split; [apply Vector2_eq; simpl; ring |]. split; [reflexivity |].
    split; [intros _; split; reflexivity |]. split; [intros; lra | exact Hidem].
  - exists q, (1000 / Vector2Length (vel p)).
    split; [exact Hq |]. split.
    { split; [apply Rdiv_lt_0_compat; lra |].
      apply (Rmult_le_reg_r (Vector2Length (vel p))); [lra |].
      unfold Rdiv. rewrite Rmult_assoc, Rinv_l by lra. lra. }
    split.
    { rewrite (Hfast Hgt). apply Vector2_eq; simpl; field; lra. }
    split; [exact Hpos |]. split; [intros; lra |].
    split; [reflexivity | exact Hidem].
Qed.

(** * The cellular water simulator

    The second program of the repository, [cmd/gridSim/main.go]: a grid of
    droplets with a volume and a hydrostatic pressure.  The same
    idealisation applies: [float64] is the reals, and indexing a slice out
    of range leaves the model. *)

Module GridSim.

Record Droplet : Type := mkDroplet {
  volume : R;
  size : Z;
  isObstacle : bool;
  vx : R;
  vy : R;
  pressure : R
}.

(** Field assignments [d.f = v]. *)
Definition setVolume (v : R) (d : Droplet) : Droplet :=
  mkDroplet v (size d) (isObstacle d) (vx d) (vy d) (pressure d).
Definition setPressure (q : R) (d : Droplet) : Droplet :=
  mkDroplet (volume d) (size d) (isObstacle d) (vx d) (vy d) q.

(** A state [[][]Droplet]: rows by [y], cells of a row by [x]. *)
Abbreviation Droplets := (list (list Droplet)).

(** A read [state[y][x]]. *)
Definition cell (st : Droplets) (y x : nat) : option Droplet :=
  row ← st !! y; row !! x.

(** A write through the pointer [&state[y][x]]: [f] is what the
    assignment does to the droplet it finds there. *)
Definition update (f : Droplet → Droplet) (y x : nat) (st : Droplets) : Droplets :=
  alter (alter f x) y st.

Definition remainder (droplet : Droplet) (maxVolume : R) : R :=
  maxVolume - volume droplet.

(** [fill(current, target, maxVolume, flowRate)]; the two pointers are the
    cells [current] and [target] of the state, each a pair [(y, x)].  The
    pointers are taken first, then the body runs: it reads the target,
    writes the source, and writes the target as it then is. *)
Definition fill (current target : nat * nat) (maxVolume flowRate : R)
    (st : Droplets) : option Droplets :=
  _ ← cell st current.1 current.2;
  tgt ← cell st target.1 target.2;
  let transfer := remainder tgt maxVolume in
  let transfer := if bool_decide (transfer > flowRate) then flowRate else transfer in
  let st := update (λ d, setVolume (volume d - transfer) d) current.1 current.2 st in
  Some (update (λ d, setVolume (volume d + transfer) d) target.1 target.2 st).

Definition canFlowDown (x y : nat) (st : Droplets) : option bool :=
  if bool_decide (y + 1 < length st)%nat then
    below ← cell st (y + 1) x;
    if bool_decide (volume below < 1) then
      below ← cell st (y + 1) x;
      Some (negb (isObstacle below))
    else Some false
  else Some false.

(** The body of the inner loop of [computePressures]. *)
Definition pressureAt (y x : nat) (st : Droplets) : option Droplets :=
  d ← cell st y x;
  if isObstacle d then Some (update (setPressure 0) y x st)
  else if bool_decide (y = length st - 1)%nat then
    Some (update (setPressure (volume d)) y x st)
  else
    below ← cell st (y + 1) x;
    if isObstacle below then Some (update (setPressure (volume d)) y x st)
    else Some (update (setPressure (pressure below + volume d)) y x st).

(** The body of the outer loop of [computePressures], at row [y]. *)
Definition pressureRow (y : nat) (st : Droplets) : option Droplets :=
  row ← st !! y;
  forEach (pressureAt y) (seq 0 (length row)) st.

(** The rows are visited from the last to the first. *)
Definition computePressures (st : Droplets) : option Droplets :=
  forEach pressureRow (rev (seq 0 (length st))) st.

Definition dampenPressure (st : Droplets) : Droplets :=
  (λ row : list Droplet,
     (λ d, mkDroplet (volume d) (size d) (isObstacle d)
             (vx d * 0.9) (vy d * 0.9) (pressure d * 1.1)) <$> row) <$> st.

(** [tryDiagonalFlow]: the cell below and to the right, then the cell
    below and to the left; [x - 1 > 0] is the source's test. *)
Definition tryDiagonalFlow (x y : nat) (st : Droplets) : option Droplets :=
  _ ← cell st y x;
  row ← st !! y;
  st ← (if bool_decide (x + 1 < length row)%nat
           && bool_decide (y + 1 < length st)%nat then
          r ← cell st (y + 1) (x + 1);
          if bool_decide (volume r < 1) && negb (isObstacle r)
          then fill (y, x) (y + 1, x + 1)%nat 1 0.25 st
          else Some st
        else Some st);
  if bool_decide (Z.of_nat x - 1 > 0)%Z
     && bool_decide (y + 1 < length st)%nat then
    l ← cell st (y + 1) (x - 1);
    if bool_decide (volume l < 1) && negb (isObstacle l)
    then fill (y, x) (y + 1, x - 1)%nat 1 0.25 st
    else Some st
  else Some st.

Definition setVx (v : R) (d : Droplet) : Droplet :=
  mkDroplet (volume d) (size d) (isObstacle d) v (vy d) (pressure d).
Definition setVy (v : R) (d : Droplet) : Droplet :=
  mkDroplet (volume d) (size d) (isObstacle d) (vx d) v (pressure d).

(** A loop [for offset := 1; offset <= 3 && cond; offset++ { body }], the
    offsets [1, 2, 3] given as a list: it ends at the first offset for
    which [cond] fails. *)
Fixpoint cascade (cond : nat → Droplets → option bool)
    (body : nat → Droplets → option Droplets) (offsets : list nat)
    (st : Droplets) : option Droplets :=
  match offsets with
  | [] => Some st
  | offset :: rest =>
      continue ← cond offset st;
      if continue : bool then
        st' ← body offset st; cascade cond body rest st'
      else Some st
  end.

(** The body of both loops of [tryHorizontalFlow]: from the cell [(y, x)]
    to the cell [(y, tx)], [offset] columns away. *)
Definition flowTo (x y tx offset : nat) (st : Droplets) : option Droplets :=
  target ← cell st y tx;
  current ← cell st y x;
  if bool_decide (volume target < volume current) && negb (isObstacle target)
  then
    flowRate ← fdiv ((volume current - volume target) * 0.1) (INR offset);
    fill (y, x) (y, tx) 1 flowRate st
  else Some st.

Definition tryHorizontalFlow (x y : nat) (st : Droplets) : option Droplets :=
  _ ← cell st y x;
  hasWaterBelow ←
    (if bool_decide (y + 1 < length st)%nat then
       below ← cell st (y + 1) x; Some (bool_decide (volume below > 0.5))
     else Some false);
  if negb hasWaterBelow then Some st
  else
    st ← cascade
           (λ offset st,
              row ← st !! y; Some (bool_decide (x + offset < length row)%nat))
           (λ offset, flowTo x y (x + offset) offset) [1; 2; 3]%nat st;
    cascade
      (λ offset _, Some (bool_decide (Z.of_nat x - Z.of_nat offset >= 0)%Z))
      (λ offset, flowTo x y (x - offset) offset) [1; 2; 3]%nat st.

(** [math.Min(1.0, math.Max(0.0, v))]. *)
Definition clamp01 (v : R) : R := Rmin 1 (Rmax 0 v).

(** Up, down, left, right. *)
Definition directions : list (Z * Z) :=
  [(0, -1); (0, 1); (-1, 0); (1, 0)]%Z.

(** The body of the loop of [applyPressureFlow], for the direction
    [dpos]. *)
Definition pressureFlowTo (x y : nat) (dpos : Z * Z) (st : Droplets)
  : option Droplets :=
  let nx := (Z.of_nat x + dpos.1)%Z in
  let ny := (Z.of_nat y + dpos.2)%Z in
  if bool_decide (ny < 0)%Z || bool_decide (ny >= Z.of_nat (length st))%Z
     || bool_decide (nx < 0)%Z
  then Some st
  else
    row0 ← st !! 0%nat;
    if bool_decide (nx >= Z.of_nat (length row0))%Z then Some st
    else
      neighbor ← cell st (Z.to_nat ny) (Z.to_nat nx);
      if isObstacle neighbor then Some st
      else
        blocked ←
          (if bool_decide (dpos.2 = -1)%Z then
             above ← cell st (y - 1) x; Some (isObstacle above)
           else Some false);
        if blocked : bool then Some st
        else
          current ← cell st y x;
          let pressureDiff :=
            (pressure current + volume current)
            - (pressure neighbor + volume neighbor) in
          let dy := IZR (Z.of_nat y - ny) in
          if bool_decide (pressureDiff > 0) then
            let flow := 0.05 * pressureDiff in
            let flow :=
              if bool_decide (flow > volume current) then volume current
              else flow in
            let flow := if bool_decide (dy = 0) then flow * 0.7 else flow in
            if bool_decide (pressureDiff >= 0.0001) then Some st
            else
              let st :=
                update (λ d, setVolume (volume d - flow) d) y x st in
              let st :=
                update (λ d, setVolume (volume d + flow) d)
                  (Z.to_nat ny) (Z.to_nat nx) st in
              let st :=
                update (λ d, setVolume (clamp01 (volume d)) d) y x st in
              let st :=
                update (λ d, setVolume (clamp01 (volume d)) d)
                  (Z.to_nat ny) (Z.to_nat nx) st in
              let dvx := IZR (nx - Z.of_nat x) in
              let dvy := IZR (ny - Z.of_nat y) in
              let st := update (λ d, setVx (vx d + dvx * flow * 0.1) d) y x st in
              Some (update (λ d, setVy (vy d + dvy * flow * 0.1) d) y x st)
          else Some st.

Definition applyPressureFlow (x y : nat) (st : Droplets) : option Droplets :=
  current ← cell st y x;
  if isObstacle current || bool_decide (volume current <= 0) then Some st
  else forEach (pressureFlowTo x y) directions st.

Definition processWaterCell (x y : nat) (st : Droplets) : option Droplets :=
  st ← (if bool_decide (y + 1 < length st)%nat then
          below ← cell st (y + 1) x;
          if negb (isObstacle below)
          then fill (y, x) (y + 1, x)%nat 1 0.5 st
          else Some st
        else Some st);
  down ← canFlowDown x y st;
  if down : bool then Some st
  else
    st ← tryHorizontalFlow x y st;
    current ← cell st y x;
    st ← (if bool_decide (volume current > 0) then tryDiagonalFlow x y st
          else Some st);
    applyPressureFlow x y st.

(** [make] refuses a negative length; [w] is only used when there is a
    row to make. *)
Definition CreateGameState (w h ts : Z) : option Droplets :=
  if bool_decide (h < 0)%Z then None
  else if bool_decide (0 < h)%Z && bool_decide (w < 0)%Z then None
  else Some (replicate (Z.to_nat h)
               (replicate (Z.to_nat w) (mkDroplet 0 ts false 0 0 0))).

Record Game : Type := mkGame {
  Width : Z;
  Height : Z;
  State : Droplets;
  tileSize : Z
}.

(** The integer division panics on a zero divisor, and rounds toward
    zero. *)
Definition NewGame (w h ts : Z) : option Game :=
  if bool_decide (ts = 0)%Z then None
  else
    st ← CreateGameState (wrap (w ÷ ts)) (wrap (h ÷ ts)) ts;
    Some (mkGame w h st ts).

(** The builtin [copy(dst, src)]: as many elements as both slices have. *)
Definition copy (dst src : list Droplet) : list Droplet :=
  take (length dst) src ++ drop (length src) dst.

(** The body of the inner loop of [Update], at the cell [(y, x)] of the
    old state [old]; [new] is the state being built. *)
Definition visit (old : Droplets) (y x : nat) (new : Droplets)
  : option Droplets :=
  d ← cell old y x;
  if isObstacle d then
    _ ← cell new y x; Some (update (λ _, d) y x new)
  else if bool_decide (volume d > 0) then
    if bool_decide (y + 1 < length old)%nat then processWaterCell x y new
    else Some new
  else Some new.

Definition visitRow (old : Droplets) (y : nat) (new : Droplets)
  : option Droplets :=
  row ← old !! y; forEach (visit old y) (seq 0 (length row)) new.

(** [Update]: the new state starts as a copy of the old one, row by row;
    the pressures are computed and damped; then the cells are visited,
    the rows from the last to the first. *)
Definition Update (g : Game) : option Game :=
  row0 ← State g !! 0%nat;
  newState ← CreateGameState (Z.of_nat (length row0))
                (Z.of_nat (length (State g))) (tileSize g);
  let newState := zip_with copy newState (State g) in
  newState ← computePressures newState;
  let newState := dampenPressure newState in
  newState ← forEach (visitRow (State g)) (rev (seq 0 (length (State g))))
                newState;
  Some (mkGame (Width g) (Height g) newState (tileSize g)).

(** ** Definitions for the statements *)

(** All the water of a state. *)
Definition totalVolume (st : Droplets) : R :=
  sumR ((λ row : list Droplet, sumR (volume <$> row)) <$> st).

(** What [computePressures] makes of a droplet at column [x], over the
    finished row [below], if there is one. *)
Definition newCell (below : option (list Droplet)) (x : nat) (d : Droplet)
  : Droplet :=
  if isObstacle d then setPressure 0 d
  else match below with
       | None => setPressure (volume d) d
       | Some b =>
           match b !! x with
           | Some e => if isObstacle e then setPressure (volume d) d
                       else setPressure (pressure e + volume d) d
           | None => d
           end
       end.

(** [st'] has the rows and columns of [st]. *)
Definition sameShape (st st' : Droplets) : Prop :=
  length st' = length st ∧ ∀ y, length <$> st' !! y = length <$> st !! y.

(** [st'] has the shape of [st], and every droplet of [st] stands in the
    relation [P] to the droplet at its place in [st']. *)
Definition cellwise (P : Droplet → Droplet → Prop) (st st' : Droplets) : Prop :=
  sameShape st st' ∧
  ∀ y x d, cell st y x = Some d → ∃ d', cell st' y x = Some d' ∧ P d d'.

(** Same size and same kind. *)
Definition sameKind (d d' : Droplet) : Prop :=
  size d' = size d ∧ isObstacle d' = isObstacle d.

(** Same size and kind, and an obstacle is untouched. *)
Definition rockFixed (d d' : Droplet) : Prop :=
  sameKind d d' ∧ (isObstacle d = true → d' = d).

(** As [rockFixed], with the pressure kept and a volume that started in
    [[0, 1]] still there and moved by at most [δ]. *)
Definition within (δ : R) (d d' : Droplet) : Prop :=
  rockFixed d d' ∧ pressure d' = pressure d ∧
  (0 <= volume d <= 1 →
   0 <= volume d' <= 1 ∧ Rabs (volume d' - volume d) <= δ).

(** The cell [(y, x)] of a state of width [w] is there, and holds no
    obstacle. *)
Definition openCell (w x y : nat) (st : Droplets) : Prop :=
  Forall (λ row, length row = w) st ∧ (y < length st)%nat ∧ (x < w)%nat ∧
  ∃ c, cell st y x = Some c ∧ isObstacle c = false.

(** The state [new] that [Update] builds from [old], when the cells [Q]
    have been visited: the shape, sizes and kinds of [old], and the
    obstacles at the visited places as they are in [old]. *)
Definition restored (Q : nat → nat → Prop) (old new : Droplets) : Prop :=
  cellwise sameKind old new ∧
  ∀ y x d, Q y x → cell old y x = Some d → isObstacle d = true →
           cell new y x = Some d.

(** The droplet that [dampenPressure] makes of [d]. *)
Definition damp (d : Droplet) : Droplet :=
  mkDroplet (volume d) (size d) (isObstacle d)
    (vx d * 0.9) (vy d * 0.9) (pressure d * 1.1).

(** [st'] has the shape and the total volume of [st], and differs from
    it at most in the cells [A]. *)
Definition conserves (A : nat → nat → Prop) (st st' : Droplets) : Prop :=
  sameShape st st' ∧ totalVolume st' = totalVolume st ∧
  ∀ y x, ¬ A y x → cell st' y x = cell st y x.


(** ** Properties *)

Lemma cell_update (f : Droplet → Droplet) (y x y' x' : nat) (st : Droplets) :
  cell (update f y x st) y' x'
  = if decide (y = y' ∧ x = x') then f <$> cell st y' x' else cell st y' x'.
Proof.
  unfold cell, update. rewrite list_lookup_alter.
  destruct (decide (y = y')) as [-> | Hy].
  - destruct (st !! y') as [row |]; cbn [fmap option_fmap option_map mbind option_bind].
    + rewrite list_lookup_alter.
      destruct (decide (x = x')) as [-> | Hx].
      * rewrite decide_True by auto. reflexivity.
      * rewrite decide_False by (intros [_ E]; contradiction). reflexivity.
    + destruct (decide (y' = y' ∧ x = x')); reflexivity.
  - rewrite decide_False by (intros [E _]; contradiction). reflexivity.
Qed.

Lemma update_shape (f : Droplet → Droplet) (y x : nat) (st : Droplets) :
  length (update f y x st) = length st ∧
  ∀ y', length <$> update f y x st !! y' = length <$> st !! y'.
Proof.
  unfold update. split; [apply length_alter |].
  intros y'. rewrite list_lookup_alter.
  destruct (decide (y = y')) as [<- |]; [| reflexivity].
  destruct (st !! y) as [row |]; simpl; [| reflexivity].
  rewrite length_alter. reflexivity.
Qed.

Lemma rowVolume_alter (f : Droplet → Droplet) (row : list Droplet) :
  ∀ (x : nat) (d : Droplet),
    row !! x = Some d →
    sumR (volume <$> alter f x row)
    = sumR (volume <$> row) + (volume (f d) - volume d).
Proof.
  unfold sumR.
  induction row as [| e row IH]; intros x d Hd; [discriminate |].
  destruct x as [| x].
  - change (alter f 0%nat (e :: row)) with (f e :: row).
    injection Hd as ->. rewrite !fmap_cons. cbn [foldr]. ring.
  - change (alter f (S x) (e :: row)) with (e :: alter f x row).
    rewrite !fmap_cons. cbn [foldr]. rewrite (IH x d Hd). ring.
Qed.

Lemma totalVolume_update (f : Droplet → Droplet) (st : Droplets) :
  ∀ (y x : nat) (d : Droplet),
    cell st y x = Some d →
    totalVolume (update f y x st)
    = totalVolume st + (volume (f d) - volume d).
Proof.
  unfold totalVolume, update, cell.
  induction st as [| row st IH]; intros y x d Hd; [discriminate |].
  destruct y as [| y].
  - change (alter (alter f x) 0%nat (row :: st)) with (alter f x row :: st).
    rewrite !fmap_cons. cbn [sumR foldr].
    rewrite (rowVolume_alter f row x d Hd). ring.
  - change (alter (alter f x) (S y) (row :: st))
      with (row :: alter (alter f x) y st).
    rewrite !fmap_cons. cbn [sumR foldr].
    fold (sumR ((λ row : list Droplet, sumR (volume <$> row))
                  <$> alter (alter f x) y st)).
    fold (sumR ((λ row : list Droplet, sumR (volume <$> row)) <$> st)).
    rewrite (IH y x d Hd). ring.
Qed.

Lemma fill_spec (current target : nat * nat) (maxVolume flowRate : R)
    (st : Droplets) (c t : Droplet) :
  cell st current.1 current.2 = Some c →
  cell st target.1 target.2 = Some t →
  ∃ st',
    fill current target maxVolume flowRate st = Some st' ∧
    totalVolume st' = totalVolume st ∧
    length st' = length st ∧
    (∀ y, length <$> st' !! y = length <$> st !! y) ∧
    (current ≠ target →
     let transfer := Rmin (maxVolume - volume t) flowRate in
     cell st' current.1 current.2 = Some (setVolume (volume c - transfer) c) ∧
     cell st' target.1 target.2 = Some (setVolume (volume t + transfer) t) ∧
     volume t + transfer <= maxVolume ∧
     (volume c < transfer → volume c - transfer < 0) ∧
     ∀ y x, (y, x) ≠ current → (y, x) ≠ target → cell st' y x = cell st y x).
Proof.
  destruct current as [cy cx], target as [ty tx]. cbn [fst snd].
  intros Hc Ht. unfold fill. cbn [fst snd]. rewrite Hc, Ht.
  cbn [mbind option_bind]. unfold remainder.
  set (transfer := if bool_decide (maxVolume - volume t > flowRate)
                   then flowRate else maxVolume - volume t).
  assert (Etr : transfer = Rmin (maxVolume - volume t) flowRate).
  { subst transfer. unfold Rmin.
    case_bool_decide; destruct (Rle_dec (maxVolume - volume t) flowRate); lra. }
  set (st1 := update (λ d, setVolume (volume d - transfer) d) cy cx st).
  eexists. split; [reflexivity |].
  assert (Ht1 : cell st1 ty tx
                = if decide (cy = ty ∧ cx = tx)
                  then Some (setVolume (volume t - transfer) t) else Some t).
  { subst st1. rewrite cell_update, Ht.
    destruct (decide (cy = ty ∧ cx = tx)); reflexivity. }
  split; [| split; [| split; [| intros Hne; cbn zeta; split; [| split; [| split; [| split]]]]]].
  - destruct (decide (cy = ty ∧ cx = tx)) as [[-> ->] | Hne].
    + rewrite (totalVolume_update _ st1 ty tx _ Ht1).
      subst st1. rewrite (totalVolume_update _ st ty tx t Ht).
      cbn [volume setVolume]. ring.
    + rewrite (totalVolume_update _ st1 ty tx _ Ht1).
      subst st1. rewrite (totalVolume_update _ st cy cx c Hc).
      cbn [volume setVolume]. ring.
  - rewrite (proj1 (update_shape _ _ _ _)). subst st1.
    apply (proj1 (update_shape _ _ _ _)).
  - intros y. rewrite (proj2 (update_shape _ _ _ _)). subst st1.
    apply (proj2 (update_shape _ _ _ _)).
  - rewrite cell_update.
    rewrite decide_False by (intros [-> ->]; apply Hne; reflexivity).
    subst st1. rewrite cell_update, decide_True by auto.
    rewrite Hc, <- Etr. reflexivity.
  - rewrite cell_update, decide_True by auto.
    rewrite Ht1, decide_False by (intros [-> ->]; apply Hne; reflexivity).
    rewrite <- Etr. reflexivity.
  - rewrite <- Etr. subst transfer. case_bool_decide; lra.
  - intros Hlt. lra.
  - intros y x Hc' Ht'. rewrite cell_update.
    rewrite decide_False by (intros [-> ->]; apply Ht'; reflexivity).
    subst st1. rewrite cell_update.
    rewrite decide_False by (intros [-> ->]; apply Hc'; reflexivity).
    reflexivity.
Qed.

(** X16: [fill] never makes or loses water: between two cells of the
    state it conserves the total volume, also when the two pointers are
    the same cell; it keeps the shape of the state.  Between two different
    cells it moves [min (maxVolume − target, flowRate)] from the source to
    the target and touches no other cell and no other field; the target
    never ends above [maxVolume]; the source is not looked at, and ends
    negative when it held less than was moved. *)
Theorem fill_conserves (current target : nat * nat) (maxVolume flowRate : R)
    (st : Droplets) (c t : Droplet) :
  cell st current.1 current.2 = Some c →
  cell st target.1 target.2 = Some t →
  ∃ st',
    fill current target maxVolume flowRate st = Some st' ∧
    totalVolume st' = totalVolume st ∧
    length st' = length st ∧
    (∀ y, length <$> st' !! y = length <$> st !! y) ∧
    (current ≠ target →
     let transfer := Rmin (maxVolume - volume t) flowRate in
     cell st' current.1 current.2 = Some (setVolume (volume c - transfer) c) ∧
     cell st' target.1 target.2 = Some (setVolume (volume t + transfer) t) ∧
     volume t + transfer <= maxVolume ∧
     (volume c < transfer → volume c - transfer < 0) ∧
     ∀ y x, (y, x) ≠ current → (y, x) ≠ target → cell st' y x = cell st y x).
Proof. apply fill_spec. Qed.

Lemma fill_conserves_witness :
  let top := mkDroplet 0.2 20 false 0 0 0 in
  let bot := mkDroplet 0.7 20 false 0 0 0 in
  let st := [[top]; [bot]] in
  ∃ st',
    fill (0, 0)%nat (1, 0)%nat 1 0.5 st = Some st' ∧
    totalVolume st' = totalVolume st ∧
    length st' = length st ∧
    (∀ y, length <$> st' !! y = length <$> st !! y) ∧
    ((0, 0)%nat ≠ (1, 0)%nat →
     let transfer := Rmin (1 - volume bot) 0.5 in
     cell st' 0 0 = Some (setVolume (volume top - transfer) top) ∧
     cell st' 1 0 = Some (setVolume (volume bot + transfer) bot) ∧
     volume bot + transfer <= 1 ∧
     (volume top < transfer → volume top - transfer < 0) ∧
     ∀ y x, (y, x) ≠ (0, 0)%nat → (y, x) ≠ (1, 0)%nat →
            cell st' y x = cell st y x).
Proof.
  intros top bot st.
  apply (fill_conserves (0, 0)%nat (1, 0)%nat 1 0.5 st top bot); reflexivity.
Defined.


(** ** Hydrostatic pressure *)

Lemma alter_insert_lookup {A : Type} (f : A → A) (l : list A) (k : nat) (d : A) :
  l !! k = Some d → alter f k l = <[k := f d]> l.
Proof.
  intros Hd. apply list_eq. intros i.
  rewrite list_lookup_alter, list_lookup_insert.
  destruct (decide (k = i)) as [<- | Hne].
  - rewrite Hd. rewrite decide_True; [reflexivity |].
    split; [reflexivity | eapply lookup_lt_Some, Hd].
  - rewrite decide_False by (intros [E _]; contradiction). reflexivity.
Qed.

Lemma update_middle (f : Droplet → Droplet) (top : Droplets) (row : list Droplet)
    (done : Droplets) (k : nat) :
  update f (length top) k (top ++ row :: done) = top ++ alter f k row :: done.
Proof.
  unfold update.
  rewrite <- (Nat.add_0_r (length top)) at 1.
  rewrite alter_app_r. reflexivity.
Qed.

Lemma cell_middle (top : Droplets) (row : list Droplet) (done : Droplets) (k : nat) :
  cell (top ++ row :: done) (length top) k = row !! k.
Proof. unfold cell. rewrite list_lookup_middle by reflexivity. reflexivity. Qed.

Lemma cell_below (top : Droplets) (row : list Droplet) (done : Droplets) (k : nat) :
  cell (top ++ row :: done) (length top + 1) k = head done ≫= (.!! k).
Proof.
  unfold cell. rewrite lookup_app_r by lia.
  replace (length top + 1 - length top)%nat with 1%nat by lia.
  destruct done; reflexivity.
Qed.

Lemma pressureAt_spec (top : Droplets) (rk : list Droplet) (done : Droplets)
    (k : nat) (d : Droplet) :
  rk !! k = Some d →
  (∀ b, head done = Some b → is_Some (b !! k)) →
  pressureAt (length top) k (top ++ rk :: done)
  = Some (top ++ <[k := newCell (head done) k d]> rk :: done).
Proof.
  intros Hd Hb. unfold pressureAt, newCell.
  rewrite cell_middle, Hd. cbn [mbind option_bind].
  rewrite !update_middle, cell_below.
  destruct (isObstacle d).
  { rewrite (alter_insert_lookup _ rk k d Hd). reflexivity. }
  rewrite length_app. cbn [length].
  destruct done as [| b done]; cbn [head].
  - rewrite bool_decide_eq_true_2 by (simpl; lia).
    rewrite (alter_insert_lookup _ rk k d Hd). reflexivity.
  - rewrite bool_decide_eq_false_2 by (simpl; lia).
    cbn [mbind option_bind].
    destruct (Hb b eq_refl) as [e He]. rewrite He. cbn [mbind option_bind].
    destruct (isObstacle e); rewrite ?update_middle;
      rewrite (alter_insert_lookup _ rk k d Hd); reflexivity.
Qed.

Lemma pressureRow_prefix (top : Droplets) (row : list Droplet) (done : Droplets)
    (k : nat) :
  (k ≤ length row)%nat →
  (∀ b, head done = Some b → (length row ≤ length b)%nat) →
  forEach (pressureAt (length top)) (seq 0 k) (top ++ row :: done)
  = Some (top ++ (take k (imap (newCell (head done)) row) ++ drop k row) :: done).
Proof.
  intros Hk Hb. induction k as [| k IH].
  - reflexivity.
  - rewrite seq_S, forEach_app, IH by lia. cbn [mbind option_bind Nat.add forEach].
    destruct (lookup_lt_is_Some_2 row k) as [d Hd]; [lia |].
    set (new := imap (newCell (head done)) row).
    assert (Hnew : new !! k = Some (newCell (head done) k d))
      by (subst new; rewrite list_lookup_imap, Hd; reflexivity).
    assert (Hlen : length (take k new) = k).
    { rewrite length_take. subst new. rewrite length_imap. lia. }
    rewrite (pressureAt_spec top _ done k d).
    + cbn [mbind option_bind]. do 3 f_equal.
      rewrite (drop_S row d k Hd).
      rewrite insert_app_r_alt by lia.
      rewrite Hlen, Nat.sub_diag. cbn [insert list_insert].
      rewrite (take_S_r new k _ Hnew), <- app_assoc. reflexivity.
    + rewrite lookup_app_r by lia.
      rewrite Hlen, Nat.sub_diag, lookup_drop, Nat.add_0_r. exact Hd.
    + intros b Hhd. apply lookup_lt_is_Some_2. specialize (Hb b Hhd). lia.
Qed.

Lemma pressureRow_spec (top : Droplets) (row : list Droplet) (done : Droplets) :
  (∀ b, head done = Some b → (length row ≤ length b)%nat) →
  pressureRow (length top) (top ++ row :: done)
  = Some (top ++ imap (newCell (head done)) row :: done).
Proof.
  intros Hb. unfold pressureRow.
  rewrite list_lookup_middle by reflexivity. cbn [mbind option_bind].
  rewrite (pressureRow_prefix top row done (length row)) by (lia || assumption).
  rewrite take_ge by (rewrite length_imap; lia).
  rewrite drop_all, app_nil_r. reflexivity.
Qed.

(** The rows from the last to the first, each over the finished row below. *)
Lemma computePressures_loop (w : nat) (top : Droplets) :
  ∀ done : Droplets,
    Forall (λ row, length row = w) top →
    Forall (λ row, length row = w) done →
    forEach pressureRow (rev (seq 0 (length top))) (top ++ done)
    = Some (foldr (λ row acc, imap (newCell (head acc)) row :: acc) done top).
Proof.
  induction top as [| row top IH] using rev_ind; intros done Htop Hdone.
  - reflexivity.
  - apply Forall_app in Htop as [Htop Hrow].
    rewrite Forall_singleton in Hrow.
    rewrite length_app. cbn [length]. rewrite Nat.add_1_r, seq_S, rev_unit.
    cbn [forEach Nat.add]. rewrite <- app_assoc. cbn [app].
    rewrite pressureRow_spec.
    + cbn [mbind option_bind].
      rewrite (IH (imap (newCell (head done)) row :: done)); [| exact Htop |].
      * rewrite foldr_app. reflexivity.
      * constructor; [rewrite length_imap; exact Hrow | exact Hdone].
    + intros b Hhd. destruct done as [| b' done]; [discriminate |].
      injection Hhd as ->. apply Forall_cons in Hdone as [Hb _]. lia.
Qed.

Lemma pressures_lookup (st : Droplets) :
  ∀ (y : nat) (row : list Droplet),
    st !! y = Some row →
    foldr (λ row acc, imap (newCell (head acc)) row :: acc) [] st !! y
    = Some (imap (newCell
                    (foldr (λ row acc, imap (newCell (head acc)) row :: acc) [] st
                       !! S y)) row).
Proof.
  induction st as [| r st IH]; intros y row Hrow; [discriminate |].
  cbn [foldr]. destruct y as [| y].
  - injection Hrow as ->. cbn [lookup list_lookup].
    rewrite head_lookup. reflexivity.
  - cbn [lookup list_lookup] in *. apply IH, Hrow.
Qed.

Lemma newCell_fields (below : option (list Droplet)) (x : nat) (d : Droplet) :
  volume (newCell below x d) = volume d ∧
  size (newCell below x d) = size d ∧
  isObstacle (newCell below x d) = isObstacle d ∧
  vx (newCell below x d) = vx d ∧
  vy (newCell below x d) = vy d ∧
  (isObstacle d = true → pressure (newCell below x d) = 0).
Proof.
  unfold newCell. destruct (isObstacle d) eqn:E.
  - repeat split; try reflexivity; try exact E.
  - destruct below as [b |]; [destruct (b !! x) as [e |]; [destruct (isObstacle e) |] |];
      repeat split; try reflexivity; try exact E; intros; discriminate.
Qed.

Lemma computePressures_spec (w : nat) (st : Droplets) :
  Forall (λ row, length row = w) st →
  ∃ st',
    computePressures st = Some st' ∧
    length st' = length st ∧
    ∀ y x d, cell st y x = Some d →
      ∃ d', cell st' y x = Some d' ∧
            volume d' = volume d ∧ size d' = size d ∧
            isObstacle d' = isObstacle d ∧ vx d' = vx d ∧ vy d' = vy d ∧
            pressure d'
            = if isObstacle d then 0
              else volume d + match cell st' (y + 1) x with
                              | Some e => pressure e
                              | None => 0
                              end.
Proof.
  intros Hrect.
  set (st' := foldr (λ row acc, imap (newCell (head acc)) row :: acc) [] st).
  assert (Hlen : length st' = length st).
  { subst st'. clear Hrect. induction st as [| r st IH]; [reflexivity |].
    cbn [foldr length]. rewrite IH. reflexivity. }
  exists st'. split; [| split; [exact Hlen |]].
  - unfold computePressures.
    pose proof (computePressures_loop w st [] Hrect (Forall_nil_2 _)) as Hrun.
    rewrite app_nil_r in Hrun. exact Hrun.
  - intros y x d Hd. unfold cell in Hd.
    destruct (st !! y) as [row |] eqn:Hrow; [| discriminate].
    cbn [mbind option_bind] in Hd.
    pose proof (pressures_lookup st y row Hrow) as Hrow'. fold st' in Hrow'.
    assert (Hcell : cell st' y x = Some (newCell (st' !! S y) x d)).
    { unfold cell. rewrite Hrow'. cbn [mbind option_bind].
      rewrite list_lookup_imap, Hd. reflexivity. }
    exists (newCell (st' !! S y) x d). split; [exact Hcell |].
    destruct (newCell_fields (st' !! S y) x d) as (H1 & H2 & H3 & H4 & H5 & H6).
    repeat (split; [assumption |]).
    destruct (isObstacle d) eqn:Eobs; [apply H6; reflexivity |].
    replace (y + 1)%nat with (S y) by lia.
    unfold cell. unfold newCell. rewrite Eobs.
    destruct (st' !! S y) as [b |] eqn:Hb; cbn [mbind option_bind].
    + (* the row below exists in the old state too, and is as long *)
      assert (Hy1 : is_Some (st !! S y)).
      { apply lookup_lt_is_Some. rewrite <- Hlen.
        eapply lookup_lt_Some, Hb. }
      destruct Hy1 as [rowb Hrowb].
      pose proof (pressures_lookup st (S y) rowb Hrowb) as Hb'. fold st' in Hb'.
      rewrite Hb in Hb'. injection Hb' as ->.
      rewrite Forall_forall in Hrect.
      assert (Hw1 : length row = w)
        by (apply Hrect, list_elem_of_lookup; eauto).
      assert (Hw2 : length rowb = w)
        by (apply Hrect, list_elem_of_lookup; eauto).
      destruct (lookup_lt_is_Some_2 rowb x) as [e0 He0].
      { rewrite Hw2, <- Hw1. eapply lookup_lt_Some, Hd. }
      rewrite list_lookup_imap, He0. cbn [fmap option_fmap option_map].
      destruct (newCell_fields (st' !! S (S y)) x e0) as (_ & _ & E3 & _ & _ & E6).
      destruct (isObstacle (newCell (st' !! S (S y)) x e0)) eqn:Eo.
      * rewrite E6 by congruence. cbn [pressure setPressure]. ring.
      * cbn [pressure setPressure]. ring.
    + cbn [pressure setPressure]. ring.
Qed.

(** X17: on a rectangular state [computePressures] never indexes out of
    range.  It changes nothing but the pressures, and leaves them
    hydrostatic: an obstacle has pressure [0]; any other cell has its own
    volume plus the pressure of the cell below it, which is that cell's
    new pressure, [0] for an obstacle, and nothing in the last row. *)
Theorem computePressures_hydrostatic (w : nat) (st : Droplets) :
  Forall (λ row, length row = w) st →
  ∃ st',
    computePressures st = Some st' ∧
    length st' = length st ∧
    ∀ y x d, cell st y x = Some d →
      ∃ d', cell st' y x = Some d' ∧
            volume d' = volume d ∧ size d' = size d ∧
            isObstacle d' = isObstacle d ∧ vx d' = vx d ∧ vy d' = vy d ∧
            pressure d'
            = if isObstacle d then 0
              else volume d + match cell st' (y + 1) x with
                              | Some e => pressure e
                              | None => 0
                              end.
Proof. apply computePressures_spec. Qed.

Lemma computePressures_hydrostatic_witness :
  let water := mkDroplet 0.5 20 false 0 0 7 in
  let rock := mkDroplet 0 20 true 0 0 7 in
  let st := [[water; water]; [water; rock]] in
  ∃ st',
    computePressures st = Some st' ∧
    length st' = length st ∧
    ∀ y x d, cell st y x = Some d →
      ∃ d', cell st' y x = Some d' ∧
            volume d' = volume d ∧ size d' = size d ∧
            isObstacle d' = isObstacle d ∧ vx d' = vx d ∧ vy d' = vy d ∧
            pressure d'
            = if isObstacle d then 0
              else volume d + match cell st' (y + 1) x with
                              | Some e => pressure e
                              | None => 0
                              end.
Proof.
  intros water rock st.
  apply (computePressures_hydrostatic 2 st).
  repeat constructor.
Defined.


(** ** Diagonal flow *)

(** X18: on a rectangular state [tryDiagonalFlow] never indexes out of
    range; it conserves the total volume and the shape, and touches at
    most the cell itself and the two cells diagonally below it.  The left
    one is only tried for [x − 1 > 0]: from columns [0] and [1] nothing
    flows down to the left, and no cell of column [0] ever receives
    water. *)
Theorem tryDiagonalFlow_spec (w x y : nat) (st : Droplets) :
  Forall (λ row, length row = w) st →
  (y < length st)%nat → (x < w)%nat →
  ∃ st',
    tryDiagonalFlow x y st = Some st' ∧
    totalVolume st' = totalVolume st ∧
    length st' = length st ∧
    (∀ y', length <$> st' !! y' = length <$> st !! y') ∧
    (∀ y' x', (y', x') ≠ (y, x) → (y', x') ≠ (y + 1, x + 1)%nat →
              (y', x') ≠ (y + 1, x - 1)%nat → cell st' y' x' = cell st y' x') ∧
    ((x ≤ 1)%nat → ∀ y' x', (y', x') ≠ (y, x) → (y', x') ≠ (y + 1, x + 1)%nat →
                            cell st' y' x' = cell st y' x') ∧
    (∀ y', (y', 0%nat) ≠ (y, x) → cell st' y' 0 = cell st y' 0).
Proof.
  intros Hrect Hy Hx.
  assert (Hcell : ∀ (s : Droplets) y0 x0,
            length s = length st →
            (∀ y', length <$> s !! y' = length <$> st !! y') →
            (y0 < length st)%nat → (x0 < w)%nat → is_Some (cell s y0 x0)).
  { intros s y0 x0 Hl Hrows Hy0 Hx0. unfold cell.
    destruct (lookup_lt_is_Some_2 st y0 Hy0) as [r0 Hr0].
    specialize (Hrows y0). rewrite Hr0 in Hrows.
    destruct (s !! y0) as [r |]; [| discriminate].
    cbn [mbind option_bind]. apply lookup_lt_is_Some.
    injection Hrows as ->. rewrite Forall_forall in Hrect.
    rewrite (Hrect r0); [exact Hx0 |]. apply list_elem_of_lookup. eauto. }
  destruct (Hcell st y x eq_refl (λ _, eq_refl) Hy Hx) as [c Hc].
  destruct (lookup_lt_is_Some_2 st y Hy) as [row Hrow].
  assert (Hw : length row = w).
  { rewrite Forall_forall in Hrect. apply Hrect, list_elem_of_lookup. eauto. }
  unfold tryDiagonalFlow. rewrite Hc, Hrow. cbn [mbind option_bind].
  (* the first flow, down and to the right *)
  assert (H1 : ∃ st1,
    (if bool_decide (x + 1 < length row)%nat
        && bool_decide (y + 1 < length st)%nat then
       r ← cell st (y + 1) (x + 1);
       if bool_decide (volume r < 1) && negb (isObstacle r)
       then fill (y, x) (y + 1, x + 1)%nat 1 0.25 st
       else Some st
     else Some st) = Some st1 ∧
    totalVolume st1 = totalVolume st ∧ length st1 = length st ∧
    (∀ y', length <$> st1 !! y' = length <$> st !! y') ∧
    (∀ y' x', (y', x') ≠ (y, x) → (y', x') ≠ (y + 1, x + 1)%nat →
              cell st1 y' x' = cell st y' x')).
  { destruct (bool_decide_reflect (x + 1 < length row)%nat) as [Hx1 | Hx1];
      destruct (bool_decide_reflect (y + 1 < length st)%nat) as [Hy1 | Hy1];
      cbn [andb]; try (exists st; repeat split; reflexivity).
    destruct (Hcell st (y + 1)%nat (x + 1)%nat eq_refl (λ _, eq_refl) Hy1)
      as [r Hr]; [lia |].
    rewrite Hr. cbn [mbind option_bind].
    destruct (bool_decide (volume r < 1) && negb (isObstacle r));
      [| exists st; repeat split; reflexivity].
    destruct (fill_spec (y, x) (y + 1, x + 1)%nat 1 0.25 st c r Hc Hr)
      as (st1 & Hf & Hv & Hl & Hs & Hne).
    exists st1. repeat (split; [assumption |]).
    intros y' x' N1 N2.
    destruct Hne as (_ & _ & _ & _ & Hsame);
      [intros E; injection E; lia | apply Hsame; assumption]. }
  destruct H1 as (st1 & -> & Hv1 & Hl1 & Hs1 & Hsame1).
  cbn [mbind option_bind]. rewrite Hl1.
  destruct (bool_decide_reflect (Z.of_nat x - 1 > 0)%Z) as [Hx2 | Hx2];
    destruct (bool_decide_reflect (y + 1 < length st)%nat) as [Hy2 | Hy2];
    cbn [andb].
  2, 3, 4: exists st1; split; [reflexivity |];
    repeat (split; [assumption |]);
    (split; [intros; apply Hsame1; assumption |]);
    (split; [intros; apply Hsame1; assumption |]);
    intros y' N; apply Hsame1; [exact N | intros E; injection E; lia].
  destruct (Hcell st1 (y + 1)%nat (x - 1)%nat Hl1 Hs1 Hy2) as [l Hl]; [lia |].
  rewrite Hl. cbn [mbind option_bind].
  destruct (bool_decide (volume l < 1) && negb (isObstacle l)).
  2: { exists st1; split; [reflexivity |];
       repeat (split; [assumption |]).
       split; [intros; apply Hsame1; assumption |].
       split; [intros; apply Hsame1; assumption |].
       intros y' N; apply Hsame1; [exact N | intros E; injection E; lia]. }
  destruct (Hcell st1 y x Hl1 Hs1 Hy Hx) as [c1 Hc1].
  destruct (fill_spec (y, x) (y + 1, x - 1)%nat 1 0.25 st1 c1 l Hc1 Hl)
    as (st2 & Hf & Hv & Hl2 & Hs2 & Hne).
  destruct Hne as (_ & _ & _ & _ & Hsame2); [intros E; injection E; lia |].
  exists st2. split; [exact Hf |].
  split; [congruence |]. split; [congruence |].
  split; [intros y'; rewrite Hs2; apply Hs1 |].
  split; [| split].
  - intros y' x' N1 N2 N3. rewrite Hsame2 by assumption.
    apply Hsame1; assumption.
  - intros Hle. lia.
  - intros y' N. rewrite Hsame2; [| exact N | intros E; injection E; lia].
    apply Hsame1; [exact N | intros E; injection E; lia].
Qed.

Lemma tryDiagonalFlow_spec_witness :
  let water := mkDroplet 0.5 20 false 0 0 0 in
  let st := [[water; water]; [water; water]] in
  ∃ st',
    tryDiagonalFlow 1 0 st = Some st' ∧
    totalVolume st' = totalVolume st ∧
    length st' = length st ∧
    (∀ y', length <$> st' !! y' = length <$> st !! y') ∧
    (∀ y' x', (y', x') ≠ (0, 1)%nat → (y', x') ≠ (0 + 1, 1 + 1)%nat →
              (y', x') ≠ (0 + 1, 1 - 1)%nat → cell st' y' x' = cell st y' x') ∧
    ((1 ≤ 1)%nat → ∀ y' x', (y', x') ≠ (0, 1)%nat →
                            (y', x') ≠ (0 + 1, 1 + 1)%nat →
                            cell st' y' x' = cell st y' x') ∧
    (∀ y', (y', 0%nat) ≠ (0, 1)%nat → cell st' y' 0 = cell st y' 0).
Proof.
  intros water st.
  apply (tryDiagonalFlow_spec 2 1 0 st); [repeat constructor | simpl; lia | lia].
Defined.


(** ** Shapes and cell-wise relations *)

Lemma sameShape_refl (st : Droplets) : sameShape st st.
Proof. split; reflexivity. Qed.

Lemma sameShape_trans (st1 st2 st3 : Droplets) :
  sameShape st1 st2 → sameShape st2 st3 → sameShape st1 st3.
Proof.
  intros [L1 R1] [L2 R2]. split; [congruence |].
  intros y. rewrite R2. apply R1.
Qed.

Lemma sameShape_update (f : Droplet → Droplet) (y x : nat) (st : Droplets) :
  sameShape st (update f y x st).
Proof. apply update_shape. Qed.

Lemma sameShape_rect (w : nat) (st st' : Droplets) :
  sameShape st st' →
  Forall (λ row, length row = w) st → Forall (λ row, length row = w) st'.
Proof.
  intros [_ Hs] Hrect. rewrite Forall_lookup in Hrect |- *.
  intros i row' Hrow'. specialize (Hs i). rewrite Hrow' in Hs.
  destruct (st !! i) as [row |] eqn:Hrow; [| discriminate].
  injection Hs as ->. apply (Hrect i row Hrow).
Qed.

Lemma cell_rect (w : nat) (st : Droplets) (y x : nat) :
  Forall (λ row, length row = w) st →
  (y < length st)%nat → (x < w)%nat → is_Some (cell st y x).
Proof.
  intros Hrect Hy Hx. unfold cell.
  destruct (lookup_lt_is_Some_2 st y Hy) as [row Hrow]. rewrite Hrow.
  cbn [mbind option_bind]. apply lookup_lt_is_Some.
  rewrite Forall_lookup in Hrect. rewrite (Hrect y row Hrow). exact Hx.
Qed.

Lemma cell_Some_lt (w : nat) (st : Droplets) (y x : nat) (d : Droplet) :
  Forall (λ row, length row = w) st →
  cell st y x = Some d → (y < length st)%nat ∧ (x < w)%nat.
Proof.
  intros Hrect Hd. unfold cell in Hd.
  destruct (st !! y) as [row |] eqn:Hrow; [| discriminate].
  cbn [mbind option_bind] in Hd. rewrite Forall_lookup in Hrect.
  split; [eapply lookup_lt_Some, Hrow |].
  rewrite <- (Hrect y row Hrow). eapply lookup_lt_Some, Hd.
Qed.

Lemma row_rect (w : nat) (st : Droplets) (y : nat) :
  Forall (λ row, length row = w) st → (y < length st)%nat →
  ∃ row, st !! y = Some row ∧ length row = w.
Proof.
  intros Hrect Hy. destruct (lookup_lt_is_Some_2 st y Hy) as [row Hrow].
  exists row. split; [exact Hrow |].
  rewrite Forall_lookup in Hrect. apply (Hrect y row Hrow).
Qed.

Lemma cellwise_refl (P : Droplet → Droplet → Prop) (st : Droplets) :
  (∀ d, P d d) → cellwise P st st.
Proof. intros HP. split; [apply sameShape_refl | eauto]. Qed.

Lemma cellwise_trans (P Q T : Droplet → Droplet → Prop) (st1 st2 st3 : Droplets) :
  (∀ a b c, P a b → Q b c → T a c) →
  cellwise P st1 st2 → cellwise Q st2 st3 → cellwise T st1 st3.
Proof.
  intros HT [S1 C1] [S2 C2]. split; [eapply sameShape_trans; eassumption |].
  intros y x d Hd. destruct (C1 y x d Hd) as (d1 & Hd1 & P1).
  destruct (C2 y x d1 Hd1) as (d2 & Hd2 & P2). eauto.
Qed.

Lemma cellwise_weaken (P Q : Droplet → Droplet → Prop) (st st' : Droplets) :
  (∀ a b, P a b → Q a b) → cellwise P st st' → cellwise Q st st'.
Proof.
  intros HPQ [S C]. split; [exact S |].
  intros y x d Hd. destruct (C y x d Hd) as (d' & Hd' & HP). eauto.
Qed.

Lemma cellwise_update (P : Droplet → Droplet → Prop) (f : Droplet → Droplet)
    (y x : nat) (st : Droplets) :
  (∀ d, P d d) → (∀ d, cell st y x = Some d → P d (f d)) →
  cellwise P st (update f y x st).
Proof.
  intros Hrefl Hf. split; [apply sameShape_update |].
  intros y' x' d Hd. rewrite cell_update.
  destruct (decide (y = y' ∧ x = x')) as [[-> ->] | Hne].
  - rewrite Hd. exists (f d). split; [reflexivity | apply Hf, Hd].
  - exists d. split; [exact Hd | apply Hrefl].
Qed.

Lemma rockFixed_refl (d : Droplet) : rockFixed d d.
Proof. repeat split. Qed.

Lemma rockFixed_trans (a b c : Droplet) :
  rockFixed a b → rockFixed b c → rockFixed a c.
Proof.
  intros [[S1 K1] F1] [[S2 K2] F2]. repeat split; [congruence | congruence |].
  intros Ha. rewrite <- (F1 Ha). apply F2. congruence.
Qed.

Lemma within_refl (δ : R) (d : Droplet) : 0 <= δ → within δ d d.
Proof.
  intros Hδ. split; [apply rockFixed_refl |]. split; [reflexivity |].
  intros Hv. split; [exact Hv |].
  rewrite Rminus_diag, Rabs_R0. exact Hδ.
Qed.

Lemma within_trans (δ1 δ2 : R) (a b c : Droplet) :
  within δ1 a b → within δ2 b c → within (δ1 + δ2) a c.
Proof.
  intros (F1 & P1 & V1) (F2 & P2 & V2).
  split; [eapply rockFixed_trans; eassumption |]. split; [congruence |].
  intros Ha. destruct (V1 Ha) as [Hb D1]. destruct (V2 Hb) as [Hc D2].
  split; [exact Hc |].
  replace (volume c - volume a)
    with ((volume c - volume b) + (volume b - volume a)) by ring.
  eapply Rle_trans; [apply Rabs_triang | lra].
Qed.

Lemma within_rockFixed (δ : R) (a b : Droplet) : within δ a b → rockFixed a b.
Proof. intros [F _]. exact F. Qed.

Lemma update_rockFixed (f : Droplet → Droplet) (y x : nat) (st : Droplets) :
  (∀ d, sameKind d (f d)) →
  (∀ d, cell st y x = Some d → isObstacle d = false) →
  cellwise rockFixed st (update f y x st).
Proof.
  intros Hf Hopen. apply cellwise_update; [apply rockFixed_refl |].
  intros d Hd. split; [apply Hf |].
  intros Hrock. rewrite (Hopen d Hd) in Hrock. discriminate.
Qed.

Lemma openCell_step (w x y : nat) (st st' : Droplets) :
  openCell w x y st → cellwise rockFixed st st' → openCell w x y st'.
Proof.
  intros (Hrect & Hy & Hx & c & Hc & Hopen) [Hs Hcells].
  split; [eapply sameShape_rect; eassumption |].
  split; [rewrite (proj1 Hs); exact Hy |]. split; [exact Hx |].
  destruct (Hcells y x c Hc) as (c' & Hc' & [[_ K] _]).
  exists c'. split; [exact Hc' | congruence].
Qed.

Lemma openCell_cell (w x y : nat) (st : Droplets) (y' x' : nat) :
  openCell w x y st → (y' < length st)%nat → (x' < w)%nat →
  is_Some (cell st y' x').
Proof. intros (Hrect & _) Hy Hx. eapply cell_rect; eassumption. Qed.

(** ** The flows keep the obstacles *)

Lemma fill_rockFixed (current target : nat * nat) (maxVolume flowRate : R)
    (st : Droplets) (c t : Droplet) :
  cell st current.1 current.2 = Some c →
  cell st target.1 target.2 = Some t →
  isObstacle c = false → isObstacle t = false →
  ∃ st', fill current target maxVolume flowRate st = Some st' ∧
         cellwise rockFixed st st'.
Proof.
  destruct current as [cy cx], target as [ty tx]. cbn [fst snd].
  intros Hc Ht Oc Ot. unfold fill. cbn [fst snd]. rewrite Hc, Ht.
  cbn [mbind option_bind]. cbn zeta. unfold remainder.
  set (transfer := if bool_decide (maxVolume - volume t > flowRate)
                   then flowRate else maxVolume - volume t).
  set (st1 := update (λ d, setVolume (volume d - transfer) d) cy cx st).
  eexists. split; [reflexivity |].
  apply (cellwise_trans rockFixed rockFixed rockFixed st st1 _ rockFixed_trans).
  - apply update_rockFixed; [intros d; split; reflexivity |].
    intros d Hd. congruence.
  - apply update_rockFixed; [intros d; split; reflexivity |].
    intros d. subst st1. rewrite cell_update, Ht.
    destruct (decide (cy = ty ∧ cx = tx)); intros [= <-]; exact Ot.
Qed.

Lemma flowTo_rockFixed (w x y tx offset : nat) (st : Droplets) :
  openCell w x y st → (tx < w)%nat → offset ≠ 0%nat →
  ∃ st', flowTo x y tx offset st = Some st' ∧ cellwise rockFixed st st'.
Proof.
  intros Hopen Htx Hoff.
  destruct Hopen as (Hrect & Hy & Hx & c & Hc & Oc).
  destruct (cell_rect w st y tx Hrect Hy Htx) as [t Ht].
  unfold flowTo. rewrite Ht, Hc. cbn [mbind option_bind].
  destruct (isObstacle t) eqn:Ot.
  { rewrite andb_false_r. exists st.
    split; [reflexivity | apply cellwise_refl, rockFixed_refl]. }
  destruct (bool_decide (volume t < volume c)); cbn [andb negb].
  2: { exists st. split; [reflexivity | apply cellwise_refl, rockFixed_refl]. }
  rewrite fdiv_Some by (apply not_0_INR; exact Hoff).
  cbn [mbind option_bind].
  apply (fill_rockFixed (y, x) (y, tx) _ _ st c t); assumption.
Qed.

(** A cascade keeps what each of its steps keeps. *)
Lemma cascade_inv (Pre : Droplets → Prop) (Rel : Droplets → Droplets → Prop)
    (cond : nat → Droplets → option bool)
    (body : nat → Droplets → option Droplets) (offsets : list nat) :
  (∀ s, Rel s s) → (∀ a b c, Rel a b → Rel b c → Rel a c) →
  (∀ s s', Pre s → Rel s s' → Pre s') →
  (∀ o s, o ∈ offsets → Pre s →
          ∃ b, cond o s = Some b ∧
               (b = true → ∃ s', body o s = Some s' ∧ Rel s s')) →
  ∀ st, Pre st → ∃ st', cascade cond body offsets st = Some st' ∧ Rel st st'.
Proof.
  intros Hrefl Htrans Hpre.
  induction offsets as [| o rest IH]; intros Hstep st Hst.
  - exists st. split; [reflexivity | apply Hrefl].
  - cbn [cascade].
    destruct (Hstep o st) as (b & -> & Hb); [left | exact Hst |].
    cbn [mbind option_bind]. destruct b.
    + destruct (Hb eq_refl) as (s1 & -> & K1). cbn [mbind option_bind].
      destruct (IH (λ o' s Ho', Hstep o' s (list_elem_of_further _ _ _ Ho')) s1)
        as (s2 & -> & K2); [eapply Hpre; eassumption |].
      exists s2. split; [reflexivity | eapply Htrans; eassumption].
    + exists st. split; [reflexivity | apply Hrefl].
Qed.

Lemma cascade_rockFixed (w x y : nat) (cond : nat → Droplets → option bool)
    (body : nat → Droplets → option Droplets) (offsets : list nat) :
  (∀ o s, o ∈ offsets → openCell w x y s →
          ∃ b, cond o s = Some b ∧
               (b = true → ∃ s', body o s = Some s' ∧ cellwise rockFixed s s')) →
  ∀ st, openCell w x y st →
        ∃ st', cascade cond body offsets st = Some st' ∧
               cellwise rockFixed st st'.
Proof.
  apply cascade_inv.
  - intros s. apply cellwise_refl, rockFixed_refl.
  - intros a b c. apply cellwise_trans, rockFixed_trans.
  - apply openCell_step.
Qed.

Lemma tryHorizontalFlow_rockFixed (w x y : nat) (st : Droplets) :
  openCell w x y st →
  ∃ st', tryHorizontalFlow x y st = Some st' ∧ cellwise rockFixed st st'.
Proof.
  intros Hopen. pose proof Hopen as (Hrect & Hy & Hx & c & Hc & Oc).
  unfold tryHorizontalFlow. rewrite Hc. cbn [mbind option_bind].
  assert (Hbelow : ∃ b,
    (if bool_decide (y + 1 < length st)%nat then
       below ← cell st (y + 1) x; Some (bool_decide (volume below > 0.5))
     else Some false) = Some b).
  { case_bool_decide as Hy1; [| eauto].
    destruct (cell_rect w st (y + 1) x Hrect Hy1 Hx) as [e He].
    rewrite He. cbn [mbind option_bind]. eauto. }
  destruct Hbelow as [b ->]. cbn [mbind option_bind].
  destruct b; cbn [negb].
  2: { exists st. split; [reflexivity | apply cellwise_refl, rockFixed_refl]. }
  assert (Hoffsets : ∀ o : nat, o ∈ [1; 2; 3]%nat → o ≠ 0%nat).
  { intros o Ho. rewrite !elem_of_cons, elem_of_nil in Ho. lia. }
  destruct (cascade_rockFixed w x y
              (λ offset st,
                 row ← st !! y; Some (bool_decide (x + offset < length row)%nat))
              (λ offset, flowTo x y (x + offset) offset) [1; 2; 3]%nat)
    with (st := st) as (s1 & -> & K1); [| exact Hopen |].
  { intros o s Ho Hs. pose proof Hs as (Hr & Hys & _).
    destruct (row_rect w s y Hr Hys) as (row & -> & Hlen).
    cbn [mbind option_bind]. eexists. split; [reflexivity |].
    intros Hb. apply bool_decide_eq_true in Hb.
    apply (flowTo_rockFixed w); [exact Hs | lia | apply Hoffsets, Ho]. }
  cbn [mbind option_bind].
  destruct (cascade_rockFixed w x y
              (λ offset _, Some (bool_decide (Z.of_nat x - Z.of_nat offset >= 0)%Z))
              (λ offset, flowTo x y (x - offset) offset) [1; 2; 3]%nat)
    with (st := s1) as (s2 & -> & K2);
    [| eapply openCell_step; eassumption |].
  { intros o s Ho Hs. eexists. split; [reflexivity |].
    intros _. apply (flowTo_rockFixed w); [exact Hs | lia | apply Hoffsets, Ho]. }
  exists s2. split; [reflexivity |].
  eapply cellwise_trans; [apply rockFixed_trans | |]; eassumption.
Qed.

Lemma tryDiagonalFlow_rockFixed (w x y : nat) (st : Droplets) :
  openCell w x y st →
  ∃ st', tryDiagonalFlow x y st = Some st' ∧ cellwise rockFixed st st'.
Proof.
  intros Hopen. pose proof Hopen as (Hrect & Hy & Hx & c & Hc & Oc).
  destruct (row_rect w st y Hrect Hy) as (row & Hrow & Hlen).
  unfold tryDiagonalFlow. rewrite Hc, Hrow. cbn [mbind option_bind].
  assert (H1 : ∃ st1,
    (if bool_decide (x + 1 < length row)%nat
        && bool_decide (y + 1 < length st)%nat then
       r ← cell st (y + 1) (x + 1);
       if bool_decide (volume r < 1) && negb (isObstacle r)
       then fill (y, x) (y + 1, x + 1)%nat 1 0.25 st
       else Some st
     else Some st) = Some st1 ∧ cellwise rockFixed st st1).
  { destruct (bool_decide_reflect (x + 1 < length row)%nat) as [Hx1 | Hx1];
      destruct (bool_decide_reflect (y + 1 < length st)%nat) as [Hy1 | Hy1];
      cbn [andb];
      try (exists st; split; [reflexivity | apply cellwise_refl, rockFixed_refl]).
    destruct (cell_rect w st (y + 1) (x + 1) Hrect Hy1) as [r Hr]; [lia |].
    rewrite Hr. cbn [mbind option_bind].
    destruct (isObstacle r) eqn:Or.
    { rewrite andb_false_r. exists st.
      split; [reflexivity | apply cellwise_refl, rockFixed_refl]. }
    destruct (bool_decide (volume r < 1)); cbn [andb negb];
      [| exists st; split; [reflexivity | apply cellwise_refl, rockFixed_refl]].
    apply (fill_rockFixed (y, x) (y + 1, x + 1)%nat _ _ st c r); assumption. }
  destruct H1 as (st1 & -> & K1). cbn [mbind option_bind].
  pose proof (openCell_step w x y st st1 Hopen K1)
    as (Hrect1 & Hy1 & _ & c1 & Hc1 & Oc1).
  assert (H2 : ∃ st2,
    (if bool_decide (Z.of_nat x - 1 > 0)%Z
        && bool_decide (y + 1 < length st1)%nat then
       l ← cell st1 (y + 1) (x - 1);
       if bool_decide (volume l < 1) && negb (isObstacle l)
       then fill (y, x) (y + 1, x - 1)%nat 1 0.25 st1
       else Some st1
     else Some st1) = Some st2 ∧ cellwise rockFixed st1 st2).
  { destruct (bool_decide_reflect (Z.of_nat x - 1 > 0)%Z) as [Hx2 | Hx2];
      destruct (bool_decide_reflect (y + 1 < length st1)%nat) as [Hy2 | Hy2];
      cbn [andb];
      try (exists st1; split; [reflexivity | apply cellwise_refl, rockFixed_refl]).
    destruct (cell_rect w st1 (y + 1) (x - 1) Hrect1 Hy2) as [l Hl]; [lia |].
    rewrite Hl. cbn [mbind option_bind].
    destruct (isObstacle l) eqn:Ol.
    { rewrite andb_false_r. exists st1.
      split; [reflexivity | apply cellwise_refl, rockFixed_refl]. }
    destruct (bool_decide (volume l < 1)); cbn [andb negb];
      [| exists st1; split; [reflexivity | apply cellwise_refl, rockFixed_refl]].
    apply (fill_rockFixed (y, x) (y + 1, x - 1)%nat _ _ st1 c1 l); assumption. }
  destruct H2 as (st2 & -> & K2).
  exists st2. split; [reflexivity |].
  eapply cellwise_trans; [apply rockFixed_trans | |]; eassumption.
Qed.

(** ** Pressure flow *)

Lemma clamp01_spec (v : R) :
  0 <= clamp01 v <= 1 ∧ (0 <= v <= 1 → clamp01 v = v) ∧
  (1 <= v → clamp01 v = 1) ∧ (v <= 0 → clamp01 v = 0).
Proof.
  unfold clamp01, Rmin, Rmax.
  destruct (Rle_dec 0 v); destruct (Rle_dec 1 v); destruct (Rle_dec 1 0);
    repeat split; intros; lra.
Qed.

Ltac fields :=
  unfold setVy, setVx, setVolume;
  cbn [volume size isObstacle pressure vx vy].

Lemma cell_update_same (f : Droplet → Droplet) (y x : nat) (st : Droplets) :
  cell (update f y x st) y x = f <$> cell st y x.
Proof. rewrite cell_update, decide_True by auto. reflexivity. Qed.

Lemma cell_update_other (f : Droplet → Droplet) (y x y' x' : nat)
    (st : Droplets) :
  ¬ (y = y' ∧ x = x') → cell (update f y x st) y' x' = cell st y' x'.
Proof. intros Hne. rewrite cell_update, decide_False by exact Hne. reflexivity. Qed.

Lemma within_refl_small (d : Droplet) : within 0.000005 d d.
Proof. apply within_refl. lra. Qed.

(** One direction of [applyPressureFlow], from a cell that holds no
    negative volume. *)
Lemma pressureFlowTo_within (w x y : nat) (dpos : Z * Z) (st : Droplets)
    (c : Droplet) :
  Forall (λ row, length row = w) st →
  cell st y x = Some c → isObstacle c = false → 0 <= volume c →
  dpos ∈ directions →
  ∃ st', pressureFlowTo x y dpos st = Some st' ∧
         cellwise (within 0.000005) st st' ∧
         ∃ c', cell st' y x = Some c' ∧ isObstacle c' = false ∧
               0 <= volume c'.
Proof.
  intros Hrect Hc Oc Vc Hdir.
  assert (Hsame : ∃ st', Some st = Some st' ∧
            cellwise (within 0.000005) st st' ∧
            ∃ c', cell st' y x = Some c' ∧ isObstacle c' = false ∧
                  0 <= volume c').
  { exists st. split; [reflexivity |].
    split; [apply cellwise_refl, within_refl_small | eauto]. }
  destruct (cell_Some_lt w st y x c Hrect Hc) as [Hy Hx].
  destruct dpos as [dx dy].
  assert (Hd : (dx ≠ 0 ∨ dy ≠ 0)%Z ∧ (-1 <= dx <= 1)%Z ∧ (-1 <= dy <= 1)%Z).
  { unfold directions in Hdir. rewrite !elem_of_cons, elem_of_nil in Hdir.
    destruct Hdir as [E | [E | [E | [E | []]]]]; injection E as -> ->; lia. }
  unfold pressureFlowTo. cbn [fst snd].
  set (nx := (Z.of_nat x + dx)%Z). set (ny := (Z.of_nat y + dy)%Z).
  destruct (bool_decide_reflect (ny < 0)%Z) as [| Hny0]; [exact Hsame |].
  destruct (bool_decide_reflect (ny >= Z.of_nat (length st))%Z) as [| Hny1];
    [exact Hsame |].
  destruct (bool_decide_reflect (nx < 0)%Z) as [| Hnx0]; [exact Hsame |].
  cbn [orb].
  destruct (row_rect w st 0 Hrect) as (row0 & -> & Hlen0); [lia |].
  cbn [mbind option_bind]. rewrite Hlen0.
  destruct (bool_decide_reflect (nx >= Z.of_nat w)%Z) as [| Hnx1];
    [exact Hsame |].
  destruct (cell_rect w st (Z.to_nat ny) (Z.to_nat nx) Hrect) as [n Hn];
    [lia | lia |].
  rewrite Hn. cbn [mbind option_bind].
  destruct (isObstacle n) eqn:On; [exact Hsame |].
  assert (Hblocked : ∃ b,
    (if bool_decide (dy = -1)%Z then
       above ← cell st (y - 1) x; Some (isObstacle above)
     else Some false) = Some b).
  { case_bool_decide; [| eauto].
    destruct (cell_rect w st (y - 1) x Hrect) as [a Ha]; [lia | lia |].
    rewrite Ha. cbn [mbind option_bind]. eauto. }
  destruct Hblocked as [b ->]. cbn [mbind option_bind].
  destruct b; [exact Hsame |].
  rewrite Hc. cbn [mbind option_bind]. cbn zeta.
  set (diff := pressure c + volume c - (pressure n + volume n)).
  destruct (bool_decide_reflect (diff > 0)) as [Hpos |]; [| exact Hsame].
  destruct (bool_decide_reflect (diff >= 0.0001)) as [| Hsmall];
    [exact Hsame |].
  set (flow := if bool_decide (IZR (Z.of_nat y - ny) = 0)
               then (if bool_decide (0.05 * diff > volume c)
                     then volume c else 0.05 * diff) * 0.7
               else (if bool_decide (0.05 * diff > volume c)
                     then volume c else 0.05 * diff)).
  assert (Hflow : 0 <= flow <= volume c ∧ flow <= 0.000005).
  { subst flow. repeat case_bool_decide; lra. }
  destruct Hflow as [Hflow1 Hflow2].
  assert (Hne : ¬ (Z.to_nat ny = y ∧ Z.to_nat nx = x)) by (subst nx ny; lia).
  assert (Hne' : ¬ (y = Z.to_nat ny ∧ x = Z.to_nat nx)) by (subst nx ny; lia).
  eexists. split; [reflexivity |]. split; [split |].
  - repeat (eapply sameShape_trans; [| apply sameShape_update]).
    apply sameShape_refl.
  - intros y' x' d Hd'.
    destruct (decide (y = y' ∧ x = x')) as [[<- <-] | Hcur];
      [| destruct (decide (Z.to_nat ny = y' ∧ Z.to_nat nx = x'))
           as [[<- <-] | Hnb]].
    + repeat (rewrite cell_update_same
              || rewrite cell_update_other by exact Hne).
      rewrite Hd'. cbn [fmap option_fmap option_map].
      eexists. split; [reflexivity |].
      assert (d = c) as -> by congruence.
      split; [split; [split; reflexivity | intros E; congruence] |].
      split; [reflexivity |]. fields. intros Hv.
      rewrite (proj1 (proj2 (clamp01_spec _))) by lra.
      split; [lra |]. unfold Rabs. destruct (Rcase_abs _); lra.
    + repeat (rewrite cell_update_same
              || rewrite cell_update_other by exact Hcur).
      rewrite Hd'. cbn [fmap option_fmap option_map].
      eexists. split; [reflexivity |].
      assert (d = n) as -> by congruence.
      split; [split; [split; reflexivity | intros E; congruence] |].
      split; [reflexivity |]. fields. intros Hv.
      split; [apply clamp01_spec |].
      destruct (Rle_dec 1 (volume n + flow)) as [Hge | Hlt].
      * rewrite (proj1 (proj2 (proj2 (clamp01_spec _)))) by lra.
        unfold Rabs. destruct (Rcase_abs _); lra.
      * rewrite (proj1 (proj2 (clamp01_spec _))) by lra.
        unfold Rabs. destruct (Rcase_abs _); lra.
    + repeat (rewrite cell_update_other by assumption).
      exists d. split; [exact Hd' | apply within_refl_small].
  - repeat (rewrite cell_update_same
            || rewrite cell_update_other by exact Hne).
    rewrite Hc. cbn [fmap option_fmap option_map].
    eexists. split; [reflexivity |]. fields.
    split; [exact Oc | apply clamp01_spec].
Qed.

Lemma pressureLoop_within (w x y : nat) (ds : list (Z * Z)) :
  (∀ d, d ∈ ds → d ∈ directions) →
  ∀ (st : Droplets) (c : Droplet),
    Forall (λ row, length row = w) st →
    cell st y x = Some c → isObstacle c = false → 0 <= volume c →
    ∃ st', forEach (pressureFlowTo x y) ds st = Some st' ∧
           cellwise (within (INR (length ds) * 0.000005)) st st'.
Proof.
  induction ds as [| d ds IH]; intros Hds st c Hrect Hc Oc Vc.
  - exists st. split; [reflexivity |].
    apply cellwise_refl. intros e. apply within_refl. cbn [length INR]. lra.
  - cbn [forEach].
    destruct (pressureFlowTo_within w x y d st c Hrect Hc Oc Vc)
      as (s1 & -> & K1 & c1 & Hc1 & Oc1 & Vc1); [apply Hds; left |].
    cbn [mbind option_bind].
    assert (Hrect1 : Forall (λ row, length row = w) s1)
      by (eapply sameShape_rect; [apply K1 | exact Hrect]).
    destruct (IH (λ e He, Hds e (list_elem_of_further _ _ _ He)) s1 c1
                Hrect1 Hc1 Oc1 Vc1) as (s2 & -> & K2).
    exists s2. split; [reflexivity |].
    eapply cellwise_trans; [| exact K1 | exact K2].
    intros a b e Hab Hbe.
    replace (INR (length (d :: ds)) * 0.000005)
      with (0.000005 + INR (length ds) * 0.000005)
      by (cbn [length]; rewrite S_INR; ring).
    eapply within_trans; eassumption.
Qed.

Lemma applyPressureFlow_within (w x y : nat) (st : Droplets) :
  Forall (λ row, length row = w) st →
  (y < length st)%nat → (x < w)%nat →
  ∃ st', applyPressureFlow x y st = Some st' ∧
         cellwise (within 0.00002) st st'.
Proof.
  intros Hrect Hy Hx.
  destruct (cell_rect w st y x Hrect Hy Hx) as [c Hc].
  unfold applyPressureFlow. rewrite Hc. cbn [mbind option_bind].
  destruct (isObstacle c) eqn:Oc; cbn [orb].
  { exists st. split; [reflexivity |].
    apply cellwise_refl. intros d. apply within_refl. lra. }
  case_bool_decide as Vc.
  { exists st. split; [reflexivity |].
    apply cellwise_refl. intros d. apply within_refl. lra. }
  destruct (pressureLoop_within w x y directions (λ _ H, H) st c Hrect Hc Oc)
    as (st' & -> & K); [lra |].
  exists st'. split; [reflexivity |].
  replace 0.00002 with (INR (length directions) * 0.000005)
    by (cbn [directions length INR]; lra).
  exact K.
Qed.

Lemma canFlowDown_total (w x y : nat) (st : Droplets) :
  Forall (λ row, length row = w) st → (x < w)%nat →
  is_Some (canFlowDown x y st).
Proof.
  intros Hrect Hx. unfold canFlowDown.
  case_bool_decide as Hy1; [| eauto].
  destruct (cell_rect w st (y + 1) x Hrect Hy1 Hx) as [e He].
  rewrite He. cbn [mbind option_bind].
  case_bool_decide; cbn [mbind option_bind]; eauto.
Qed.

Lemma processWaterCell_rockFixed (w x y : nat) (st : Droplets) :
  openCell w x y st →
  ∃ st', processWaterCell x y st = Some st' ∧ cellwise rockFixed st st'.
Proof.
  intros Hopen. pose proof Hopen as (Hrect & Hy & Hx & c & Hc & Oc).
  unfold processWaterCell.
  assert (H1 : ∃ st1,
    (if bool_decide (y + 1 < length st)%nat then
       below ← cell st (y + 1) x;
       if negb (isObstacle below)
       then fill (y, x) (y + 1, x)%nat 1 0.5 st
       else Some st
     else Some st) = Some st1 ∧ cellwise rockFixed st st1).
  { case_bool_decide as Hy1;
      [| exists st; split; [reflexivity | apply cellwise_refl, rockFixed_refl]].
    destruct (cell_rect w st (y + 1) x Hrect Hy1 Hx) as [e He].
    rewrite He. cbn [mbind option_bind].
    destruct (isObstacle e) eqn:Oe; cbn [negb];
      [exists st; split; [reflexivity | apply cellwise_refl, rockFixed_refl] |].
    apply (fill_rockFixed (y, x) (y + 1, x)%nat _ _ st c e); assumption. }
  destruct H1 as (st1 & -> & K1). cbn [mbind option_bind].
  pose proof (openCell_step w x y st st1 Hopen K1) as Hopen1.
  destruct (canFlowDown_total w x y st1) as [down ->];
    [apply Hopen1 | exact Hx |].
  cbn [mbind option_bind]. destruct down; [eauto |].
  destruct (tryHorizontalFlow_rockFixed w x y st1 Hopen1) as (st2 & -> & K2).
  cbn [mbind option_bind].
  pose proof (openCell_step w x y st1 st2 Hopen1 K2) as Hopen2.
  pose proof Hopen2 as (Hrect2 & Hy2 & _ & c2 & -> & Oc2).
  cbn [mbind option_bind].
  assert (H3 : ∃ st3,
    (if bool_decide (volume c2 > 0) then tryDiagonalFlow x y st2
     else Some st2) = Some st3 ∧ cellwise rockFixed st2 st3).
  { case_bool_decide;
      [apply (tryDiagonalFlow_rockFixed w); exact Hopen2 |].
    exists st2. split; [reflexivity | apply cellwise_refl, rockFixed_refl]. }
  destruct H3 as (st3 & -> & K3). cbn [mbind option_bind].
  pose proof (openCell_step w x y st2 st3 Hopen2 K3) as (Hrect3 & Hy3 & _).
  destruct (applyPressureFlow_within w x y st3 Hrect3 Hy3 Hx) as (st4 & -> & K4).
  exists st4. split; [reflexivity |].
  eapply cellwise_trans; [apply rockFixed_trans | exact K1 |].
  eapply cellwise_trans; [apply rockFixed_trans | exact K2 |].
  eapply cellwise_trans; [apply rockFixed_trans | exact K3 |].
  eapply cellwise_weaken; [apply within_rockFixed | exact K4].
Qed.

(** X19: the pressure flow of [applyPressureFlow] is all but switched
    off.  A transfer is skipped as soon as the pressure difference reaches
    [0.0001], so each of the four directions moves less than
    [0.05 · 0.0001]: on a rectangular state the call never indexes out of
    range, keeps the shape, sizes, kinds and pressures, leaves every
    obstacle untouched, and a volume that was in [[0, 1]] stays there and
    changes by at most [0.00002]. *)
Theorem applyPressureFlow_negligible (w x y : nat) (st : Droplets) :
  Forall (λ row, length row = w) st →
  (y < length st)%nat → (x < w)%nat →
  ∃ st',
    applyPressureFlow x y st = Some st' ∧
    length st' = length st ∧
    (∀ y', length <$> st' !! y' = length <$> st !! y') ∧
    ∀ y' x' d, cell st y' x' = Some d →
      ∃ d', cell st' y' x' = Some d' ∧
            size d' = size d ∧ isObstacle d' = isObstacle d ∧
            pressure d' = pressure d ∧
            (isObstacle d = true → d' = d) ∧
            (0 <= volume d <= 1 →
             0 <= volume d' <= 1 ∧ Rabs (volume d' - volume d) <= 0.00002).
Proof.
  intros Hrect Hy Hx.
  destruct (applyPressureFlow_within w x y st Hrect Hy Hx)
    as (st' & Hrun & [Hlen Hrows] & Hcells).
  exists st'. split; [exact Hrun |]. split; [exact Hlen |].
  split; [exact Hrows |].
  intros y' x' d Hd.
  destruct (Hcells y' x' d Hd) as (d' & Hd' & [[Hsize Hkind] Hrock] & Hp & Hv).
  exists d'. repeat (split; [assumption |]). exact Hv.
Qed.

Lemma applyPressureFlow_negligible_witness :
  let water := mkDroplet 0.5 20 false 0 0 0 in
  let st := [[water; water]; [water; water]] in
  ∃ st',
    applyPressureFlow 0 1 st = Some st' ∧
    length st' = length st ∧
    (∀ y', length <$> st' !! y' = length <$> st !! y') ∧
    ∀ y' x' d, cell st y' x' = Some d →
      ∃ d', cell st' y' x' = Some d' ∧
            size d' = size d ∧ isObstacle d' = isObstacle d ∧
            pressure d' = pressure d ∧
            (isObstacle d = true → d' = d) ∧
            (0 <= volume d <= 1 →
             0 <= volume d' <= 1 ∧ Rabs (volume d' - volume d) <= 0.00002).
Proof.
  intros water st.
  apply (applyPressureFlow_negligible 2 0 1 st);
    [repeat constructor | simpl; lia | lia].
Defined.

(** ** The step of the simulation *)

Lemma sameKind_refl (d : Droplet) : sameKind d d.
Proof. split; reflexivity. Qed.

Lemma sameKind_trans (a b c : Droplet) :
  sameKind a b → sameKind b c → sameKind a c.
Proof. intros [S1 K1] [S2 K2]. split; congruence. Qed.

Lemma copy_same_length (dst src : list Droplet) :
  length dst = length src → copy dst src = src.
Proof.
  intros Hlen. unfold copy.
  rewrite take_ge by lia. rewrite drop_ge by lia. apply app_nil_r.
Qed.

Lemma copy_rows (w : nat) (d0 : Droplet) (st : Droplets) :
  Forall (λ row, length row = w) st →
  zip_with copy (replicate (length st) (replicate w d0)) st = st.
Proof.
  induction 1 as [| row st Hrow _ IH]; [reflexivity |].
  cbn [length replicate zip_with]. rewrite IH.
  rewrite copy_same_length by (rewrite length_replicate; congruence).
  reflexivity.
Qed.

Lemma CreateGameState_nat (w h : nat) (ts : Z) :
  CreateGameState (Z.of_nat w) (Z.of_nat h) ts
  = Some (replicate h (replicate w (mkDroplet 0 ts false 0 0 0))).
Proof.
  unfold CreateGameState.
  rewrite bool_decide_eq_false_2 by lia.
  rewrite (bool_decide_eq_false_2 (Z.of_nat w < 0)%Z) by lia.
  rewrite andb_false_r, !Nat2Z.id. reflexivity.
Qed.

Lemma computePressures_shape (w : nat) (st : Droplets) :
  Forall (λ row, length row = w) st →
  ∃ st', computePressures st = Some st' ∧ cellwise sameKind st st'.
Proof.
  intros Hrect.
  destruct (computePressures_spec w st Hrect) as (st' & Hrun & Hlen & Hcells).
  exists st'. split; [exact Hrun |]. split; [split; [exact Hlen |] |].
  - pose proof (computePressures_loop w st [] Hrect (Forall_nil_2 _)) as Hloop.
    rewrite app_nil_r in Hloop. unfold computePressures in Hrun.
    rewrite Hloop in Hrun. injection Hrun as <-.
    intros y. destruct (st !! y) as [row |] eqn:Hrow.
    + rewrite (pressures_lookup st y row Hrow).
      cbn [fmap option_fmap option_map]. rewrite length_imap. reflexivity.
    + apply lookup_ge_None in Hrow.
      rewrite (proj2 (lookup_ge_None _ _)); [reflexivity |].
      clear -Hrow. revert y Hrow.
      induction st as [| r st IH]; intros y Hy; cbn [foldr length] in *;
        [lia |].
      destruct y as [| y]; [lia |]. specialize (IH y). lia.
  - intros y x d Hd.
    destruct (Hcells y x d Hd) as (d' & Hd' & _ & Hsize & Hkind & _).
    exists d'. split; [exact Hd' | split; assumption].
Qed.

Lemma cell_dampenPressure (st : Droplets) (y x : nat) :
  cell (dampenPressure st) y x = damp <$> cell st y x.
Proof.
  unfold cell, dampenPressure. rewrite list_lookup_fmap.
  destruct (st !! y) as [row |]; cbn [fmap option_fmap option_map mbind option_bind];
    [| reflexivity].
  rewrite list_lookup_fmap. reflexivity.
Qed.

Lemma dampenPressure_sameKind (st : Droplets) :
  cellwise sameKind st (dampenPressure st).
Proof.
  split; [split |].
  - unfold dampenPressure. apply length_fmap.
  - intros y. unfold dampenPressure. rewrite list_lookup_fmap.
    destruct (st !! y) as [row |]; cbn [fmap option_fmap option_map];
      [| reflexivity].
    rewrite length_fmap. reflexivity.
  - intros y x d Hd. rewrite cell_dampenPressure, Hd.
    exists (damp d). split; [reflexivity | split; reflexivity].
Qed.

Lemma restored_weaken (Q Q' : nat → nat → Prop) (old new : Droplets) :
  (∀ y x d, Q' y x → cell old y x = Some d → Q y x) →
  restored Q old new → restored Q' old new.
Proof.
  intros HQ [K R]. split; [exact K |].
  intros y x d Hq Hd Hrock. eapply R; eauto.
Qed.

Lemma visit_restored (w : nat) (Q : nat → nat → Prop) (old new : Droplets)
    (y x : nat) :
  Forall (λ row, length row = w) old →
  (y < length old)%nat → (x < w)%nat →
  restored Q old new →
  ∃ new', visit old y x new = Some new' ∧
          restored (λ y' x', Q y' x' ∨ (y' = y ∧ x' = x)) old new'.
Proof.
  intros Hrect Hy Hx [K R].
  destruct (cell_rect w old y x Hrect Hy Hx) as [d Hd].
  destruct (proj2 K y x d Hd) as (c & Hc & Hsize & Hkind).
  unfold visit. rewrite Hd. cbn [mbind option_bind].
  destruct (isObstacle d) eqn:Od.
  - rewrite Hc. cbn [mbind option_bind]. eexists. split; [reflexivity |].
    split.
    + eapply (cellwise_trans sameKind sameKind sameKind);
        [apply sameKind_trans | exact K |].
      apply cellwise_update; [apply sameKind_refl |].
      intros c' Hc'. assert (c' = c) as -> by congruence.
      split; [congruence | congruence].
    + intros y' x' d' Hq Hd' Hrock.
      destruct (decide (y = y' ∧ x = x')) as [[<- <-] | Hne].
      * rewrite cell_update_same, Hc. cbn [fmap option_fmap option_map].
        congruence.
      * rewrite cell_update_other by exact Hne.
        destruct Hq as [Hq | [-> ->]]; [| exfalso; apply Hne; auto].
        eapply R; eassumption.
  - assert (Hkeep : restored (λ y' x', Q y' x' ∨ y' = y ∧ x' = x) old new).
    { split; [exact K |]. intros y' x' d' [Hq | [-> ->]] Hd' Hrock.
      - eapply R; eassumption.
      - congruence. }
    case_bool_decide; [| eauto].
    case_bool_decide; [| eauto].
    destruct (processWaterCell_rockFixed w x y new) as (new' & -> & K').
    { split; [eapply sameShape_rect; [apply K | exact Hrect] |].
      split; [rewrite (proj1 (proj1 K)); exact Hy |].
      split; [exact Hx |]. exists c. split; [exact Hc | congruence]. }
    exists new'. split; [reflexivity |]. split.
    + eapply (cellwise_trans sameKind rockFixed sameKind);
        [| exact K | exact K'].
      intros a b e Hab [Hbe _]. eapply sameKind_trans; eassumption.
    + intros y' x' d' [Hq | [-> ->]] Hd' Hrock; [| congruence].
      pose proof (R y' x' d' Hq Hd' Hrock) as Hnew.
      destruct (proj2 K' y' x' d' Hnew) as (e & He & _ & Hfix).
      rewrite He, (Hfix Hrock). reflexivity.
Qed.

Lemma visitRow_restored (w : nat) (Q : nat → nat → Prop) (old new : Droplets)
    (y : nat) :
  Forall (λ row, length row = w) old →
  (y < length old)%nat →
  restored Q old new →
  ∃ new', visitRow old y new = Some new' ∧
          restored (λ y' x', Q y' x' ∨ y' = y) old new'.
Proof.
  intros Hrect Hy HQ.
  destruct (row_rect w old y Hrect Hy) as (row & Hrow & Hlen).
  unfold visitRow. rewrite Hrow. cbn [mbind option_bind]. rewrite Hlen.
  assert (Hloop : ∀ n, (n ≤ w)%nat →
            ∃ new', forEach (visit old y) (seq 0 n) new = Some new' ∧
                    restored (λ y' x', Q y' x' ∨ (y' = y ∧ (x' < n)%nat))
                      old new').
  { induction n as [| n IH]; intros Hn.
    - exists new. split; [reflexivity |].
      eapply restored_weaken; [| exact HQ].
      intros y' x' d [Hq | [_ Hlt]] _; [exact Hq | lia].
    - destruct IH as (new1 & Hrun1 & H1); [lia |].
      destruct (visit_restored w (λ y' x', Q y' x' ∨ (y' = y ∧ (x' < n)%nat))
                  old new1 y n Hrect Hy) as (new2 & Hrun2 & H2);
        [lia | exact H1 |].
      exists new2. rewrite seq_S, forEach_app, Hrun1.
      cbn [mbind option_bind Nat.add forEach]. rewrite Hrun2.
      split; [reflexivity |].
      eapply restored_weaken; [| exact H2].
      intros y' x' d [Hq | [-> Hlt]] _; [left; left; exact Hq |].
      destruct (decide (x' = n)) as [-> | Hne]; [right; auto |].
      left. right. split; [reflexivity | lia]. }
  destruct (Hloop w (le_n w)) as (new' & Hrun & H').
  exists new'. split; [exact Hrun |].
  eapply restored_weaken; [| exact H'].
  intros y' x' d [Hq | ->] Hd; [left; exact Hq |].
  right. split; [reflexivity |].
  apply (cell_Some_lt w old y x' d Hrect Hd).
Qed.

Lemma visitRows_restored (w : nat) (old : Droplets) :
  Forall (λ row, length row = w) old →
  ∀ (n : nat) (Q : nat → nat → Prop) (new : Droplets),
    (n ≤ length old)%nat →
    restored Q old new →
    ∃ new', forEach (visitRow old) (rev (seq 0 n)) new = Some new' ∧
            restored (λ y' x', Q y' x' ∨ (y' < n)%nat) old new'.
Proof.
  intros Hrect. induction n as [| n IH]; intros Q new Hn HQ.
  - exists new. split; [reflexivity |].
    eapply restored_weaken; [| exact HQ].
    intros y' x' d [Hq | Hlt] _; [exact Hq | lia].
  - rewrite seq_S, rev_unit. cbn [forEach Nat.add].
    destruct (visitRow_restored w Q old new n Hrect) as (new1 & -> & H1);
      [lia | exact HQ |].
    cbn [mbind option_bind].
    destruct (IH (λ y' x', Q y' x' ∨ y' = n) new1 ltac:(lia) H1)
      as (new2 & -> & H2).
    exists new2. split; [reflexivity |].
    eapply restored_weaken; [| exact H2].
    intros y' x' d [Hq | Hlt] _; [left; left; exact Hq |].
    destruct (decide (y' = n)) as [-> | Hne]; [left; right; reflexivity |].
    right. lia.
Qed.

(** X20: on a rectangular state with at least one row [Update] never
    indexes out of range.  The new state has the shape of the old one,
    every cell keeps its size and its kind, and every obstacle comes out
    exactly as it went in, in all its fields: water never enters an
    obstacle, and what the pressure passes did to it is undone. *)
Theorem Update_safe (w : nat) (g : Game) :
  Forall (λ row, length row = w) (State g) →
  State g ≠ [] →
  ∃ g',
    Update g = Some g' ∧
    Width g' = Width g ∧ Height g' = Height g ∧ tileSize g' = tileSize g ∧
    length (State g') = length (State g) ∧
    (∀ y, length <$> State g' !! y = length <$> State g !! y) ∧
    ∀ y x d, cell (State g) y x = Some d →
      ∃ d', cell (State g') y x = Some d' ∧
            size d' = size d ∧ isObstacle d' = isObstacle d ∧
            (isObstacle d = true → d' = d).
Proof.
  intros Hrect Hne. destruct g as [W H old ts]. cbn [State] in *.
  unfold Update. cbn [State Width Height tileSize].
  destruct (row_rect w old 0 Hrect) as (row0 & -> & Hlen0).
  { destruct old; [contradiction | cbn [length]; lia]. }
  cbn [mbind option_bind]. rewrite Hlen0, CreateGameState_nat.
  cbn [mbind option_bind]. rewrite (copy_rows w _ old Hrect).
  destruct (computePressures_shape w old Hrect) as (st1 & -> & K1).
  cbn [mbind option_bind].
  assert (K2 : cellwise sameKind old (dampenPressure st1)).
  { eapply cellwise_trans;
      [apply sameKind_trans | exact K1 | apply dampenPressure_sameKind]. }
  destruct (visitRows_restored w old Hrect (length old) (λ _ _, False)
              (dampenPressure st1) (le_n _)) as (st2 & -> & [K3 R3]).
  { split; [exact K2 |]. intros y x d []. }
  cbn [mbind option_bind]. eexists. split; [reflexivity |].
  cbn [State Width Height tileSize].
  repeat (split; [reflexivity |]).
  split; [apply K3 |]. split; [apply K3 |].
  intros y x d Hd. destruct (proj2 K3 y x d Hd) as (d' & Hd' & Hsize & Hkind).
  exists d'. repeat (split; [assumption |]).
  intros Hrock.
  assert (Hfix : cell st2 y x = Some d).
  { apply R3; [right | exact Hd | exact Hrock].
    apply (cell_Some_lt w old y x d Hrect Hd). }
  congruence.
Qed.

Lemma Update_safe_witness :
  let water := mkDroplet 0.5 20 false 0 0 0 in
  let rock := mkDroplet 0 20 true 0 0 0 in
  let g := mkGame 40 40 [[water; rock]; [water; water]] 20 in
  ∃ g',
    Update g = Some g' ∧
    Width g' = Width g ∧ Height g' = Height g ∧ tileSize g' = tileSize g ∧
    length (State g') = length (State g) ∧
    (∀ y, length <$> State g' !! y = length <$> State g !! y) ∧
    ∀ y x d, cell (State g) y x = Some d →
      ∃ d', cell (State g') y x = Some d' ∧
            size d' = size d ∧ isObstacle d' = isObstacle d ∧
            (isObstacle d = true → d' = d).
Proof.
  intros water rock g.
  apply (Update_safe 2 g); [repeat constructor | discriminate].
Defined.

(** ** A fresh game *)

Lemma forEach_fixed {A B : Type} (body : B → A → option A) (xs : list B) (a : A) :
  (∀ x, x ∈ xs → body x a = Some a) → forEach body xs a = Some a.
Proof.
  induction xs as [| x xs IH]; intros Hfix; [reflexivity |].
  cbn [forEach]. rewrite Hfix by left. cbn [mbind option_bind].
  apply IH. intros x' Hx'. apply Hfix. right. exact Hx'.
Qed.

Lemma imap_fixed {A : Type} (f : nat → A → A) (l : list A) :
  (∀ i x, l !! i = Some x → f i x = x) → imap f l = l.
Proof.
  intros Hfix. apply list_eq. intros i. rewrite list_lookup_imap.
  destruct (l !! i) as [x |] eqn:Hx; [| reflexivity].
  cbn [fmap option_fmap option_map]. rewrite (Hfix i x Hx). reflexivity.
Qed.

Lemma pressures_fresh (w h : nat) (ts : Z) :
  foldr (λ row acc, imap (newCell (head acc)) row :: acc) []
    (replicate h (replicate w (mkDroplet 0 ts false 0 0 0)))
  = replicate h (replicate w (mkDroplet 0 ts false 0 0 0)).
Proof.
  induction h as [| h IH]; [reflexivity |].
  cbn [replicate foldr]. rewrite IH. f_equal.
  apply imap_fixed. intros i d Hd.
  apply lookup_replicate in Hd as [-> Hi].
  unfold newCell. cbn [isObstacle].
  destruct h as [| h]; cbn [replicate head]; [reflexivity |].
  rewrite lookup_replicate_2 by exact Hi.
  cbn [isObstacle]. unfold setPressure. cbn [volume size isObstacle vx vy pressure].
  f_equal. lra.
Qed.

Lemma computePressures_fresh (w h : nat) (ts : Z) :
  computePressures (replicate h (replicate w (mkDroplet 0 ts false 0 0 0)))
  = Some (replicate h (replicate w (mkDroplet 0 ts false 0 0 0))).
Proof.
  pose proof (computePressures_loop w
                (replicate h (replicate w (mkDroplet 0 ts false 0 0 0))) [])
    as Hloop.
  rewrite app_nil_r, pressures_fresh in Hloop. apply Hloop.
  - apply Forall_replicate. apply length_replicate.
  - apply Forall_nil_2.
Qed.

Lemma dampenPressure_fresh (w h : nat) (ts : Z) :
  dampenPressure (replicate h (replicate w (mkDroplet 0 ts false 0 0 0)))
  = replicate h (replicate w (mkDroplet 0 ts false 0 0 0)).
Proof.
  unfold dampenPressure. rewrite !fmap_replicate.
  cbn [volume size isObstacle vx vy pressure].
  do 2 f_equal. f_equal; lra.
Qed.

Lemma Update_fresh (W H : Z) (w h : nat) (ts : Z) :
  Update (mkGame W H (replicate h (replicate w (mkDroplet 0 ts false 0 0 0))) ts)
  = match h with
    | O => None
    | S _ => Some (mkGame W H
                     (replicate h (replicate w (mkDroplet 0 ts false 0 0 0))) ts)
    end.
Proof.
  destruct h as [| h]; [reflexivity |].
  set (fresh := replicate (S h) (replicate w (mkDroplet 0 ts false 0 0 0))).
  assert (Hrect : Forall (λ row, length row = w) fresh)
    by (apply Forall_replicate, length_replicate).
  assert (Hlen : length fresh = S h) by apply length_replicate.
  unfold Update. cbn [State Width Height tileSize].
  change (fresh !! 0%nat) with (Some (replicate w (mkDroplet 0 ts false 0 0 0))).
  cbn [mbind option_bind]. rewrite length_replicate.
  rewrite CreateGameState_nat. cbn [mbind option_bind].
  rewrite (copy_rows w _ fresh Hrect).
  subst fresh. rewrite computePressures_fresh. cbn [mbind option_bind].
  rewrite dampenPressure_fresh.
  set (fresh := replicate (S h) (replicate w (mkDroplet 0 ts false 0 0 0))) in *.
  rewrite forEach_fixed; [reflexivity |].
  intros y Hy. apply list_elem_of_In, in_rev, list_elem_of_In, elem_of_seq in Hy.
  unfold visitRow.
  destruct (row_rect w fresh y Hrect) as (row & -> & Hrow); [lia |].
  cbn [mbind option_bind]. apply forEach_fixed.
  intros x Hx. apply elem_of_seq in Hx.
  unfold visit, cell. subst fresh.
  rewrite lookup_replicate_2 by lia. cbn [mbind option_bind].
  rewrite lookup_replicate_2 by lia. cbn [mbind option_bind isObstacle volume].
  rewrite bool_decide_eq_false_2 by lra. reflexivity.
Qed.

(** X21: a game made by [NewGame] from a positive tile size and
    non-negative pixel sizes is a grid of [h ÷ ts] rows of [w ÷ ts] empty
    droplets of that size.  It is a fixed point of [Update], unless the
    window is lower than one tile: the grid then has no row, and [Update]
    indexes its first row out of range. *)
Theorem NewGame_Update (w h ts : Z) :
  (0 < ts ≤ maxInt)%Z → (0 ≤ w ≤ maxInt)%Z → (0 ≤ h ≤ maxInt)%Z →
  ∃ g,
    NewGame w h ts = Some g ∧
    g = mkGame w h
          (replicate (Z.to_nat (h ÷ ts))
             (replicate (Z.to_nat (w ÷ ts)) (mkDroplet 0 ts false 0 0 0))) ts ∧
    Update g = if bool_decide (h < ts)%Z then None else Some g.
Proof.
  intros Hts Hw Hh.
  assert (Hqw : (0 ≤ w ÷ ts ≤ w)%Z).
  { rewrite Z.quot_div_nonneg by lia.
    split; [apply Z.div_pos; lia | apply Z.div_le_upper_bound; nia]. }
  assert (Hqh : (0 ≤ h ÷ ts ≤ h)%Z).
  { rewrite Z.quot_div_nonneg by lia.
    split; [apply Z.div_pos; lia | apply Z.div_le_upper_bound; nia]. }
  eexists. split; [| split; [reflexivity |]].
  - unfold NewGame. rewrite bool_decide_eq_false_2 by lia.
    rewrite !wrap_small by (unfold minInt, maxInt in *; lia).
    unfold CreateGameState.
    rewrite bool_decide_eq_false_2 by lia.
    rewrite (bool_decide_eq_false_2 (w ÷ ts < 0)%Z) by lia.
    rewrite andb_false_r. reflexivity.
  - rewrite Update_fresh.
    destruct (bool_decide_reflect (h < ts)%Z) as [Hlt | Hge].
    + rewrite Z.quot_small by lia. reflexivity.
    + assert (1 ≤ h ÷ ts)%Z.
      { rewrite Z.quot_div_nonneg by lia.
        apply Z.div_le_lower_bound; lia. }
      destruct (Z.to_nat (h ÷ ts)) eqn:E; [lia | reflexivity].
Qed.

Lemma NewGame_Update_witness :
  ∃ g,
    NewGame 1920 1080 20 = Some g ∧
    g = mkGame 1920 1080
          (replicate (Z.to_nat (1080 ÷ 20))
             (replicate (Z.to_nat (1920 ÷ 20)) (mkDroplet 0 20 false 0 0 0))) 20 ∧
    Update g = if bool_decide (1080 < 20)%Z then None else Some g.
Proof.
  apply (NewGame_Update 1920 1080 20); unfold maxInt; lia.
Defined.

(** ** Horizontal flow *)

Lemma conserves_refl (A : nat → nat → Prop) (st : Droplets) : conserves A st st.
Proof. split; [apply sameShape_refl | split; reflexivity]. Qed.

Lemma conserves_trans (A : nat → nat → Prop) (st1 st2 st3 : Droplets) :
  conserves A st1 st2 → conserves A st2 st3 → conserves A st1 st3.
Proof.
  intros (S1 & V1 & C1) (S2 & V2 & C2).
  split; [eapply sameShape_trans; eassumption |]. split; [congruence |].
  intros y x Hn. rewrite (C2 y x Hn). apply C1, Hn.
Qed.

Lemma flowTo_conserves (w x y tx offset : nat) (st : Droplets) :
  Forall (λ row, length row = w) st →
  (y < length st)%nat → (x < w)%nat → (tx < w)%nat →
  tx ≠ x → offset ≠ 0%nat →
  ∃ st', flowTo x y tx offset st = Some st' ∧
         conserves (λ y' x', y' = y ∧ (x' = x ∨ x' = tx)) st st'.
Proof.
  intros Hrect Hy Hx Htx Hne Hoff.
  destruct (cell_rect w st y x Hrect Hy Hx) as [c Hc].
  destruct (cell_rect w st y tx Hrect Hy Htx) as [t Ht].
  unfold flowTo. rewrite Ht, Hc. cbn [mbind option_bind].
  destruct (bool_decide (volume t < volume c) && negb (isObstacle t));
    [| exists st; split; [reflexivity | apply conserves_refl]].
  rewrite fdiv_Some by (apply not_0_INR; exact Hoff).
  cbn [mbind option_bind].
  destruct (fill_spec (y, x) (y, tx) 1
              ((volume c - volume t) * 0.1 / INR offset) st c t Hc Ht)
    as (st' & Hrun & Hvol & Hlen & Hrows & Hcells).
  exists st'. split; [exact Hrun |].
  split; [split; assumption |]. split; [exact Hvol |].
  intros y' x' Hout.
  destruct Hcells as (_ & _ & _ & _ & Hsame); [intros E; congruence |].
  apply Hsame; intros E; injection E as -> ->; apply Hout; auto.
Qed.

Lemma tryHorizontalFlow_conserves (w x y : nat) (st : Droplets) :
  Forall (λ row, length row = w) st →
  (y < length st)%nat → (x < w)%nat →
  ∃ st',
    tryHorizontalFlow x y st = Some st' ∧
    conserves (λ y' x', y' = y ∧ (x ≤ x' + 3)%nat ∧ (x' ≤ x + 3)%nat) st st' ∧
    ((∀ e, cell st (y + 1) x = Some e → volume e <= 0.5) → st' = st).
Proof.
  intros Hrect Hy Hx.
  set (A := λ y' x' : nat, y' = y ∧ (x ≤ x' + 3)%nat ∧ (x' ≤ x + 3)%nat).
  set (Pre := λ s : Droplets,
                Forall (λ row, length row = w) s ∧ (y < length s)%nat).
  assert (Hpre : ∀ s s', Pre s → conserves A s s' → Pre s').
  { intros s s' [Hr Hl] (Hs & _). split;
      [eapply sameShape_rect; eassumption | rewrite (proj1 Hs); exact Hl]. }
  assert (Hoffsets : ∀ o : nat, o ∈ [1; 2; 3]%nat → (1 ≤ o ≤ 3)%nat).
  { intros o Ho. rewrite !elem_of_cons, elem_of_nil in Ho. lia. }
  assert (Hflow : ∀ o tx s, o ∈ [1; 2; 3]%nat → Pre s → (tx < w)%nat →
            (tx = x + o ∨ tx + o = x)%nat →
            ∃ s', flowTo x y tx o s = Some s' ∧ conserves A s s').
  { intros o tx s Ho [Hr Hl] Htx Hat. specialize (Hoffsets o Ho).
    destruct (flowTo_conserves w x y tx o s Hr Hl Hx Htx)
      as (s' & Hrun & Hs & Hv & Hc); [lia | lia |].
    exists s'. split; [exact Hrun |]. split; [exact Hs |].
    split; [exact Hv |].
    intros y' x' Hout. apply Hc. intros [-> Hx'].
    apply Hout. subst A. cbn beta. lia. }
  destruct (cell_rect w st y x Hrect Hy Hx) as [c Hc].
  unfold tryHorizontalFlow. rewrite Hc. cbn [mbind option_bind].
  assert (Hbelow : ∃ b,
    (if bool_decide (y + 1 < length st)%nat then
       below ← cell st (y + 1) x; Some (bool_decide (volume below > 0.5))
     else Some false) = Some b ∧
    ((∀ e, cell st (y + 1) x = Some e → volume e <= 0.5) → b = false)).
  { case_bool_decide as Hy1; [| eauto].
    destruct (cell_rect w st (y + 1) x Hrect Hy1 Hx) as [e He].
    rewrite He. cbn [mbind option_bind]. eexists. split; [reflexivity |].
    intros Hdry. specialize (Hdry e eq_refl).
    apply bool_decide_eq_false_2. lra. }
  destruct Hbelow as (b & -> & Hdry). cbn [mbind option_bind].
  destruct b; cbn [negb].
  2: { exists st. split; [reflexivity |].
       split; [apply conserves_refl | reflexivity]. }
  destruct (cascade_inv Pre (conserves A)
              (λ offset st,
                 row ← st !! y; Some (bool_decide (x + offset < length row)%nat))
              (λ offset, flowTo x y (x + offset) offset) [1; 2; 3]%nat
              (conserves_refl A) (conserves_trans A) Hpre)
    with (st := st) as (s1 & -> & K1); [| split; assumption |].
  { intros o s Ho Hs. pose proof Hs as [Hr Hl].
    destruct (row_rect w s y Hr Hl) as (row & -> & Hlen).
    cbn [mbind option_bind]. eexists. split; [reflexivity |].
    intros Hb. apply bool_decide_eq_true in Hb.
    apply Hflow; [exact Ho | exact Hs | lia | left; reflexivity]. }
  cbn [mbind option_bind].
  destruct (cascade_inv Pre (conserves A)
              (λ offset _, Some (bool_decide (Z.of_nat x - Z.of_nat offset >= 0)%Z))
              (λ offset, flowTo x y (x - offset) offset) [1; 2; 3]%nat
              (conserves_refl A) (conserves_trans A) Hpre)
    with (st := s1) as (s2 & -> & K2);
    [| apply (Hpre st s1); [split; assumption | exact K1] |].
  { intros o s Ho Hs. eexists. split; [reflexivity |].
    intros Hb. apply bool_decide_eq_true in Hb.
    apply Hflow; [exact Ho | exact Hs | lia | right; lia]. }
  exists s2. split; [reflexivity |].
  split; [eapply conserves_trans; eassumption |].
  intros Hd. discriminate (Hdry Hd).
Qed.

(** X22: on a rectangular state [tryHorizontalFlow] never indexes out of
    range.  It conserves the total volume and the shape, and changes no
    cell outside the row [y] or more than three columns from [x]; and it
    does nothing at all unless the cell below holds more than half a
    cell of water, so nothing spreads in the last row. *)
Theorem tryHorizontalFlow_spec (w x y : nat) (st : Droplets) :
  Forall (λ row, length row = w) st →
  (y < length st)%nat → (x < w)%nat →
  ∃ st',
    tryHorizontalFlow x y st = Some st' ∧
    totalVolume st' = totalVolume st ∧
    length st' = length st ∧
    (∀ y', length <$> st' !! y' = length <$> st !! y') ∧
    (∀ y' x', (y' ≠ y ∨ x' + 3 < x ∨ x + 3 < x')%nat →
              cell st' y' x' = cell st y' x') ∧
    ((∀ e, cell st (y + 1) x = Some e → volume e <= 0.5) → st' = st).
Proof.
  intros Hrect Hy Hx.
  destruct (tryHorizontalFlow_conserves w x y st Hrect Hy Hx)
    as (st' & Hrun & ([Hlen Hrows] & Hvol & Hcells) & Hdry).
  exists st'. repeat (split; [assumption |]).
  split; [| exact Hdry].
  intros y' x' Hout. apply Hcells. lia.
Qed.

Lemma tryHorizontalFlow_spec_witness :
  let water := mkDroplet 0.8 20 false 0 0 0 in
  let air := mkDroplet 0 20 false 0 0 0 in
  let st := [[air; water; air]; [water; water; water]] in
  ∃ st',
    tryHorizontalFlow 1 0 st = Some st' ∧
    totalVolume st' = totalVolume st ∧
    length st' = length st ∧
    (∀ y', length <$> st' !! y' = length <$> st !! y') ∧
    (∀ y' x', (y' ≠ 0 ∨ x' + 3 < 1 ∨ 1 + 3 < x')%nat →
              cell st' y' x' = cell st y' x') ∧
    ((∀ e, cell st (0 + 1) 1 = Some e → volume e <= 0.5) → st' = st).
Proof.
  intros water air st.
  apply (tryHorizontalFlow_spec 3 1 0 st);
    [repeat constructor | simpl; lia | lia].
Defined.

End GridSim.
